(** * parallel-graph: a thread pool draining a graph traversal

    Shallow embedding of [os_threadpool.h], [os_threadpool.c] and
    [parallel.c].  The C functions are written in a small state-and-error
    monad over one machine state ([world]): the heap of malloc'ed objects,
    the pool object [*tp], the graph, the global [sum], the two mutexes,
    the thread table and the results the C library hands back. *)

From stdpp Require Import base gmap list strings.
From Stdlib Require Import ZArith Lia.

Open Scope Z_scope.

(** ** Data model *)

Abbreviation tid := nat.

Definition NULL : Z := 0.

(** [unsigned int] and [int] arithmetic of the target: 32 bits, wrapping. *)
Definition UINT_MAX : Z := 4294967295.
Definition INT_MAX : Z := 2147483647.
Definition INT_MIN : Z := -2147483648.
Definition wrap_uint (z : Z) : Z := z mod 4294967296.
Definition wrap_int (z : Z) : Z := (z + 2147483648) mod 4294967296 - 2147483648.

(** Functions of the program that are passed around as pointers. *)
Inductive fn := process_node_fn | free_function_fn.

(** A pointer to an [os_list_node_t]: the list nodes of this program are the
    pool's [head] and the [list] member of a task. *)
Inductive lptr := LHead | LTask (t : Z).

Global Instance lptr_eq_dec : EqDecision lptr.
Proof. solve_decision. Defined.

Global Instance fn_eq_dec : EqDecision fn.
Proof. solve_decision. Defined.

#[local] Set Primitive Projections.

Record os_list_node_t := ListNode { prev : lptr; next : lptr }.

(** [os_task_t]; a NULL function pointer is [None]; the member [list] is
    [list_] here. *)
Record os_task_t := Task {
  argument : Z;
  action : option fn;
  destroy_arg : option fn;
  list_ : os_list_node_t
}.

(** [os_threadpool_t]; an entry of [threads] that [pthread_create] never
    wrote is [None]. *)
Record os_threadpool_t := Pool {
  num_threads : nat;
  threads : list (option tid);
  num_tasks : Z;
  finished : bool;
  head : os_list_node_t;
  mutex_queue : option tid
}.

Inductive visit_state := NOT_VISITED | PROCESSING | DONE.

Global Instance visit_state_eq_dec : EqDecision visit_state.
Proof. solve_decision. Defined.

Record os_node_t := Node {
  info : Z;
  num_neighbours : nat;
  neighbours : list nat
}.

Record os_graph_t := Graph {
  num_nodes : nat;
  nodes : list os_node_t;
  visited : list visit_state
}.

(** Objects of the malloc heap. *)
Inductive obj := OTask (t : os_task_t) | OUint (v : nat).

(** Program points of a thread between two of its atomic blocks. *)
Inductive pc :=
| PcMain (k : nat)
| PcDequeue
| PcAction (t : Z)
| PcNbr (t : Z) (idx : nat) (i : nat)
| PcExited.

Inductive mutex := MutexQueue | MutexGraph.

Global Instance mutex_eq_dec : EqDecision mutex.
Proof. solve_decision. Defined.

Inductive libcall :=
| c_malloc
| c_mutex_init (m : mutex)
| c_cond_init
| c_mutex_lock (m : mutex)
| c_mutex_unlock (m : mutex)
| c_cond_wait
| c_cond_broadcast
| c_create
| c_join (h : option tid)
| c_mutex_destroy (m : mutex)
| c_cond_destroy.

(** What a run leaves behind, newest first. *)
Inductive event :=
| EvLib (i : tid) (c : libcall) (rc : Z)
| EvFree (a : Z)
| EvCall (f : fn) (arg : Z)
| EvStoreVisited (idx : nat) (v : visit_state)
| EvDie (msg : string)
| EvPrint (v : Z).

Record world := World {
  heap : gmap Z obj;
  brk : Z;
  tp : os_threadpool_t;
  graph : os_graph_t;
  sum : Z;
  mutex_graph : option tid;
  thr : list pc;
  self : tid;
  rcs : list Z;
  trace : list event;
  out : list Z
}.

#[local] Unset Primitive Projections.

Definition set_heap (f : gmap Z obj → gmap Z obj) (w : world) : world :=
  World (f (heap w)) (brk w) (tp w) (graph w) (sum w) (mutex_graph w)
        (thr w) (self w) (rcs w) (trace w) (out w).
Definition set_brk (b : Z) (w : world) : world :=
  World (heap w) b (tp w) (graph w) (sum w) (mutex_graph w)
        (thr w) (self w) (rcs w) (trace w) (out w).
Definition set_tp (f : os_threadpool_t → os_threadpool_t) (w : world) : world :=
  World (heap w) (brk w) (f (tp w)) (graph w) (sum w) (mutex_graph w)
        (thr w) (self w) (rcs w) (trace w) (out w).
Definition set_graph (f : os_graph_t → os_graph_t) (w : world) : world :=
  World (heap w) (brk w) (tp w) (f (graph w)) (sum w) (mutex_graph w)
        (thr w) (self w) (rcs w) (trace w) (out w).
Definition set_sum (s : Z) (w : world) : world :=
  World (heap w) (brk w) (tp w) (graph w) s (mutex_graph w)
        (thr w) (self w) (rcs w) (trace w) (out w).
Definition set_mutex_graph (o : option tid) (w : world) : world :=
  World (heap w) (brk w) (tp w) (graph w) (sum w) o
        (thr w) (self w) (rcs w) (trace w) (out w).
Definition set_thr (f : list pc → list pc) (w : world) : world :=
  World (heap w) (brk w) (tp w) (graph w) (sum w) (mutex_graph w)
        (f (thr w)) (self w) (rcs w) (trace w) (out w).
Definition set_self (i : tid) (w : world) : world :=
  World (heap w) (brk w) (tp w) (graph w) (sum w) (mutex_graph w)
        (thr w) i (rcs w) (trace w) (out w).
Definition set_rcs (l : list Z) (w : world) : world :=
  World (heap w) (brk w) (tp w) (graph w) (sum w) (mutex_graph w)
        (thr w) (self w) l (trace w) (out w).
Definition log (e : event) (w : world) : world :=
  World (heap w) (brk w) (tp w) (graph w) (sum w) (mutex_graph w)
        (thr w) (self w) (rcs w) (e :: trace w) (out w).
Definition set_out (l : list Z) (w : world) : world :=
  World (heap w) (brk w) (tp w) (graph w) (sum w) (mutex_graph w)
        (thr w) (self w) (rcs w) (trace w) l.

Definition set_num_tasks (n : Z) (p : os_threadpool_t) : os_threadpool_t :=
  Pool (num_threads p) (threads p) n (finished p) (head p) (mutex_queue p).
Definition set_finished (b : bool) (p : os_threadpool_t) : os_threadpool_t :=
  Pool (num_threads p) (threads p) (num_tasks p) b (head p) (mutex_queue p).
Definition set_head (h : os_list_node_t) (p : os_threadpool_t) : os_threadpool_t :=
  Pool (num_threads p) (threads p) (num_tasks p) (finished p) h (mutex_queue p).
Definition set_mutex_queue (o : option tid) (p : os_threadpool_t) : os_threadpool_t :=
  Pool (num_threads p) (threads p) (num_tasks p) (finished p) (head p) o.
Definition set_threads (l : list (option tid)) (p : os_threadpool_t) : os_threadpool_t :=
  Pool (num_threads p) l (num_tasks p) (finished p) (head p) (mutex_queue p).
Definition set_list (n : os_list_node_t) (t : os_task_t) : os_task_t :=
  Task (argument t) (action t) (destroy_arg t) n.
Definition set_visited (l : list visit_state) (g : os_graph_t) : os_graph_t :=
  Graph (num_nodes g) (nodes g) l.

(** ** The monad of the embedding

    A piece of C either returns ([Ret]), ends the process ([Exit]: [DIE],
    a failed [assert]), suspends its thread inside a pthread call
    ([Block]), or has no defined behaviour ([Fault]: a read or write
    through a pointer to nothing). *)

Inductive result (A : Type) :=
| Ret (a : A) (w : world)
| Exit (w : world)
| Block
| Fault.

Arguments Ret {A} a w.
Arguments Exit {A} w.
Arguments Block {A}.
Arguments Fault {A}.

Definition M (A : Type) : Type := world → result A.

Definition ret {A} (a : A) : M A := fun w => Ret a w.

Definition bind {A B} (m : M A) (k : A → M B) : M B :=
  fun w => match m w with
           | Ret a w' => k a w'
           | Exit w' => Exit w'
           | Block => Block
           | Fault => Fault
           end.

Declare Scope c_scope.
Delimit Scope c_scope with C.
Notation "'let*' x := m 'in' k" := (bind m (fun x => k))
  (at level 10, x name, m at level 100, k at level 200) : c_scope.
Notation "m ;;; k" := (bind m (fun _ => k))
  (at level 100, k at level 200, right associativity) : c_scope.
Open Scope c_scope.

Definition get {A} (f : world → A) : M A := fun w => Ret (f w) w.
Definition modify (f : world → world) : M unit := fun w => Ret tt (f w).
Definition fault {A} : M A := fun _ => Fault.
Definition block {A} : M A := fun _ => Block.
Definition emit (e : event) : M unit := modify (log e).

(** [exit()] after the diagnostic. *)
Definition die {A} (msg : string) : M A := fun w => Exit (log (EvDie msg) w).

(** Modelled from the spec: the macro [DIE] of utils.h, which is not among the
    sources; a true condition ends the process with a diagnostic. *)
Definition DIE (c : bool) (msg : string) : M unit :=
  if c then die msg else ret tt.

(** [assert] of assert.h. *)
Definition assert_ (c : bool) : M unit :=
  if c then ret tt else die "assert".

(** ** The C library, as far as the program uses it *)

(** The result the next library call reports: the head of [rcs]; when the
    list is used up every call succeeds. *)
Definition next_rc : M Z :=
  fun w => Ret (hd 0 (rcs w)) (set_rcs (tl (rcs w)) w).

Definition lib (c : libcall) (rc : Z) : M unit :=
  fun w => Ret tt (log (EvLib (self w) c rc) w).

Definition owner (m : mutex) (w : world) : option tid :=
  match m with
  | MutexQueue => mutex_queue (tp w)
  | MutexGraph => mutex_graph w
  end.

Definition set_owner (m : mutex) (o : option tid) (w : world) : world :=
  match m with
  | MutexQueue => set_tp (set_mutex_queue o) w
  | MutexGraph => set_mutex_graph o w
  end.

Definition pthread_mutex_init (m : mutex) : M Z :=
  let* rc := next_rc in
  (if bool_decide (rc = 0) then modify (set_owner m None) else ret tt) ;;;
  lib (c_mutex_init m) rc ;;;
  ret rc.

Definition pthread_cond_init : M Z :=
  let* rc := next_rc in
  lib c_cond_init rc ;;;
  ret rc.

(** A mutex someone holds suspends the caller. *)
Definition pthread_mutex_lock (m : mutex) : M Z :=
  let* rc := next_rc in
  if bool_decide (rc = 0) then
    let* o := get (owner m) in
    match o with
    | None =>
        let* me := get self in
        modify (set_owner m (Some me)) ;;;
        lib (c_mutex_lock m) 0 ;;;
        ret 0
    | Some _ => block
    end
  else lib (c_mutex_lock m) rc ;;; ret rc.

(** Only the owner may unlock. *)
Definition pthread_mutex_unlock (m : mutex) : M Z :=
  let* rc := next_rc in
  if bool_decide (rc = 0) then
    let* o := get (owner m) in
    let* me := get self in
    if bool_decide (o = Some me) then
      modify (set_owner m None) ;;;
      lib (c_mutex_unlock m) 0 ;;;
      ret 0
    else fault
  else lib (c_mutex_unlock m) rc ;;; ret rc.

(** A wait that succeeds suspends the caller: the mutex is handed back, and
    the thread runs again, holding the mutex, after a broadcast.  The model
    restarts the interrupted call at its first statement then. *)
Definition pthread_cond_wait : M Z :=
  let* rc := next_rc in
  if bool_decide (rc = 0) then block
  else lib c_cond_wait rc ;;; ret rc.

Definition pthread_cond_broadcast : M Z :=
  let* rc := next_rc in
  lib c_cond_broadcast rc ;;;
  ret rc.

(** A thread that was created starts at the top of [thread_loop_function];
    its handle is its index in the thread table. *)
Definition pthread_create : M (Z * option tid) :=
  let* rc := next_rc in
  lib c_create rc ;;;
  if bool_decide (rc = 0) then
    let* h := get (fun w => length (thr w)) in
    modify (set_thr (fun l => l ++ [PcDequeue])) ;;;
    ret (0, Some h)
  else ret (rc, None).

(** Joining returns once the thread has left its function. *)
Definition pthread_join (h : option tid) : M Z :=
  let* rc := next_rc in
  if bool_decide (rc = 0) then
    match h with
    | None => fault
    | Some i =>
        let* p := get (fun w => thr w !! i) in
        match p with
        | Some PcExited => lib (c_join h) 0 ;;; ret 0
        | Some _ => block
        | None => fault
        end
    end
  else lib (c_join h) rc ;;; ret rc.

Definition pthread_mutex_destroy (m : mutex) : M Z :=
  let* rc := next_rc in
  lib (c_mutex_destroy m) rc ;;;
  ret rc.

Definition pthread_cond_destroy : M Z :=
  let* rc := next_rc in
  lib c_cond_destroy rc ;;;
  ret rc.

(** [malloc] hands out an address no object lives at, or NULL. *)
Definition malloc : M Z :=
  let* rc := next_rc in
  lib c_malloc rc ;;;
  if bool_decide (rc = 0) then
    let* a := get brk in
    modify (set_brk (a + 1)) ;;;
    ret a
  else ret NULL.

Definition free (a : Z) : M unit :=
  if bool_decide (a = NULL) then ret tt
  else
    let* o := get (fun w => heap w !! a) in
    match o with
    | Some _ => modify (set_heap (delete a)) ;;; emit (EvFree a)
    | None => fault
    end.

Definition load_task (t : Z) : M os_task_t :=
  fun w => match heap w !! t with
           | Some (OTask tk) => Ret tk w
           | _ => Fault
           end.

Definition load_uint (a : Z) : M nat :=
  fun w => match heap w !! a with
           | Some (OUint v) => Ret v w
           | _ => Fault
           end.

(** A store to an address [malloc] returned. *)
Definition store (a : Z) (o : obj) : M unit :=
  if bool_decide (a = NULL) then fault
  else modify (set_heap (insert a o)).

(** ** os_list.h *)

(** The list node a pointer leads to, and the store of a whole node. *)
Definition node_at (w : world) (p : lptr) : option os_list_node_t :=
  match p with
  | LHead => Some (head (tp w))
  | LTask t =>
      match heap w !! t with
      | Some (OTask tk) => Some (list_ tk)
      | _ => None
      end
  end.

Definition put_list (n : os_list_node_t) (o : obj) : obj :=
  match o with
  | OTask tk => OTask (set_list n tk)
  | OUint v => OUint v
  end.

Definition put_node (p : lptr) (n : os_list_node_t) (w : world) : world :=
  match p with
  | LHead => set_tp (set_head n) w
  | LTask t => set_heap (alter (put_list n) t) w
  end.

Definition load_node (p : lptr) : M os_list_node_t :=
  fun w => match node_at w p with
           | Some n => Ret n w
           | None => Fault
           end.

Definition store_node (p : lptr) (n : os_list_node_t) : M unit :=
  fun w => match node_at w p with
           | Some _ => Ret tt (put_node p n w)
           | None => Fault
           end.

(** [p->next = v] and [p->prev = v]. *)
Definition store_next (p v : lptr) : M unit :=
  let* n := load_node p in
  store_node p (ListNode (prev n) v).

Definition store_prev (p v : lptr) : M unit :=
  let* n := load_node p in
  store_node p (ListNode v (next n)).

(** Modelled from the spec: os_list.h is not among the sources.  The queue is
    the circular doubly linked list os_threadpool.h describes (first item
    [head.next], last item [head.prev], empty when [head.next] is the head
    itself); [list_init] links the head to itself. *)
Definition list_init (h : lptr) : M unit :=
  store_prev h h ;;;
  store_next h h.

(** Modelled from the spec: [list_empty] of os_list.h; the queue is empty
    when [head.next] is the head. *)
Definition list_empty (h : lptr) : M bool :=
  let* n := load_node h in
  ret (bool_decide (next n = h)).

(** Modelled from the spec: [list_del] of os_list.h; the node is taken out
    of its list by linking its two neighbours to each other, and is left
    linked to itself. *)
Definition list_del (p : lptr) : M unit :=
  let* n := load_node p in
  store_next (prev n) (next n) ;;;
  let* n := load_node p in
  store_prev (next n) (prev n) ;;;
  store_next p p ;;;
  store_prev p p.

(** Modelled from the spec: [list_entry] of os_list.h, the task a list node
    is a member of.  The head is a member of no task. *)
Definition list_entry (p : lptr) : M Z :=
  match p with
  | LTask t => ret t
  | LHead => fault
  end.

(** ** Loops *)

(** [for (i = lo; i < lo + count; i++) body(i)]. *)
Fixpoint for_from (count lo : nat) (body : nat → M unit) : M unit :=
  match count with
  | O => ret tt
  | S c => body lo ;;; for_from c (S lo) body
  end.

Inductive loop_ctl := Continue | Break.

(** [while (1) body], cut after [fuel] rounds; the result tells whether the
    loop was left through [break]. *)
Fixpoint forever (fuel : nat) (body : M loop_ctl) : M bool :=
  match fuel with
  | O => ret false
  | S f =>
      let* c := body in
      match c with
      | Break => ret true
      | Continue => forever f body
      end
  end.

(** ** os_threadpool.c *)

Section os_threadpool.

(** What a call through a function pointer runs. *)
Variable call : fn → Z → M unit.

Definition call_ptr (f : option fn) (arg : Z) : M unit :=
  match f with
  | Some g => emit (EvCall g arg) ;;; call g arg
  | None => fault
  end.

(** The [list] member stays unwritten until the task is enqueued; it is
    modelled as linked to itself. *)
Definition create_task (action : option fn) (arg : Z) (destroy_arg : option fn) : M Z :=
  let* t := malloc in
  DIE (bool_decide (t = NULL)) "malloc" ;;;
  store t (OTask (Task arg action destroy_arg (ListNode (LTask t) (LTask t)))) ;;;
  ret t.

Definition destroy_task (t : Z) : M unit :=
  let* tk := load_task t in
  (if bool_decide (destroy_arg tk ≠ None)
   then call_ptr (destroy_arg tk) (argument tk)
   else ret tt) ;;;
  free t.

(** The pool [tp] points to is the pool of the world, so [assert(tp != NULL)]
    has nothing to test. *)
Definition enqueue_task (t : Z) : M unit :=
  assert_ (bool_decide (t ≠ NULL)) ;;;
  let* rc := pthread_mutex_lock MutexQueue in
  DIE (bool_decide (rc ≠ 0)) "pthread_mutex_lock" ;;;
  modify (set_tp (fun p => set_num_tasks (wrap_uint (num_tasks p + 1)) p)) ;;;
  let* h := load_node LHead in
  store_next (prev h) (LTask t) ;;;
  let* h := load_node LHead in
  store_prev (LTask t) (prev h) ;;;
  store_next (LTask t) LHead ;;;
  store_prev LHead (LTask t) ;;;
  let* rc := pthread_cond_broadcast in
  DIE (bool_decide (rc ≠ 0)) "pthread_cond_broad" ;;;
  let* rc := pthread_mutex_unlock MutexQueue in
  DIE (bool_decide (rc ≠ 0)) "pthread_mutex_unlock".

Definition queue_is_empty : M bool := list_empty LHead.

(** The waiting loop: a wait that reports an error ends the process, one that
    succeeds suspends the thread ([pthread_cond_wait]), so the loop is over
    after one test. *)
Definition dequeue_task : M Z :=
  let* rc := pthread_mutex_lock MutexQueue in
  DIE (bool_decide (rc ≠ 0)) "pthread_mutex_lock" ;;;
  let* e := queue_is_empty in
  let* f := get (fun w => finished (tp w)) in
  (if e && negb f then
     let* rc := pthread_cond_wait in
     DIE (bool_decide (rc ≠ 0)) "pthread_cond_wait" ;;;
     block
   else ret tt) ;;;
  let* n := get (fun w => num_tasks (tp w)) in
  if n <=? 0 then
    let* rc := pthread_mutex_unlock MutexQueue in
    DIE (bool_decide (rc ≠ 0)) "pthread_mutex_unlock" ;;;
    ret NULL
  else
    modify (set_tp (fun p => set_num_tasks (wrap_uint (num_tasks p - 1)) p)) ;;;
    let* h := load_node LHead in
    let* t := list_entry (prev h) in
    let* h := load_node LHead in
    list_del (prev h) ;;;
    let* rc := pthread_mutex_unlock MutexQueue in
    DIE (bool_decide (rc ≠ 0)) "pthread_mutex_unlock" ;;;
    ret t.

(** One round of the loop of [thread_loop_function]. *)
Definition thread_loop_body : M loop_ctl :=
  let* t := dequeue_task in
  if bool_decide (t = NULL) then ret Break
  else
    let* tk := load_task t in
    call_ptr (action tk) (argument tk) ;;;
    destroy_task t ;;;
    ret Continue.

Definition thread_loop_function (fuel : nat) : M bool :=
  forever fuel thread_loop_body.

(** [wait_for_completion] up to the joins: the flag is raised and the
    waiters are woken. *)
Definition wait_for_completion_signal : M unit :=
  let* rc := pthread_mutex_lock MutexQueue in
  DIE (bool_decide (rc ≠ 0)) "pthread_mutex_lock" ;;;
  modify (set_tp (set_finished true)) ;;;
  let* rc := pthread_cond_broadcast in
  DIE (bool_decide (rc ≠ 0)) "pthread_cond_broadcast" ;;;
  let* _ := pthread_mutex_unlock MutexQueue in
  ret tt.

Definition wait_for_completion_join : M unit :=
  let* n := get (fun w => num_threads (tp w)) in
  for_from n 0 (fun i =>
    let* h := get (fun w => threads (tp w) !! i) in
    match h with
    | Some h =>
        let* rc := pthread_join h in
        DIE (bool_decide (rc ≠ 0)) "pthread_join"
    | None => fault
    end).

Definition wait_for_completion : M unit :=
  wait_for_completion_signal ;;;
  wait_for_completion_join.

(** The pool object and its array of handles are not objects of the modelled
    heap; their [malloc] is called, and can fail, all the same. *)
Definition create_threadpool (num_threads : nat) : M unit :=
  let* p := malloc in
  DIE (bool_decide (p = NULL)) "malloc" ;;;
  list_init LHead ;;;
  let* _ := pthread_mutex_init MutexQueue in
  let* _ := pthread_cond_init in
  modify (set_tp (set_num_tasks 0)) ;;;
  modify (set_tp (set_finished false)) ;;;
  modify (set_tp (fun p => Pool num_threads (threads p) (num_tasks p)
                                (finished p) (head p) (mutex_queue p))) ;;;
  let* a := malloc in
  DIE (bool_decide (a = NULL)) "malloc" ;;;
  modify (set_tp (set_threads (replicate num_threads None))) ;;;
  for_from num_threads 0 (fun i =>
    let* r := pthread_create in
    (match r.2 with
     | Some h => modify (set_tp (fun p => set_threads (<[i := Some h]> (threads p)) p))
     | None => ret tt
     end) ;;;
    DIE (r.1 <? 0) "pthread_create").

(** [list_for_each_safe (n, p, &tp->head)] with the body of
    [destroy_threadpool], cut after [fuel] nodes. *)
Fixpoint destroy_tasks (fuel : nat) (n p : lptr) : M unit :=
  if bool_decide (n ≠ LHead) then
    match fuel with
    | O => fault
    | S f =>
        list_del n ;;;
        let* t := list_entry n in
        destroy_task t ;;;
        let* q := load_node p in
        destroy_tasks f p (next q)
    end
  else ret tt.

Definition destroy_threadpool : M unit :=
  let* _ := pthread_mutex_destroy MutexQueue in
  let* _ := pthread_cond_destroy in
  let* h := load_node LHead in
  let* q := load_node (next h) in
  let* fuel := get (fun w => size (heap w)) in
  destroy_tasks fuel (next h) (next q).

End os_threadpool.

(** ** parallel.c *)

Definition NUM_THREADS : nat := 4.

Definition free_function (arg : Z) : M unit := free arg.

(** [graph->visited[idx]], [graph->nodes[idx]] and [node->neighbours[i]];
    an index past the end of the array has no defined behaviour. *)
Definition load_visited (idx : nat) : M visit_state :=
  fun w => match visited (graph w) !! idx with
           | Some v => Ret v w
           | None => Fault
           end.

Definition store_visited (idx : nat) (v : visit_state) : M unit :=
  fun w => if bool_decide (idx < length (visited (graph w)))%nat
           then Ret tt (log (EvStoreVisited idx v)
                          (set_graph (fun g => set_visited (<[idx := v]> (visited g)) g) w))
           else Fault.

Definition load_graph_node (idx : nat) : M os_node_t :=
  fun w => match nodes (graph w) !! idx with
           | Some n => Ret n w
           | None => Fault
           end.

Definition load_neighbour (node : os_node_t) (i : nat) : M nat :=
  match neighbours node !! i with
  | Some v => ret v
  | None => fault
  end.

(** [process_node] is cut where another thread can run while this one holds
    the graph mutex.  First piece: from the entry to the [for] loop.  The
    result is the node whose neighbours are to be walked, if any. *)
Definition process_node_enter (arg : Z) : M (option nat) :=
  let* idx := load_uint arg in
  let* rc := pthread_mutex_lock MutexGraph in
  DIE (bool_decide (rc ≠ 0)) "pthread_mutex_lock" ;;;
  let* v := load_visited idx in
  if bool_decide (v = NOT_VISITED) then
    let* node := load_graph_node idx in
    modify (fun w => set_sum (wrap_int (sum w + info node)) w) ;;;
    store_visited idx DONE ;;;
    ret (Some idx)
  else ret None.

(** Second piece: the body of the [for] loop at index [i]. *)
Definition process_node_neighbour (node : os_node_t) (i : nat) : M unit :=
  let* nb := load_neighbour node i in
  let* v := load_visited nb in
  if bool_decide (v = NOT_VISITED) then
    let* new_arg := malloc in
    DIE (bool_decide (new_arg = NULL)) "malloc" ;;;
    store new_arg (OUint nb) ;;;
    let* new_task := create_task (Some process_node_fn) new_arg (Some free_function_fn) in
    enqueue_task new_task
  else ret tt.

(** Last piece: the unlock at the end. *)
Definition process_node_leave : M unit :=
  let* rc := pthread_mutex_unlock MutexGraph in
  DIE (bool_decide (rc ≠ 0)) "pthread_mutex_unlock".

Definition process_node (arg : Z) : M unit :=
  let* o := process_node_enter arg in
  (match o with
   | Some idx =>
       let* node := load_graph_node idx in
       for_from (num_neighbours node) 0 (process_node_neighbour node)
   | None => ret tt
   end) ;;;
  process_node_leave.

(** The functions behind the function pointers of the program. *)
Definition call_fn (f : fn) (arg : Z) : M unit :=
  match f with
  | process_node_fn => process_node arg
  | free_function_fn => free_function arg
  end.

(** [main] from the graph on, in the pieces between which the workers run.
    [main_init]: up to and including [create_threadpool]. *)
Definition main_init (nthreads : nat) : M unit :=
  let* _ := pthread_mutex_init MutexGraph in
  modify (set_sum 0) ;;;
  let* n := get (fun w => num_nodes (graph w)) in
  for_from n 0 (fun i =>
    fun w => if bool_decide (i < length (visited (graph w)))%nat
             then Ret tt (set_graph (fun g => set_visited (<[i := NOT_VISITED]> (visited g)) g) w)
             else Fault) ;;;
  create_threadpool nthreads.

(** The initial task, for node 0. *)
Definition main_seed : M unit :=
  let* initial_arg := malloc in
  DIE (bool_decide (initial_arg = NULL)) "malloc" ;;;
  store initial_arg (OUint 0) ;;;
  let* initial_task := create_task (Some process_node_fn) initial_arg (Some free_function_fn) in
  enqueue_task initial_task.

(** After the joins. *)
Definition main_finish : M unit :=
  destroy_threadpool call_fn ;;;
  let* _ := pthread_mutex_destroy MutexGraph in
  let* s := get sum in
  modify (fun w => set_out (out w ++ [s]) w) ;;;
  emit (EvPrint s).

Definition main_with (nthreads : nat) : M unit :=
  main_init nthreads ;;;
  main_seed ;;;
  wait_for_completion ;;;
  main_finish.

Definition main : M unit := main_with NUM_THREADS.

(** ** Threads

    The threads are interleaved block by block.  [block_of] is the block of
    the thread at program point [p]; the result is the program point it
    stops at.  The cuts are the places where the thread has let go of the
    queue mutex: a block is a critical section of the queue mutex together
    with the code around it that reads and writes only what the thread
    alone can reach (its own task, or the graph and [sum] while it holds
    the graph mutex), so that running the block in one piece loses no
    behaviour of the queue, the flags, the sum or the trace.  A block that
    meets a mutex that is taken, or [pthread_cond_wait], does not run: the
    thread is suspended in front of it. *)
Definition block_of (nthreads : nat) (p : pc) : M pc :=
  match p with
  | PcMain 0 => main_init nthreads ;;; ret (PcMain 1)
  | PcMain 1 => main_seed ;;; ret (PcMain 2)
  | PcMain 2 => wait_for_completion_signal ;;; ret (PcMain 3)
  | PcMain 3 => wait_for_completion_join ;;; main_finish ;;; ret PcExited
  | PcMain _ => fault
  | PcDequeue =>
      let* t := dequeue_task in
      if bool_decide (t = NULL) then ret PcExited else ret (PcAction t)
  | PcAction t =>
      let* tk := load_task t in
      match action tk with
      | Some process_node_fn =>
          emit (EvCall process_node_fn (argument tk)) ;;;
          let* o := process_node_enter (argument tk) in
          match o with
          | Some idx => ret (PcNbr t idx 0)
          | None => process_node_leave ;;; destroy_task call_fn t ;;; ret PcDequeue
          end
      | f =>
          call_ptr call_fn f (argument tk) ;;;
          destroy_task call_fn t ;;;
          ret PcDequeue
      end
  | PcNbr t idx i =>
      let* node := load_graph_node idx in
      if bool_decide (i < num_neighbours node)%nat then
        process_node_neighbour node i ;;;
        ret (PcNbr t idx (S i))
      else
        process_node_leave ;;;
        destroy_task call_fn t ;;;
        ret PcDequeue
  | PcExited => block
  end.

(** Thread [i] runs its next block. *)
Definition step (nthreads : nat) (i : tid) : M unit :=
  let* p := get (fun w => thr w !! i) in
  match p with
  | Some p =>
      modify (set_self i) ;;;
      let* p' := block_of nthreads p in
      modify (set_thr (fun l => <[i := p']> l))
  | None => fault
  end.

(** A schedule is the list of the threads that run, in order; it is run as
    long as the chosen thread can run. *)
Fixpoint exec (nthreads : nat) (sched : list tid) (w : world) : option world :=
  match sched with
  | [] => Some w
  | i :: sched' =>
      match step nthreads i w with
      | Ret _ w' => exec nthreads sched' w'
      | _ => None
      end
  end.

(** The machine when [main] has loaded graph [g]: an empty heap, the main
    thread alone, a library that never fails. *)
Definition boot (g : os_graph_t) : world :=
  World ∅ 1 (Pool 0 [] 0 false (ListNode LHead LHead) None) g 0 None
        [PcMain 0] 0%nat [] [] [].

(** * Definitions for the properties *)

(** ** The queue as a list *)

Abbreviation links := (lptr → option os_list_node_t).

(** [chain nd p l]: following [next] from [p] one meets the tasks [l], in
    this order, and then the head; [prev] leads back the same way. *)
Fixpoint chain (nd : links) (p : lptr) (l : list Z) : Prop :=
  match l with
  | [] => ∃ n h, nd p = Some n ∧ next n = LHead ∧ nd LHead = Some h ∧ prev h = p
  | t :: l' =>
      ∃ n n', nd p = Some n ∧ next n = LTask t ∧
              nd (LTask t) = Some n' ∧ prev n' = p ∧ chain nd (LTask t) l'
  end.

(** The tasks linked in the queue of [w], first ([head.next]) to last
    ([head.prev]). *)
Definition queue_is (w : world) (l : list Z) : Prop :=
  chain (node_at w) LHead l ∧ NoDup l.

(** The last node of the chain that starts at [p]. *)
Definition last_ptr (p : lptr) (l : list Z) : lptr :=
  match last l with
  | Some t => LTask t
  | None => p
  end.

Definition off_chain (p : lptr) (l : list Z) : Prop :=
  match p with
  | LHead => True
  | LTask t => t ∉ l
  end.

(** The links after [enqueue_task] has linked [t] behind [lst]. *)
Record linked_after (nd nd' : links) (lst : lptr) (t : Z) : Prop := {
  la_frame : ∀ q, q ≠ LHead → q ≠ LTask t → q ≠ lst → nd' q = nd q;
  la_new : nd' (LTask t) = Some (ListNode lst LHead);
  la_last : lst ≠ LHead →
            ∃ n, nd lst = Some n ∧ nd' lst = Some (ListNode (prev n) (LTask t));
  la_head : ∃ h, nd LHead = Some h ∧
                 nd' LHead = Some (ListNode (LTask t)
                                     (if decide (lst = LHead) then LTask t else next h))
}.

(** The links after [list_del] has taken the last node [LTask t], whose
    predecessor is [pl], out of the queue. *)
Record unlinked_after (nd nd' : links) (pl : lptr) (t : Z) : Prop := {
  ua_frame : ∀ q, q ≠ LHead → q ≠ LTask t → q ≠ pl → nd' q = nd q;
  ua_pred : pl ≠ LHead →
            ∃ n, nd pl = Some n ∧ nd' pl = Some (ListNode (prev n) LHead);
  ua_head : ∃ h, nd LHead = Some h ∧
                 nd' LHead = Some (ListNode pl
                                     (if decide (pl = LHead) then LHead else next h))
}.

(** ** Running the primitives *)

Definition rc0 (w : world) : Z := hd 0 (rcs w).

Definition used (w : world) : world := set_rcs (tl (rcs w)) w.

(** The state after a mutex call that succeeded. *)
Definition locked (m : mutex) (w : world) : world :=
  log (EvLib (self w) (c_mutex_lock m) 0) (set_owner m (Some (self w)) (used w)).

Definition unlocked (m : mutex) (w : world) : world :=
  log (EvLib (self w) (c_mutex_unlock m) 0) (set_owner m None (used w)).

(** The state after a call that only reports a result. *)
Definition called (c : libcall) (w : world) : world :=
  log (EvLib (self w) c (rc0 w)) (used w).

Definition malloced (w : world) : world :=
  set_brk (brk w + 1) (called c_malloc w).

(** ** What relinking leaves alone *)

(** The queue operations write the list nodes only: the head of the pool and
    the [list] member of tasks.  [payload] forgets that member, and
    [relink hd hp w] is [w] with another head and another heap. *)
Definition payload (o : obj) : obj := put_list (ListNode LHead LHead) o.

Definition relink (hd : os_list_node_t) (hp : gmap Z obj) (w : world) : world :=
  set_tp (set_head hd) (set_heap (fun _ => hp) w).

Definition relinked (w w' : world) : Prop :=
  ∃ hd hp, w' = relink hd hp w ∧ payload <$> hp = payload <$> heap w.

(** ** The stores of [enqueue_task] and of [list_del] on the queue *)

(** Lines 47 to 50 of os_threadpool.c. *)
Definition link_tail (t : Z) : M unit :=
  let* h := load_node LHead in
  store_next (prev h) (LTask t) ;;;
  let* h := load_node LHead in
  store_prev (LTask t) (prev h) ;;;
  store_next (LTask t) LHead ;;;
  store_prev LHead (LTask t).

(** ** A library call followed by [DIE] *)

(** The library calls that come next succeed: the first [n] results still
    to be handed out are all 0. *)
Definition quiet (n : nat) (w : world) : Prop :=
  Forall (fun r => r = 0) (take n (rcs w)).

(** ** [enqueue_task] *)

(** The state [enqueue_task] returns in: [hd] and [hp] are the head and the
    heap after the four stores. *)
Definition counted_up (w : world) : world :=
  set_tp (fun p => set_num_tasks (wrap_uint (num_tasks p + 1)) p) (locked MutexQueue w).

Definition enqueued (hd : os_list_node_t) (hp : gmap Z obj) (w : world) : world :=
  unlocked MutexQueue (called c_cond_broadcast (relink hd hp (counted_up w))).

(** ** [dequeue_task] *)

Definition counted_down (w : world) : world :=
  set_tp (fun p => set_num_tasks (wrap_uint (num_tasks p - 1)) p) (locked MutexQueue w).

(** The state [dequeue_task] returns a task in. *)
Definition dequeued (hd : os_list_node_t) (hp : gmap Z obj) (w : world) : world :=
  unlocked MutexQueue (relink hd hp (counted_down w)).

(** ** The queue invariant *)

(** [queue_inv w l]: the tasks [l] are linked in the queue of [w], none of
    them at NULL, and [num_tasks], an [unsigned int], is their number. *)
Definition queue_inv (w : world) (l : list Z) : Prop :=
  queue_is w l ∧ (NULL ∉ l) ∧
  num_tasks (tp w) = Z.of_nat (length l) ∧ num_tasks (tp w) ≤ UINT_MAX.

(** ** Checking the queue of a given state *)

Fixpoint chainb (nd : links) (p : lptr) (l : list Z) : bool :=
  match l with
  | [] =>
      match nd p, nd LHead with
      | Some n, Some h => bool_decide (next n = LHead) && bool_decide (prev h = p)
      | _, _ => false
      end
  | t :: l' =>
      match nd p, nd (LTask t) with
      | Some n, Some n' =>
          bool_decide (next n = LTask t) && bool_decide (prev n' = p) &&
          chainb nd (LTask t) l'
      | _, _ => false
      end
  end.

Definition queue_invb (w : world) (l : list Z) : bool :=
  chainb (node_at w) LHead l && bool_decide (NoDup l) && bool_decide (NULL ∉ l) &&
  bool_decide (num_tasks (tp w) = Z.of_nat (length l)) &&
  bool_decide (num_tasks (tp w) ≤ UINT_MAX).

(** ** Example states *)

Definition example_graph : os_graph_t :=
  Graph 6 [Node 10 2 [1; 2]; Node 20 1 [2]; Node 30 0 []; Node 1 0 [];
           Node 2 1 [3]; Node 99 1 [0]]%nat
        [DONE; NOT_VISITED; PROCESSING; NOT_VISITED; DONE; DONE].

Definition world_of {A} (r : result A) (d : world) : world :=
  match r with
  | Ret _ w => w
  | _ => d
  end.

(** [main] has created a pool of two threads and enqueued the initial task. *)
Definition started : world :=
  world_of ((main_init 2 ;;; main_seed) (boot example_graph)) (boot example_graph).

(** Three more tasks exist, at the addresses 5, 6 and 7. *)
Definition three_more : world :=
  world_of ((create_task (Some process_node_fn) 1 None ;;;
             create_task None 2 None ;;;
             create_task None 3 None) started) started.

Definition value_of (r : result Z) : option Z :=
  match r with
  | Ret a _ => Some a
  | _ => None
  end.

(** The example of the spec: [T1], [T2], [T3] are the tasks at 5, 6 and 7. *)
Definition lifo_w1 : world := world_of (enqueue_task 5 three_more) three_more.

Definition lifo_w2 : world := world_of (enqueue_task 6 lifo_w1) three_more.

Definition lifo_w3 : world := world_of (enqueue_task 7 lifo_w2) three_more.

Definition lifo_w4 : world := world_of (dequeue_task lifo_w3) three_more.

Definition lifo_w5 : world := world_of (dequeue_task lifo_w4) three_more.

Definition lifo_w6 : world := world_of (dequeue_task lifo_w5) three_more.

(** The flag is up and the task at 4 is still in the queue. *)
Definition shut_down : world :=
  world_of (wait_for_completion_signal three_more) three_more.

(** ** [destroy_task] *)

(** The state after [free (a)]. *)
Definition freed (a : Z) (w : world) : world := log (EvFree a) (set_heap (delete a) w).

(** ** [process_node] *)

(** The state after the node [idx] was added to the sum and marked. *)
Definition visit (idx : nat) (node : os_node_t) (w : world) : world :=
  log (EvStoreVisited idx DONE)
    (set_graph (fun g => set_visited (<[idx := DONE]> (visited g)) g)
       (set_sum (wrap_int (sum w + info node)) w)).

(** The node 0 of the example is done; the task at 4 is for node 0. *)
Definition node0_done : world :=
  set_graph (fun g => set_visited (<[0%nat := DONE]> (visited g)) g) three_more.

(** ** Which thread holds which mutex *)

Definition other (m : mutex) : mutex :=
  match m with
  | MutexQueue => MutexGraph
  | MutexGraph => MutexQueue
  end.

(** Thread [i] holds [m] after the events [tr] (newest first). *)
Fixpoint holds (i : tid) (m : mutex) (tr : list event) : bool :=
  match tr with
  | [] => false
  | EvLib j (c_mutex_lock m') 0 :: tr' =>
      if bool_decide (j = i ∧ m' = m) then true else holds i m tr'
  | EvLib j (c_mutex_unlock m') 0 :: tr' =>
      if bool_decide (j = i ∧ m' = m) then false else holds i m tr'
  | _ :: tr' => holds i m tr'
  end.

(** Some thread took a mutex while it held the other one. *)
Fixpoint held_both (tr : list event) : bool :=
  match tr with
  | [] => false
  | e :: tr' =>
      held_both tr' ||
      match e with
      | EvLib i (c_mutex_lock m) 0 => holds i (other m) tr'
      | _ => false
      end
  end.

(** Some thread took the graph mutex while it held the queue mutex. *)
Fixpoint graph_inside_queue (tr : list event) : bool :=
  match tr with
  | [] => false
  | e :: tr' =>
      graph_inside_queue tr' ||
      match e with
      | EvLib i (c_mutex_lock MutexGraph) 0 => holds i MutexQueue tr'
      | _ => false
      end
  end.

Definition died (tr : list event) : bool :=
  existsb (fun e => match e with EvDie _ => true | _ => false end) tr.

(** How a run of a piece of C ended. *)
Inductive ending := Returned | Exited | Blocked | Faulted.

Definition ending_of {A} (r : result A) : ending :=
  match r with
  | Ret _ _ => Returned
  | Exit _ => Exited
  | Block => Blocked
  | Fault => Faulted
  end.

Definition last_world {A} (r : result A) : option world :=
  match r with
  | Ret _ w | Exit w => Some w
  | _ => None
  end.

(** The pool of the example when the third library call from now reports
    error 1, and when the next one does. *)
Definition third_call_fails : world := set_rcs [0; 0; 1] three_more.

Definition next_call_fails : world := set_rcs [1] three_more.

(** The machine at the start when the fifth library call, the first
    [pthread_create], reports EAGAIN. *)
Definition create_fails : world := set_rcs [0; 0; 0; 0; 11] (boot example_graph).

(** ** The graph *)

(** What the loader hands over: the arrays are as long as the counts say,
    node 0 exists and every neighbour is a node. *)
Record wf_graph (g : os_graph_t) : Prop := {
  wf_nodes : length (nodes g) = num_nodes g;
  wf_visited : length (visited g) = num_nodes g;
  wf_node0 : (0 < num_nodes g)%nat;
  wf_neighbours : ∀ u node, nodes g !! u = Some node →
      length (neighbours node) = num_neighbours node ∧
      Forall (fun v => v < num_nodes g)%nat (neighbours node)
}.

Definition edge (g : os_graph_t) (u v : nat) : Prop :=
  ∃ node j, nodes g !! u = Some node ∧ neighbours node !! j = Some v.

(** The nodes a path of edges leads to from [u]. *)
Inductive reach (g : os_graph_t) (u : nat) : nat → Prop :=
| reach_here : reach g u u
| reach_edge v x : reach g u v → edge g v x → reach g u x.

Definition info_of (g : os_graph_t) (u : nat) : Z :=
  match nodes g !! u with
  | Some node => info node
  | None => 0
  end.

Definition degree (g : os_graph_t) (u : nat) : nat :=
  match nodes g !! u with
  | Some node => num_neighbours node
  | None => 0
  end.

Definition sum_info (g : os_graph_t) (l : list nat) : Z :=
  foldr (fun u s => info_of g u + s) 0 l.

(** All the entries of the neighbour arrays. *)
Definition num_edges (g : os_graph_t) : nat :=
  sum_list (num_neighbours <$> nodes g).

(** The nodes whose flag was set to [DONE], newest first. *)
Definition stores (tr : list event) : list nat :=
  omap (fun e => match e with EvStoreVisited u DONE => Some u | _ => None end) tr.

(** ** The threads, without the heap *)

(** The state of the traversal as the blocks of the threads see it: the node
    of each queued task, the program point of [main] (1: before the
    initial task, 2: before the flag is raised, 3: before the joins, 4:
    after them), a program point per worker with the node in place of the
    task, the flags, the sum and the worker that owns the graph mutex. *)
Inductive wpc :=
| WDeq
| WAct (u : nat)
| WNbr (u j : nat)
| WExit.

Global Instance wpc_eq_dec : EqDecision wpc.
Proof. solve_decision. Defined.

Record astate := AState {
  aq : list nat;
  amain : nat;
  awk : list wpc;
  avis : list visit_state;
  asum : Z;
  alock : option nat;
  alog : list nat;
  aout : list Z
}.

Definition a_wk (j : nat) (p : wpc) (a : astate) : astate :=
  AState (aq a) (amain a) (<[j := p]> (awk a)) (avis a) (asum a) (alock a) (alog a) (aout a).

Definition a_main (k : nat) (a : astate) : astate :=
  AState (aq a) k (awk a) (avis a) (asum a) (alock a) (alog a) (aout a).

Definition a_q (q : list nat) (a : astate) : astate :=
  AState q (amain a) (awk a) (avis a) (asum a) (alock a) (alog a) (aout a).

Definition a_lock (o : option nat) (a : astate) : astate :=
  AState (aq a) (amain a) (awk a) (avis a) (asum a) o (alog a) (aout a).

Definition a_visit (g : os_graph_t) (u : nat) (a : astate) : astate :=
  AState (aq a) (amain a) (awk a) (<[u := DONE]> (avis a))
         (wrap_int (asum a + info_of g u)) (alock a) (u :: alog a) (aout a).

Definition a_print (a : astate) : astate :=
  AState (aq a) (amain a) (awk a) (avis a) (asum a) (alock a) (alog a)
         (aout a ++ [asum a]).

Definition is_exit (p : wpc) : bool :=
  match p with
  | WExit => true
  | _ => false
  end.

Definition workers_done (a : astate) : bool := forallb is_exit (awk a).

Definition main_step (a : astate) : option astate :=
  match amain a with
  | 1%nat => Some (a_main 2 (a_q (aq a ++ [0%nat]) a))
  | 2%nat => Some (a_main 3 a)
  | 3%nat => if workers_done a then Some (a_main 4 (a_print a)) else None
  | _ => None
  end.

Definition worker_step (g : os_graph_t) (j : nat) (a : astate) : option astate :=
  match awk a !! j with
  | Some WDeq =>
      match last (aq a) with
      | Some x => Some (a_wk j (WAct x) (a_q (removelast (aq a)) a))
      | None => if bool_decide (3 ≤ amain a)%nat then Some (a_wk j WExit a) else None
      end
  | Some (WAct u) =>
      match alock a, avis a !! u with
      | None, Some NOT_VISITED =>
          Some (a_wk j (WNbr u 0) (a_lock (Some j) (a_visit g u a)))
      | None, Some _ => Some (a_wk j WDeq a)
      | _, _ => None
      end
  | Some (WNbr u i) =>
      match nodes g !! u with
      | Some node =>
          if bool_decide (i < num_neighbours node)%nat then
            match neighbours node !! i with
            | Some v =>
                match avis a !! v with
                | Some NOT_VISITED => Some (a_wk j (WNbr u (S i)) (a_q (aq a ++ [v]) a))
                | Some _ => Some (a_wk j (WNbr u (S i)) a)
                | None => None
                end
            | None => None
            end
          else Some (a_wk j WDeq (a_lock None a))
      | None => None
      end
  | _ => None
  end.

(** Thread 0 is [main], thread [S j] is worker [j]. *)
Definition astep (g : os_graph_t) (i : tid) (a : astate) : option astate :=
  match i with
  | O => main_step a
  | S j => worker_step g j a
  end.

(** The state [main_init] leaves. *)
Definition astart (g : os_graph_t) (n : nat) : astate :=
  AState [] 1 (replicate n WDeq) (replicate (num_nodes g) NOT_VISITED) 0 None [] [].

(** The steps, one by one. *)
Inductive akind (g : os_graph_t) (a : astate) : tid → astate → Prop :=
| k_seed :
    amain a = 1%nat → akind g a 0 (a_main 2 (a_q (aq a ++ [0%nat]) a))
| k_fin :
    amain a = 2%nat → akind g a 0 (a_main 3 a)
| k_join :
    amain a = 3%nat → workers_done a = true → akind g a 0 (a_main 4 (a_print a))
| k_pop j q x :
    awk a !! j = Some WDeq → aq a = q ++ [x] →
    akind g a (S j) (a_wk j (WAct x) (a_q q a))
| k_exit j :
    awk a !! j = Some WDeq → aq a = [] → (3 ≤ amain a)%nat →
    akind g a (S j) (a_wk j WExit a)
| k_visit j u :
    awk a !! j = Some (WAct u) → alock a = None → avis a !! u = Some NOT_VISITED →
    akind g a (S j) (a_wk j (WNbr u 0) (a_lock (Some j) (a_visit g u a)))
| k_skip j u s :
    awk a !! j = Some (WAct u) → alock a = None → avis a !! u = Some s →
    s ≠ NOT_VISITED → akind g a (S j) (a_wk j WDeq a)
| k_push j u i node v :
    awk a !! j = Some (WNbr u i) → nodes g !! u = Some node →
    (i < num_neighbours node)%nat → neighbours node !! i = Some v →
    avis a !! v = Some NOT_VISITED →
    akind g a (S j) (a_wk j (WNbr u (S i)) (a_q (aq a ++ [v]) a))
| k_pass j u i node v s :
    awk a !! j = Some (WNbr u i) → nodes g !! u = Some node →
    (i < num_neighbours node)%nat → neighbours node !! i = Some v →
    avis a !! v = Some s → s ≠ NOT_VISITED →
    akind g a (S j) (a_wk j (WNbr u (S i)) a)
| k_leave j u i node :
    awk a !! j = Some (WNbr u i) → nodes g !! u = Some node →
    ¬ (i < num_neighbours node)%nat →
    akind g a (S j) (a_wk j WDeq (a_lock None a)).

(** ** Tasks of the traversal in the heap *)

(** The task at [t] is a [process_node] task for node [u]: its argument is
    the cell just below it (the two are allocated one after the other),
    and the cell holds [u]. *)
Definition task_for (w : world) (t : Z) (u : nat) : Prop :=
  1 < t ∧ heap w !! (t - 1) = Some (OUint u) ∧
  ∃ nd, heap w !! t =
        Some (OTask (Task (t - 1) (Some process_node_fn) (Some free_function_fn) nd)).

(** The tasks the threads hold. *)
Definition held_of (p : pc) : option Z :=
  match p with
  | PcAction t | PcNbr t _ _ => Some t
  | _ => None
  end.

Definition held (l : list pc) : list Z := omap held_of l.

(** [hp'] has every object of [hp], up to the list nodes. *)
Definition heap_ext (hp hp' : gmap Z obj) : Prop :=
  ∀ x o, hp !! x = Some o → payload <$> (hp' !! x) = Some (payload o).

(** ** A new task for a node *)

(** What [main] does for node 0 and [process_node] for a neighbour: a cell
    for the index, a task for [process_node], and the task into the
    queue. *)
Definition spawn (u : nat) : M unit :=
  let* new_arg := malloc in
  DIE (bool_decide (new_arg = NULL)) "malloc" ;;;
  store new_arg (OUint u) ;;;
  let* new_task := create_task (Some process_node_fn) new_arg (Some free_function_fn) in
  enqueue_task new_task.

Definition new_task (w : world) : obj :=
  OTask (Task (brk w) (Some process_node_fn) (Some free_function_fn)
           (ListNode (LTask (brk w + 1)) (LTask (brk w + 1)))).

Definition allocated (u : nat) (w : world) : world :=
  set_heap (insert (brk w + 1) (new_task w))
    (malloced (set_heap (insert (brk w) (OUint u)) (malloced w))).

Definition spawned (u : nat) (hd : os_list_node_t) (hp : gmap Z obj) (w : world) : world :=
  enqueued hd hp (allocated u w).

(** ** Counting what is left to do *)

(** The sum of [f] over the nodes not visited; [off] is the index of the
    first flag of [vis]. *)
Fixpoint unvisited_sum (f : nat → nat) (off : nat) (vis : list visit_state) : nat :=
  match vis with
  | [] => 0
  | s :: vis' =>
      (if bool_decide (s = NOT_VISITED) then f off else 0) + unvisited_sum f (S off) vis'
  end.

(** A weighted count of the state: [cq] per queued task, [cm] for [main],
    [cw] per worker and [cv] per node not visited. *)
Definition energy (cq : nat) (cm : nat → nat) (cw : wpc → nat) (cv : nat → nat)
    (a : astate) : nat :=
  (cq * length (aq a) + cm (amain a) + sum_list_with cw (awk a) +
   unvisited_sum cv 0 (avis a))%nat.

(** The states of the traversal are those of a graph [g] and of [n]
    workers. *)
Section traversal_model.

Variable g : os_graph_t.
Variable n : nat.

Definition wpc_ok (p : wpc) : Prop :=
  match p with
  | WAct u => (u < num_nodes g)%nat
  | WNbr u i => (u < num_nodes g)%nat ∧ (i ≤ degree g u)%nat
  | _ => True
  end.

(** The shape of the states that are reached. *)
Record shape (a : astate) : Prop := {
  sh_len : length (awk a) = n;
  sh_main : (1 ≤ amain a ≤ 4)%nat;
  sh_vis : length (avis a) = num_nodes g;
  sh_q : Forall (fun x => x < num_nodes g)%nat (aq a);
  sh_pcs : Forall wpc_ok (awk a);
  sh_lock : ∀ j, alock a = Some j ↔ ∃ u i, awk a !! j = Some (WNbr u i);
  sh_exit : WExit ∈ awk a → (3 ≤ amain a)%nat;
  sh_joined : amain a = 4%nat → workers_done a = true;
  sh_drained : workers_done a = true → aq a = []
}.

Definition is_nbr (p : wpc) : bool :=
  match p with
  | WNbr _ _ => true
  | _ => false
  end.

(** The flags, the log of the stores and the sum agree. *)
Record logged (a : astate) : Prop := {
  lg_flags : Forall (fun s => s = NOT_VISITED ∨ s = DONE) (avis a);
  lg_nodup : NoDup (alog a);
  lg_log : ∀ u, u ∈ alog a ↔ avis a !! u = Some DONE;
  lg_sum : asum a = wrap_int (sum_info g (alog a));
  lg_out : aout a = if decide (amain a = 4%nat) then [asum a] else []
}.

(** Every node in the log, in the queue or in the hands of a worker can be
    reached from node 0. *)
Definition wpc_reach (p : wpc) : Prop :=
  match p with
  | WAct u | WNbr u _ => reach g 0 u
  | _ => True
  end.

Record reached (a : astate) : Prop := {
  re_log : ∀ u, u ∈ alog a → reach g 0 u;
  re_q : ∀ u, u ∈ aq a → reach g 0 u;
  re_pcs : Forall wpc_reach (awk a)
}.

(** A node is pending when it is done, queued, or dequeued and about to be
    looked at. *)
Definition pending (a : astate) (v : nat) : Prop :=
  avis a !! v = Some DONE ∨ v ∈ aq a ∨ WAct v ∈ awk a.

(** Every neighbour of a done node is pending, or still to come in the loop
    of the worker that walks the neighbours; node 0 is pending once the
    initial task is in. *)
Record closed (a : astate) : Prop := {
  cl_edges : ∀ u node i v,
      avis a !! u = Some DONE → nodes g !! u = Some node →
      neighbours node !! i = Some v →
      pending a v ∨ ∃ i', WNbr u i' ∈ awk a ∧ (i' ≤ i)%nat;
  cl_seed : (2 ≤ amain a)%nat → pending a 0
}.

(** *** The tasks still to be enqueued *)

(** [owed a] bounds the number of tasks the queue can still receive: the
    initial one, one per neighbour of a node not visited, and one per
    neighbour the loop of a worker has not reached. *)
Definition owed_main (k : nat) : nat :=
  match k with
  | 1 => 1
  | _ => 0
  end%nat.

Definition owed_worker (p : wpc) : nat :=
  match p with
  | WNbr u i => degree g u - i
  | _ => 0
  end%nat.

Definition owed (a : astate) : nat := energy 1 owed_main owed_worker (degree g) a.

(** *** The steps still to be taken *)

Definition left_main (k : nat) : nat :=
  match k with
  | 1 => 5
  | 2 => 2
  | 3 => 1
  | _ => 0
  end%nat.

Definition left_worker (p : wpc) : nat :=
  match p with
  | WDeq => 1
  | WAct _ => 2
  | WNbr u i => 3 * (degree g u - i) + 2
  | WExit => 0
  end%nat.

Definition steps_left (a : astate) : nat :=
  energy 2 left_main left_worker (fun u => 3 * degree g u + 1)%nat a.

(** ** The machine and the heap-free state *)

Definition pc_for (w : world) (p : pc) (ap : wpc) : Prop :=
  match p, ap with
  | PcDequeue, WDeq => True
  | PcAction t, WAct u => task_for w t u
  | PcNbr t u i, WNbr u' i' => u = u' ∧ i = i' ∧ task_for w t u
  | PcExited, WExit => True
  | _, _ => False
  end.

Definition main_for (k : nat) : pc :=
  if decide (k = 4%nat) then PcExited else PcMain k.

Definition heap_ok (w : world) : Prop :=
  1 ≤ brk w ∧ ∀ x, is_Some (heap w !! x) → x < brk w.

(** The threads [T] and the queue of [w] hold the tasks of [a]: task for
    node, all different. *)
Definition tasks_ok (T : list pc) (w : world) (a : astate) : Prop :=
  ∃ wks l,
    T = main_for (amain a) :: wks ∧ Forall2 (pc_for w) wks (awk a) ∧
    queue_inv w l ∧ Forall2 (task_for w) l (aq a) ∧ NoDup (l ++ held wks).

(** [sim_at T w a]: the machine [w] with the threads at [T] is in the state
    [a], its library has not failed and will not, no thread holds the
    queue mutex, and no thread took the graph mutex while it held the
    queue mutex. *)
Record sim_at (T : list pc) (w : world) (a : astate) : Prop := {
  sm_rcs : rcs w = [];
  sm_mq : mutex_queue (tp w) = None;
  sm_nthreads : num_threads (tp w) = n;
  sm_threads : threads (tp w) = Some <$> seq 1 n;
  sm_fin : finished (tp w) = bool_decide (3 ≤ amain a)%nat;
  sm_nodes : nodes (graph w) = nodes g;
  sm_num_nodes : num_nodes (graph w) = num_nodes g;
  sm_vis : visited (graph w) = avis a;
  sm_sum : sum w = asum a;
  sm_lock : mutex_graph w = S <$> alock a;
  sm_out : out w = aout a;
  sm_log : stores (trace w) = alog a;
  sm_heap : heap_ok w;
  sm_tasks : tasks_ok T w a;
  sm_order : graph_inside_queue (trace w) = false;
  sm_free : ∀ i, holds i MutexQueue (trace w) = false
}.

Definition sim (w : world) (a : astate) : Prop := sim_at (thr w) w a.

(** The state after [destroy_task] on a task of the traversal. *)
Definition destroyed (t : Z) (w : world) : world :=
  freed t (freed (t - 1) (log (EvCall free_function_fn (t - 1)) w)).

(** The state after the first half of [wait_for_completion]. *)
Definition signalled (w : world) : world :=
  unlocked MutexQueue
    (called c_cond_broadcast (set_tp (set_finished true) (locked MutexQueue w))).

(** The state after [k] joins, of the workers from [lo] on. *)
Fixpoint joined (k lo : nat) (w : world) : world :=
  match k with
  | O => w
  | S k' => joined k' (S lo) (called (c_join (Some (S lo))) w)
  end.

(** The state [main] ends in, when the queue is empty. *)
Definition printed (w : world) : world :=
  let w3 := called (c_mutex_destroy MutexGraph)
              (called c_cond_destroy (called (c_mutex_destroy MutexQueue) w)) in
  log (EvPrint (sum w)) (set_out (out w ++ [sum w]) w3).

(** ** The start: [main] up to the initial task *)

(** The entries [lo], ..., [lo + k - 1] of an array written in a loop. *)
Fixpoint fill {A} (f : nat → A) (k lo : nat) (l : list A) : list A :=
  match k with
  | O => l
  | S k' => fill f k' (S lo) (<[lo := f lo]> l)
  end.

(** The state after one round of the loop of [create_threadpool], and after
    [k] rounds. *)
Definition one_created (lo : nat) (w : world) : world :=
  set_tp (fun p => set_threads (<[lo := Some (length (thr w))]> (threads p)) p)
    (set_thr (fun l => l ++ [PcDequeue]) (called c_create w)).

Fixpoint created (k lo : nat) (w : world) : world :=
  match k with
  | O => w
  | S k' => created k' (S lo) (one_created lo w)
  end.

(** ** Runs *)

Record inv (a : astate) : Prop := {
  inv_shape : shape a;
  inv_logged : logged a;
  inv_reached : reached a;
  inv_closed : closed a;
  inv_owed : (owed a ≤ S (num_edges g))%nat
}.

End traversal_model.

(** ** The traversal, from [main] to the printed sum *)

(** No run has more blocks than this. *)
Definition run_bound (g : os_graph_t) (n : nat) : nat := S (steps_left g (astart g n)).

(** A run of [main] on the example, with its four workers: the first one
    processes node 0, the second one node 1, which puts a second task for
    node 2 in the queue; the third and the fourth dequeue the tasks for node
    2, and the fourth finds the node done. *)
Definition example_run : list tid :=
  [0; 0; 1; 1; 1; 2; 1; 1; 2; 2; 3; 4; 2; 3; 3; 4; 0; 1; 2; 3; 4; 0]%nat.

(** ** The tasks of [main] *)

(** The queue of [w] holds tasks for the nodes [q], first to last. *)
Definition queued (w : world) (q : list nat) : Prop :=
  ∃ l, queue_inv w l ∧ Forall2 (task_for w) l q.

(** ** The walk of [destroy_threadpool] *)



(** ** The tasks a state accounts for *)



(** * Properties *)

(** ** The queue as a list *)

Lemma last_ptr_cons p t l : last_ptr p (t :: l) = last_ptr (LTask t) l.
Proof.
  unfold last_ptr. destruct l as [|x l]; [done|].
  rewrite last_cons_cons.
  destruct (last (x :: l)) eqn:E; [done|].
  by apply last_None in E.
Qed.

Lemma last_ptr_snoc p l t : last_ptr p (l ++ [t]) = LTask t.
Proof. unfold last_ptr. by rewrite last_snoc. Qed.

Lemma chain_head_prev nd p l :
  chain nd p l → ∃ h, nd LHead = Some h ∧ prev h = last_ptr p l.
Proof.
  revert p. induction l as [|t l IH]; intros p H.
  - destruct H as (n & h & _ & _ & Hh & Hp). eauto.
  - destruct H as (n & n' & _ & _ & _ & _ & Hc).
    rewrite last_ptr_cons. eauto.
Qed.

Lemma chain_nodes nd p l t :
  chain nd p l → t ∈ l → is_Some (nd (LTask t)).
Proof.
  revert p. induction l as [|x l IH]; intros p H Ht.
  - by apply elem_of_nil in Ht.
  - destruct H as (n & n' & _ & _ & Hx & _ & Hc).
    apply elem_of_cons in Ht as [->|Ht]; eauto.
Qed.

Lemma chain_start nd p l : chain nd p l → is_Some (nd p).
Proof. destruct l; intros (n & ? & Hn & _); eauto. Qed.

Lemma chain_empty_iff nd l :
  chain nd LHead l →
  (∃ h, nd LHead = Some h ∧ (next h = LHead ↔ l = [])).
Proof.
  destruct l as [|t l].
  - intros (n & h & Hn & Hnx & _). exists n. split; [done|]. tauto.
  - intros (n & n' & Hn & Hnx & _). exists n. split; [done|].
    rewrite Hnx. split; [congruence|discriminate].
Qed.

Lemma chain_snoc nd nd' t l p :
  linked_after nd nd' (last_ptr p l) t →
  chain nd p l → NoDup l → off_chain p l → t ∉ l → p ≠ LTask t →
  chain nd' p (l ++ [t]).
Proof.
  revert p. induction l as [|x l IH]; intros p [Hfr Hnew Hlast Hhd] Hc Hnd Hoff Ht Hp.
  - unfold last_ptr in *. simpl in *.
    destruct Hc as (n & h & Hn & Hnx & Hh & Hpv).
    destruct Hhd as (h0 & Hh0 & Hh').
    destruct (decide (p = LHead)) as [->|Hne].
    + eexists _, _. repeat split; [exact Hh'|done|exact Hnew|done|].
      eexists _, _. repeat split; [exact Hnew|done|exact Hh'|done].
    + destruct (Hlast Hne) as (n0 & Hn0 & Hn0').
      eexists _, _. repeat split; [exact Hn0'|done|exact Hnew|done|].
      eexists _, _. repeat split; [exact Hnew|done|exact Hh'|done].
  - rewrite last_ptr_cons in *. simpl.
    destruct Hc as (n & n' & Hn & Hnx & Hx & Hpv & Hc).
    apply NoDup_cons in Hnd as [Hxl Hnd].
    apply not_elem_of_cons in Ht as [Htx Ht].
    assert (Hlx : last_ptr (LTask x) l ≠ LHead).
    { unfold last_ptr. destruct (last l); discriminate. }
    assert (Hpl : p ≠ last_ptr (LTask x) l).
    { unfold last_ptr. destruct (last l) as [y|] eqn:Hy.
      - destruct p as [|z]; [discriminate|]. intros [= ->].
        apply last_Some_elem_of in Hy. simpl in Hoff.
        apply Hoff. by apply list_elem_of_further.
      - destruct p as [|z]; [discriminate|]. intros [= ->].
        apply Hoff. apply list_elem_of_here. }
    assert (Hp' : ∃ m, nd' p = Some m ∧ next m = LTask x) .
    { destruct (decide (p = LHead)) as [->|Hne].
      - destruct Hhd as (h0 & Hh0 & Hh'). eexists. split; [exact Hh'|].
        rewrite decide_False by done. simpl. congruence.
      - rewrite Hfr by done. eauto. }
    destruct Hp' as (m & Hm & Hmx).
    assert (Hx' : ∃ m', nd' (LTask x) = Some m' ∧ prev m' = p).
    { destruct (decide (LTask x = last_ptr (LTask x) l)) as [He|Hne].
      - destruct (Hlast Hlx) as (n0 & Hn0 & Hn0').
        rewrite <- He in Hn0, Hn0'. eexists. split; [exact Hn0'|].
        simpl. congruence.
      - rewrite Hfr; [eauto|discriminate|congruence|done]. }
    destruct Hx' as (m' & Hm' & Hmp).
    exists m, m'. repeat split; try done.
    apply IH; try done.
    congruence.
Qed.

Lemma chain_unsnoc nd nd' t l p :
  unlinked_after nd nd' (last_ptr p l) t →
  chain nd p (l ++ [t]) → NoDup (l ++ [t]) → off_chain p (l ++ [t]) →
  chain nd' p l.
Proof.
  revert p. induction l as [|x l IH]; intros p [Hfr Hpred Hhd] Hc Hnd Hoff.
  - unfold last_ptr in *. simpl in *.
    destruct Hhd as (h0 & Hh0 & Hh').
    destruct (decide (p = LHead)) as [->|Hne].
    + eexists _, _. repeat split; [exact Hh'|done|exact Hh'|done].
    + destruct (Hpred Hne) as (n0 & Hn0 & Hn0').
      eexists _, _. repeat split; [exact Hn0'|done|exact Hh'|done].
  - rewrite last_ptr_cons in *. simpl in *.
    destruct Hc as (n & n' & Hn & Hnx & Hx & Hpv & Hc).
    apply NoDup_cons in Hnd as [Hxl Hnd].
    assert (Hxt : x ≠ t).
    { intros ->. apply Hxl. apply elem_of_app. right. apply list_elem_of_here. }
    assert (Hlx : last_ptr (LTask x) l ≠ LHead).
    { unfold last_ptr. destruct (last l); discriminate. }
    assert (Hpl : p ≠ last_ptr (LTask x) l).
    { unfold last_ptr. destruct (last l) as [y|] eqn:Hy.
      - destruct p as [|z]; [discriminate|]. intros [= ->].
        apply last_Some_elem_of in Hy.
        apply Hoff. apply list_elem_of_further, elem_of_app. by left.
      - destruct p as [|z]; [discriminate|]. intros [= ->].
        apply Hoff. apply list_elem_of_here. }
    assert (Hpt : p ≠ LTask t).
    { destruct p as [|z]; [discriminate|]. intros [= ->].
      apply Hoff. apply list_elem_of_further, elem_of_app. right.
      apply list_elem_of_here. }
    assert (Hp' : ∃ m, nd' p = Some m ∧ next m = LTask x).
    { destruct (decide (p = LHead)) as [->|Hne].
      - destruct Hhd as (h0 & Hh0 & Hh'). eexists. split; [exact Hh'|].
        rewrite decide_False by done. simpl. congruence.
      - rewrite Hfr by done. eauto. }
    destruct Hp' as (m & Hm & Hmx).
    assert (Hx' : ∃ m', nd' (LTask x) = Some m' ∧ prev m' = p).
    { destruct (decide (LTask x = last_ptr (LTask x) l)) as [He|Hne].
      - destruct (Hpred Hlx) as (n0 & Hn0 & Hn0').
        rewrite <- He in Hn0, Hn0'. eexists. split; [exact Hn0'|].
        simpl. congruence.
      - rewrite Hfr; [eauto|discriminate|congruence|done]. }
    destruct Hx' as (m' & Hm' & Hmp).
    exists m, m'. repeat split; try done.
    apply IH; try done.
Qed.

(** The last node of a chain: it points on to the head and back to its
    predecessor. *)
Lemma chain_last_node nd p l t :
  chain nd p (l ++ [t]) →
  ∃ n, nd (LTask t) = Some n ∧ next n = LHead ∧ prev n = last_ptr p l.
Proof.
  revert p. induction l as [|x l IH]; intros p Hc; simpl in Hc.
  - destruct Hc as (n & n' & _ & _ & Hx & Hpv & (m & h & Hm & Hmx & _)).
    exists n'. rewrite Hx in Hm. injection Hm as <-. done.
  - destruct Hc as (n & n' & _ & _ & _ & _ & Hc).
    rewrite last_ptr_cons. by apply IH.
Qed.

(** ** Running the primitives *)

Lemma bind_eq {A B} (m : M A) (k : A → M B) w a w1 :
  m w = Ret a w1 → bind m k w = k a w1.
Proof. unfold bind. by intros ->. Qed.

Lemma bind_Exit {A B} (m : M A) (k : A → M B) w w1 :
  m w = Exit w1 → bind m k w = Exit w1.
Proof. unfold bind. by intros ->. Qed.

Lemma bind_Block {A B} (m : M A) (k : A → M B) w :
  m w = Block → bind m k w = Block.
Proof. unfold bind. by intros ->. Qed.

Lemma bind_Ret_inv {A B} (m : M A) (k : A → M B) w b w' :
  bind m k w = Ret b w' → ∃ a w1, m w = Ret a w1 ∧ k a w1 = Ret b w'.
Proof. unfold bind. destruct (m w); try discriminate. eauto. Qed.

Lemma lock_ok m w :
  rc0 w = 0 → owner m w = None →
  pthread_mutex_lock m w = Ret 0 (locked m w).
Proof.
  unfold pthread_mutex_lock, bind, next_rc, rc0. intros -> Ho.
  simpl. replace (owner m (set_rcs (tl (rcs w)) w)) with (owner m w) by (by destruct m).
  rewrite Ho. by destruct m.
Qed.

Lemma lock_busy m w j :
  rc0 w = 0 → owner m w = Some j → pthread_mutex_lock m w = Block.
Proof.
  unfold pthread_mutex_lock, bind, next_rc, rc0. intros -> Ho.
  simpl. replace (owner m (set_rcs (tl (rcs w)) w)) with (owner m w) by (by destruct m).
  rewrite Ho. done.
Qed.

Lemma lock_err m w :
  rc0 w ≠ 0 → pthread_mutex_lock m w = Ret (rc0 w) (called (c_mutex_lock m) w).
Proof.
  unfold pthread_mutex_lock, bind, next_rc, rc0. intros Hrc.
  simpl. rewrite bool_decide_eq_false_2 by done. done.
Qed.

Lemma unlock_ok m w :
  rc0 w = 0 → owner m w = Some (self w) →
  pthread_mutex_unlock m w = Ret 0 (unlocked m w).
Proof.
  unfold pthread_mutex_unlock, bind, next_rc, rc0. intros -> Ho.
  simpl. replace (owner m (set_rcs (tl (rcs w)) w)) with (owner m w) by (by destruct m).
  rewrite Ho. rewrite bool_decide_eq_true_2 by done. by destruct m.
Qed.

Lemma unlock_err m w :
  rc0 w ≠ 0 → pthread_mutex_unlock m w = Ret (rc0 w) (called (c_mutex_unlock m) w).
Proof.
  unfold pthread_mutex_unlock, bind, next_rc, rc0. intros Hrc.
  simpl. rewrite bool_decide_eq_false_2 by done. done.
Qed.

Lemma broadcast_eq w :
  pthread_cond_broadcast w = Ret (rc0 w) (called c_cond_broadcast w).
Proof. done. Qed.

Lemma wait_ok w : rc0 w = 0 → pthread_cond_wait w = Block.
Proof.
  unfold pthread_cond_wait, bind, next_rc, rc0. intros ->. done.
Qed.

Lemma wait_err w :
  rc0 w ≠ 0 → pthread_cond_wait w = Ret (rc0 w) (called c_cond_wait w).
Proof.
  unfold pthread_cond_wait, bind, next_rc, rc0. intros Hrc.
  simpl. rewrite bool_decide_eq_false_2 by done. done.
Qed.

Lemma malloc_ok w : rc0 w = 0 → malloc w = Ret (brk w) (malloced w).
Proof.
  unfold malloc, malloced, called, used, bind, next_rc, lib, rc0. intros Hrc. simpl.
  rewrite Hrc. done.
Qed.

Lemma malloc_err w : rc0 w ≠ 0 → malloc w = Ret NULL (called c_malloc w).
Proof.
  unfold malloc, bind, next_rc, lib, rc0. intros Hrc. simpl.
  rewrite bool_decide_eq_false_2 by done. done.
Qed.

Lemma DIE_false msg w : DIE false msg w = Ret tt w.
Proof. done. Qed.

Lemma DIE_true msg w : DIE true msg w = Exit (log (EvDie msg) w).
Proof. done. Qed.

(** ** Reading and writing list nodes *)

Lemma load_node_eq p w n : node_at w p = Some n → load_node p w = Ret n w.
Proof. unfold load_node. by intros ->. Qed.

Lemma store_node_eq p n w :
  is_Some (node_at w p) → store_node p n w = Ret tt (put_node p n w).
Proof. unfold store_node. by intros [? ->]. Qed.

Lemma store_next_eq p v w n :
  node_at w p = Some n →
  store_next p v w = Ret tt (put_node p (ListNode (prev n) v) w).
Proof.
  intros H. unfold store_next. rewrite (bind_eq _ _ _ _ _ (load_node_eq _ _ _ H)).
  apply store_node_eq. eauto.
Qed.

Lemma store_prev_eq p v w n :
  node_at w p = Some n →
  store_prev p v w = Ret tt (put_node p (ListNode v (next n)) w).
Proof.
  intros H. unfold store_prev. rewrite (bind_eq _ _ _ _ _ (load_node_eq _ _ _ H)).
  apply store_node_eq. eauto.
Qed.

Lemma node_at_put p n w q :
  is_Some (node_at w p) →
  node_at (put_node p n w) q = if decide (q = p) then Some n else node_at w q.
Proof.
  intros [n0 Hp]. destruct (decide (q = p)) as [->|Hne].
  - destruct p as [|t]; simpl in *; [done|].
    rewrite lookup_alter_eq.
    destruct (heap w !! t) as [[tk|v]|]; simpl in *; done.
  - destruct p as [|t], q as [|u]; simpl in *; try done.
    rewrite lookup_alter_ne; [done|congruence].
Qed.

(** ** What relinking leaves alone *)

Lemma payload_put_list n o : payload (put_list n o) = payload o.
Proof. by destruct o. Qed.

Lemma relinked_put p n w : relinked w (put_node p n w).
Proof.
  destruct p as [|t]; simpl.
  - exists n, (heap w). split; reflexivity.
  - exists (head (tp w)), (alter (put_list n) t (heap w)). split; [reflexivity|].
    apply map_eq. intros a. rewrite !lookup_fmap, lookup_alter.
    case_decide as Ha; [|done]. subst a.
    destruct (heap w !! t) as [o|]; simpl; [|done].
    by rewrite payload_put_list.
Qed.

Lemma relinked_trans w w1 w2 : relinked w w1 → relinked w1 w2 → relinked w w2.
Proof.
  intros (hd1 & hp1 & -> & H1) (hd2 & hp2 & -> & H2).
  exists hd2, hp2. split; [reflexivity|]. simpl in H2. congruence.
Qed.

Lemma payload_lookup (hp hp' : gmap Z obj) a :
  payload <$> hp' = payload <$> hp →
  payload <$> (hp' !! a) = payload <$> (hp !! a).
Proof. intros H. by rewrite <- !lookup_fmap, H. Qed.

Lemma payload_uint (hp hp' : gmap Z obj) a v :
  payload <$> hp' = payload <$> hp →
  hp !! a = Some (OUint v) → hp' !! a = Some (OUint v).
Proof.
  intros H Ha. apply (payload_lookup _ _ a) in H. rewrite Ha in H.
  destruct (hp' !! a) as [[tk|u]|]; simpl in H; congruence.
Qed.

Lemma payload_task (hp hp' : gmap Z obj) a tk :
  payload <$> hp' = payload <$> hp →
  hp !! a = Some (OTask tk) →
  ∃ n, hp' !! a = Some (OTask (set_list n tk)).
Proof.
  intros H Ha. apply (payload_lookup _ _ a) in H. rewrite Ha in H.
  destruct (hp' !! a) as [[tk'|u]|]; simpl in H; try congruence.
  exists (list_ tk'). destruct tk, tk'.
  unfold set_list in *. simpl in *. congruence.
Qed.

Lemma payload_none (hp hp' : gmap Z obj) a :
  payload <$> hp' = payload <$> hp →
  hp !! a = None → hp' !! a = None.
Proof.
  intros H Ha. apply (payload_lookup _ _ a) in H. rewrite Ha in H.
  destruct (hp' !! a); simpl in H; congruence.
Qed.

(** ** The stores of [enqueue_task] and of [list_del] on the queue *)

Lemma link_tail_eq t w l :
  queue_is w l → t ∉ l → is_Some (node_at w (LTask t)) →
  ∃ w', link_tail t w = Ret tt w' ∧ relinked w w' ∧
        linked_after (node_at w) (node_at w') (last_ptr LHead l) t.
Proof.
  intros [Hc Hnd] Ht [nt Hnt].
  destruct (chain_head_prev _ _ _ Hc) as (h & Hh & Hlast).
  assert (Hl : is_Some (node_at w (last_ptr LHead l))).
  { unfold last_ptr. destruct (last l) as [x|] eqn:Hx; [|eauto].
    eapply chain_nodes; [exact Hc|]. by eapply last_Some_elem_of. }
  destruct Hl as [nl Hnl].
  assert (Hlt : last_ptr LHead l ≠ LTask t).
  { unfold last_ptr. destruct (last l) as [x|] eqn:Hx; [|discriminate].
    intros [= ->]. by apply Ht, last_Some_elem_of. }
  unfold link_tail.
  rewrite (bind_eq _ _ _ _ _ (load_node_eq _ _ _ Hh)).
  rewrite Hlast.
  rewrite (bind_eq _ _ _ _ _ (store_next_eq _ _ _ _ Hnl)).
  set (w1 := put_node _ _ w).
  assert (Hh1 : ∃ h1, node_at w1 LHead = Some h1 ∧ prev h1 = last_ptr LHead l).
  { unfold w1. rewrite node_at_put by eauto. case_decide as Hd.
    - eexists. split; [done|]. simpl. rewrite <- Hd in Hnl.
      simpl in Hnl. simpl in Hh. congruence.
    - eauto. }
  destruct Hh1 as (h1 & Hh1 & Hp1).
  rewrite (bind_eq _ _ _ _ _ (load_node_eq _ _ _ Hh1)). rewrite Hp1.
  assert (Ht1 : node_at w1 (LTask t) = Some nt).
  { unfold w1. rewrite node_at_put by eauto. rewrite decide_False by done. done. }
  rewrite (bind_eq _ _ _ _ _ (store_prev_eq _ _ _ _ Ht1)).
  set (w2 := put_node _ _ w1).
  assert (Ht2 : node_at w2 (LTask t) = Some (ListNode (last_ptr LHead l) (next nt))).
  { unfold w2. rewrite node_at_put by eauto. by rewrite decide_True. }
  rewrite (bind_eq _ _ _ _ _ (store_next_eq _ _ _ _ Ht2)).
  set (w3 := put_node _ _ w2).
  assert (Hh3 : node_at w3 LHead = Some h1).
  { unfold w3, w2. rewrite !node_at_put by eauto. rewrite !decide_False by done. done. }
  rewrite (store_prev_eq _ _ _ _ Hh3).
  eexists. split; [done|].
  assert (S1 : is_Some (node_at w1 (LTask t))) by eauto.
  assert (S2 : is_Some (node_at w2 (LTask t))) by eauto.
  assert (S3 : is_Some (node_at w3 LHead)) by eauto.
  assert (S0 : is_Some (node_at w (last_ptr LHead l))) by eauto.
  split.
  { eapply relinked_trans; [|apply relinked_put].
    eapply relinked_trans; [|apply relinked_put].
    eapply relinked_trans; [|apply relinked_put].
    apply relinked_put. }
  split.
  - intros q Hq1 Hq2 Hq3.
    rewrite node_at_put by done. rewrite decide_False by done.
    unfold w3. rewrite node_at_put by done. rewrite decide_False by done.
    unfold w2. rewrite node_at_put by done. rewrite decide_False by done.
    unfold w1. rewrite node_at_put by done. rewrite decide_False by done. done.
  - rewrite node_at_put by done. rewrite decide_False by done.
    unfold w3. rewrite node_at_put by done. rewrite decide_True by done. done.
  - intros Hne. exists nl. split; [done|].
    rewrite node_at_put by done. rewrite decide_False by done.
    unfold w3. rewrite node_at_put by done. rewrite decide_False by done.
    unfold w2. rewrite node_at_put by done. rewrite decide_False by done.
    unfold w1. rewrite node_at_put by done. rewrite decide_True by done. done.
  - exists h. split; [done|].
    rewrite node_at_put by done. rewrite decide_True by done.
    f_equal. f_equal.
    unfold w1 in Hh1. rewrite node_at_put in Hh1 by done.
    case_decide as Hd.
    + rewrite decide_True by done. by injection Hh1 as <-.
    + rewrite decide_False by done. congruence.
Qed.

Lemma list_del_eq t w l :
  queue_is w (l ++ [t]) →
  ∃ w', list_del (LTask t) w = Ret tt w' ∧ relinked w w' ∧
        unlinked_after (node_at w) (node_at w') (last_ptr LHead l) t.
Proof.
  intros [Hc Hnd].
  destruct (chain_last_node _ _ _ _ Hc) as (nt & Hnt & Hnx & Hpv).
  destruct (chain_start _ _ _ Hc) as [h Hh].
  assert (Hl : is_Some (node_at w (last_ptr LHead l))).
  { unfold last_ptr. destruct (last l) as [x|] eqn:Hx; [|eauto].
    eapply chain_nodes; [exact Hc|].
    apply elem_of_app. left. by eapply last_Some_elem_of. }
  destruct Hl as [nl Hnl].
  assert (Hlt : last_ptr LHead l ≠ LTask t).
  { unfold last_ptr. destruct (last l) as [x|] eqn:Hx; [|discriminate].
    intros [= ->]. apply NoDup_app in Hnd as (_ & Hd & _).
    apply (Hd t); [by eapply last_Some_elem_of|apply list_elem_of_here]. }
  unfold list_del.
  rewrite (bind_eq _ _ _ _ _ (load_node_eq _ _ _ Hnt)).
  rewrite Hnx, Hpv.
  rewrite (bind_eq _ _ _ _ _ (store_next_eq _ _ _ _ Hnl)).
  set (w1 := put_node _ _ w).
  assert (S0 : is_Some (node_at w (last_ptr LHead l))) by eauto.
  assert (Ht1 : node_at w1 (LTask t) = Some nt).
  { unfold w1. rewrite node_at_put by done. by rewrite decide_False. }
  rewrite (bind_eq _ _ _ _ _ (load_node_eq _ _ _ Ht1)).
  rewrite Hnx, Hpv.
  assert (Hh1 : ∃ h1, node_at w1 LHead = Some h1 ∧
            next h1 = if decide (last_ptr LHead l = LHead) then LHead else next h).
  { unfold w1. rewrite node_at_put by done. case_decide as Hd.
    - eexists. split; [done|]. rewrite decide_True by done. done.
    - eexists. split; [done|]. rewrite decide_False by done. done. }
  destruct Hh1 as (h1 & Hh1 & Hh1n).
  rewrite (bind_eq _ _ _ _ _ (store_prev_eq _ _ _ _ Hh1)).
  set (w2 := put_node _ _ w1).
  assert (Ht2 : node_at w2 (LTask t) = Some nt).
  { unfold w2. rewrite node_at_put by eauto. by rewrite decide_False. }
  rewrite (bind_eq _ _ _ _ _ (store_next_eq _ _ _ _ Ht2)).
  set (w3 := put_node _ _ w2).
  assert (Ht3 : node_at w3 (LTask t) = Some (ListNode (prev nt) (LTask t))).
  { unfold w3. rewrite node_at_put by eauto. by rewrite decide_True. }
  rewrite (store_prev_eq _ _ _ _ Ht3).
  assert (S1 : is_Some (node_at w1 LHead)) by eauto.
  assert (S2 : is_Some (node_at w2 (LTask t))) by eauto.
  assert (S3 : is_Some (node_at w3 (LTask t))) by eauto.
  eexists. split; [done|]. split.
  { eapply relinked_trans; [|apply relinked_put].
    eapply relinked_trans; [|apply relinked_put].
    eapply relinked_trans; [|apply relinked_put].
    apply relinked_put. }
  split.
  - intros q Hq1 Hq2 Hq3.
    rewrite node_at_put by done. rewrite decide_False by done.
    unfold w3. rewrite node_at_put by done. rewrite decide_False by done.
    unfold w2. rewrite node_at_put by done. rewrite decide_False by done.
    unfold w1. rewrite node_at_put by done. rewrite decide_False by done. done.
  - intros Hne. exists nl. split; [done|].
    rewrite node_at_put by done. rewrite decide_False by done.
    unfold w3. rewrite node_at_put by done. rewrite decide_False by done.
    unfold w2. rewrite node_at_put by done. rewrite decide_False by done.
    unfold w1. rewrite node_at_put by done. rewrite decide_True by done. done.
  - exists h. split; [done|].
    rewrite node_at_put by done. rewrite decide_False by done.
    unfold w3. rewrite node_at_put by done. rewrite decide_False by done.
    unfold w2. rewrite node_at_put by done. rewrite decide_True by done.
    by rewrite Hh1n.
Qed.

(** ** A library call followed by [DIE] *)

Section die.

Context {B : Type}.

Lemma lock_die m msg (k : M B) w :
  (let* rc := pthread_mutex_lock m in DIE (bool_decide (rc ≠ 0)) msg ;;; k) w =
  if decide (rc0 w = 0) then
    match owner m w with
    | None => k (locked m w)
    | Some _ => Block
    end
  else Exit (log (EvDie msg) (called (c_mutex_lock m) w)).
Proof.
  case_decide as Hrc.
  - destruct (owner m w) as [j|] eqn:Ho.
    + by rewrite (bind_Block _ _ _ (lock_busy _ _ _ Hrc Ho)).
    + by rewrite (bind_eq _ _ _ _ _ (lock_ok _ _ Hrc Ho)).
  - rewrite (bind_eq _ _ _ _ _ (lock_err _ _ Hrc)).
    by rewrite bool_decide_eq_true_2.
Qed.

Lemma unlock_die m msg (k : M B) w :
  (let* rc := pthread_mutex_unlock m in DIE (bool_decide (rc ≠ 0)) msg ;;; k) w =
  if decide (rc0 w = 0) then
    if decide (owner m w = Some (self w)) then k (unlocked m w) else Fault
  else Exit (log (EvDie msg) (called (c_mutex_unlock m) w)).
Proof.
  case_decide as Hrc.
  - case_decide as Ho.
    + by rewrite (bind_eq _ _ _ _ _ (unlock_ok _ _ Hrc Ho)).
    + unfold pthread_mutex_unlock, bind, next_rc, rc0 in *. simpl.
      rewrite Hrc. simpl.
      replace (owner m (set_rcs (tl (rcs w)) w)) with (owner m w) by (by destruct m).
      by rewrite bool_decide_eq_false_2.
  - rewrite (bind_eq _ _ _ _ _ (unlock_err _ _ Hrc)).
    by rewrite bool_decide_eq_true_2.
Qed.

Lemma unlock_die_end m msg w :
  (let* rc := pthread_mutex_unlock m in DIE (bool_decide (rc ≠ 0)) msg) w =
  if decide (rc0 w = 0) then
    if decide (owner m w = Some (self w)) then Ret tt (unlocked m w) else Fault
  else Exit (log (EvDie msg) (called (c_mutex_unlock m) w)).
Proof.
  case_decide as Hrc.
  - case_decide as Ho.
    + by rewrite (bind_eq _ _ _ _ _ (unlock_ok _ _ Hrc Ho)).
    + unfold pthread_mutex_unlock, bind, next_rc, rc0 in *. simpl.
      rewrite Hrc. simpl.
      replace (owner m (set_rcs (tl (rcs w)) w)) with (owner m w) by (by destruct m).
      by rewrite bool_decide_eq_false_2.
  - rewrite (bind_eq _ _ _ _ _ (unlock_err _ _ Hrc)).
    by rewrite bool_decide_eq_true_2.
Qed.

Lemma wait_die msg (k : M B) w :
  (let* rc := pthread_cond_wait in DIE (bool_decide (rc ≠ 0)) msg ;;; k) w =
  if decide (rc0 w = 0) then Block
  else Exit (log (EvDie msg) (called c_cond_wait w)).
Proof.
  case_decide as Hrc.
  - by rewrite (bind_Block _ _ _ (wait_ok _ Hrc)).
  - rewrite (bind_eq _ _ _ _ _ (wait_err _ Hrc)).
    by rewrite bool_decide_eq_true_2.
Qed.

Lemma broadcast_die msg (k : M B) w :
  (let* rc := pthread_cond_broadcast in DIE (bool_decide (rc ≠ 0)) msg ;;; k) w =
  if decide (rc0 w = 0) then k (called c_cond_broadcast w)
  else Exit (log (EvDie msg) (called c_cond_broadcast w)).
Proof.
  rewrite (bind_eq _ _ _ _ _ (broadcast_eq w)).
  case_decide as Hrc.
  - by rewrite bool_decide_eq_false_2 by (intros ?; done).
  - by rewrite bool_decide_eq_true_2.
Qed.

Lemma malloc_die msg (k : Z → M B) w :
  (let* a := malloc in DIE (bool_decide (a = NULL)) msg ;;; k a) w =
  if decide (rc0 w = 0) then
    if decide (brk w = NULL) then Exit (log (EvDie msg) (malloced w))
    else k (brk w) (malloced w)
  else Exit (log (EvDie msg) (called c_malloc w)).
Proof.
  case_decide as Hrc.
  - rewrite (bind_eq _ _ _ _ _ (malloc_ok _ Hrc)).
    case_decide as Hb.
    + by rewrite bool_decide_eq_true_2.
    + by rewrite bool_decide_eq_false_2.
  - rewrite (bind_eq _ _ _ _ _ (malloc_err _ Hrc)).
    by rewrite bool_decide_eq_true_2.
Qed.

Lemma link_tail_bind t (k : M B) w :
  (let* h := load_node LHead in
   store_next (prev h) (LTask t) ;;;
   let* h := load_node LHead in
   store_prev (LTask t) (prev h) ;;;
   store_next (LTask t) LHead ;;;
   store_prev LHead (LTask t) ;;;
   k) w = (link_tail t ;;; k) w.
Proof.
  unfold link_tail, bind.
  repeat match goal with
         | |- context [match ?x with Ret _ _ => _ | _ => _ end] =>
             lazymatch x with
             | context [match _ with _ => _ end] => fail
             | _ => destruct x; try reflexivity
             end
         end.
Qed.

End die.

Lemma quiet_S n w : quiet (S n) w ↔ rc0 w = 0 ∧ quiet n (used w).
Proof.
  unfold quiet, rc0, used. simpl. destruct (rcs w) as [|r l]; simpl.
  - rewrite take_nil. split; [intros _; split; [done|constructor]|constructor].
  - rewrite Forall_cons. done.
Qed.

Lemma quiet_nil n w : rcs w = [] → quiet n w.
Proof. unfold quiet. intros ->. rewrite take_nil. constructor. Qed.

Lemma chain_ext nd nd' p l : (∀ q, nd q = nd' q) → chain nd p l → chain nd' p l.
Proof.
  intros He. revert p. induction l as [|t l IH]; intros p; simpl.
  - rewrite !He. done.
  - rewrite !He. intros (n & n' & ? & ? & ? & ? & ?). eauto 10.
Qed.

Lemma linked_after_ext nd1 nd1' nd2 nd2' p t :
  (∀ q, nd1 q = nd2 q) → (∀ q, nd1' q = nd2' q) →
  linked_after nd1 nd1' p t → linked_after nd2 nd2' p t.
Proof.
  intros H1 H2 [Ha Hb Hc Hd]. split.
  - intros q ???. rewrite <- H1, <- H2. by apply Ha.
  - by rewrite <- H2.
  - intros Hp. rewrite <- H1, <- H2. by apply Hc.
  - rewrite <- H1, <- H2. done.
Qed.

Lemma unlinked_after_ext nd1 nd1' nd2 nd2' p t :
  (∀ q, nd1 q = nd2 q) → (∀ q, nd1' q = nd2' q) →
  unlinked_after nd1 nd1' p t → unlinked_after nd2 nd2' p t.
Proof.
  intros H1 H2 [Ha Hc Hd]. split.
  - intros q ???. rewrite <- H1, <- H2. by apply Ha.
  - intros Hp. rewrite <- H1, <- H2. by apply Hc.
  - rewrite <- H1, <- H2. done.
Qed.

(** ** [enqueue_task] *)

Lemma node_at_relink hd hp w w0 :
  heap w0 = hp → head (tp w0) = hd → ∀ q, node_at (relink hd hp w) q = node_at w0 q.
Proof. intros <- <- [|t]; reflexivity. Qed.

Lemma node_at_same w w0 :
  heap w0 = heap w → head (tp w0) = head (tp w) → ∀ q, node_at w q = node_at w0 q.
Proof. intros H1 H2 [|t]; simpl; by rewrite ?H1, ?H2. Qed.

Lemma queue_is_same w w0 l :
  heap w0 = heap w → head (tp w0) = head (tp w) → queue_is w l → queue_is w0 l.
Proof.
  intros H1 H2 [Hc Hn]. split; [|done].
  eapply chain_ext; [|exact Hc]. by apply node_at_same.
Qed.

Lemma enqueue_task_eq t w l :
  queue_is w l → t ∉ l → is_Some (node_at w (LTask t)) →
  ∃ hd hp,
    payload <$> hp = payload <$> heap w ∧
    queue_is (enqueued hd hp w) (l ++ [t]) ∧
    enqueue_task t w =
      if decide (t = NULL) then Exit (log (EvDie "assert") w)
      else if decide (rc0 w = 0) then
        match owner MutexQueue w with
        | Some _ => Block
        | None =>
            let w1 := relink hd hp (counted_up w) in
            if decide (rc0 w1 = 0) then
              let w2 := called c_cond_broadcast w1 in
              if decide (rc0 w2 = 0) then Ret tt (unlocked MutexQueue w2)
              else Exit (log (EvDie "pthread_mutex_unlock")
                           (called (c_mutex_unlock MutexQueue) w2))
            else Exit (log (EvDie "pthread_cond_broad") (called c_cond_broadcast w1))
        end
      else Exit (log (EvDie "pthread_mutex_lock") (called (c_mutex_lock MutexQueue) w)).
Proof.
  intros Hq Ht Hnt.
  assert (Hq0 : queue_is (counted_up w) l).
  { eapply queue_is_same; [| |exact Hq]; reflexivity. }
  assert (Hnt0 : is_Some (node_at (counted_up w) (LTask t))) by exact Hnt.
  destruct (link_tail_eq t _ l Hq0 Ht Hnt0) as (w1 & Hrun & (hd & hp & -> & Hpay) & Hla).
  exists hd, hp. split; [exact Hpay|]. split.
  { destruct Hq0 as [Hc0 Hnd0]. split.
    - eapply chain_ext;
        [|exact (chain_snoc _ _ t l LHead Hla Hc0 Hnd0 I Ht ltac:(discriminate))].
      intros [|q]; reflexivity.
    - apply NoDup_app. split; [done|]. split; [|apply NoDup_singleton].
      intros x Hx Hx'. apply list_elem_of_singleton in Hx' as ->. done. }
  unfold enqueue_task. unfold assert_.
  case_decide as Hn.
  { by rewrite bool_decide_eq_false_2 by tauto. }
  rewrite bool_decide_eq_true_2 by done.
  rewrite (bind_eq _ _ _ _ _ eq_refl).
  rewrite lock_die.
  case_decide as Hrc; [|done].
  destruct (owner MutexQueue w) as [j|] eqn:Ho; [done|].
  unfold modify at 1. unfold bind at 1.
  rewrite link_tail_bind.
  change (set_tp _ (locked MutexQueue w)) with (counted_up w).
  rewrite (bind_eq _ _ _ _ _ Hrun).
  rewrite broadcast_die. cbv zeta.
  destruct (decide (rc0 (relink hd hp (counted_up w)) = 0)) as [Hrc1|Hrc1]; [|done].
  rewrite unlock_die_end.
  destruct (decide (rc0 (called c_cond_broadcast (relink hd hp (counted_up w))) = 0))
    as [Hrc2|Hrc2]; [|done].
  rewrite decide_True by reflexivity. done.
Qed.

(** ** [dequeue_task] *)

Lemma get_eq {A} (f : world → A) w : get f w = Ret (f w) w.
Proof. done. Qed.

Lemma modify_eq f w : modify f w = Ret tt (f w).
Proof. done. Qed.

Lemma ret_eq {A} (a : A) w : ret a w = Ret a w.
Proof. done. Qed.

Lemma list_empty_eq p w n :
  node_at w p = Some n → list_empty p w = Ret (bool_decide (next n = p)) w.
Proof.
  intros H. unfold list_empty. by rewrite (bind_eq _ _ _ _ _ (load_node_eq _ _ _ H)).
Qed.

Ltac mstep H := rewrite (bind_eq _ _ _ _ _ H).

Lemma dequeue_task_eq w l :
  queue_is w l →
  ∃ hd hp,
    payload <$> hp = payload <$> heap w ∧
    (∀ l' t, l = l' ++ [t] → queue_is (dequeued hd hp w) l') ∧
    dequeue_task w =
      if decide (rc0 w = 0) then
        match owner MutexQueue w with
        | Some _ => Block
        | None =>
            let w0 := locked MutexQueue w in
            if decide (l = [] ∧ finished (tp w) = false) then
              if decide (rc0 w0 = 0) then Block
              else Exit (log (EvDie "pthread_cond_wait") (called c_cond_wait w0))
            else if decide (num_tasks (tp w) ≤ 0) then
              if decide (rc0 w0 = 0) then Ret NULL (unlocked MutexQueue w0)
              else Exit (log (EvDie "pthread_mutex_unlock")
                           (called (c_mutex_unlock MutexQueue) w0))
            else
              match last l with
              | None => Fault
              | Some t =>
                  if decide (rc0 w0 = 0) then Ret t (dequeued hd hp w)
                  else Exit (log (EvDie "pthread_mutex_unlock")
                               (called (c_mutex_unlock MutexQueue)
                                  (relink hd hp (counted_down w))))
              end
        end
      else Exit (log (EvDie "pthread_mutex_lock") (called (c_mutex_lock MutexQueue) w)).
Proof.
  intros Hq.
  assert (Hex : ∃ hd hp,
    payload <$> hp = payload <$> heap w ∧
    ∀ l' t, l = l' ++ [t] →
      list_del (LTask t) (counted_down w) = Ret tt (relink hd hp (counted_down w)) ∧
      queue_is (dequeued hd hp w) l').
  { destruct (last l) as [t|] eqn:Hl.
    - apply last_Some in Hl as [l' ->].
      assert (Hq0 : queue_is (counted_down w) (l' ++ [t])).
      { eapply queue_is_same; [| |exact Hq]; reflexivity. }
      destruct (list_del_eq t _ l' Hq0) as (w1 & Hrun & (hd & hp & -> & Hpay) & Hua).
      exists hd, hp. split; [exact Hpay|].
      intros l'' t' He. apply app_inj_tail in He as [<- <-].
      split; [exact Hrun|].
      destruct Hq0 as [Hc0 Hnd0]. split.
      + eapply chain_ext; [|exact (chain_unsnoc _ _ t l' LHead Hua Hc0 Hnd0 I)].
        intros [|q]; reflexivity.
      + by apply NoDup_app in Hnd0 as [? _].
    - apply last_None in Hl as ->.
      exists (head (tp w)), (heap w). split; [done|].
      intros l' t He. by destruct l'. }
  destruct Hex as (hd & hp & Hpay & Hdel).
  exists hd, hp. split; [exact Hpay|]. split.
  { intros l' t He. by apply (Hdel l' t). }
  unfold dequeue_task. rewrite lock_die.
  case_decide as Hrc; [|done].
  destruct (owner MutexQueue w) as [j|] eqn:Ho; [done|].
  cbv zeta. set (w0 := locked MutexQueue w).
  destruct Hq as [Hc Hnd].
  destruct (chain_empty_iff _ _ Hc) as (h & Hh & Hemp).
  assert (Hh0 : node_at w0 LHead = Some h) by exact Hh.
  unfold queue_is_empty.
  mstep (list_empty_eq _ _ _ Hh0). mstep (get_eq (fun w1 => finished (tp w1)) w0).
  change (finished (tp w0)) with (finished (tp w)).
  destruct (decide (l = [] ∧ finished (tp w) = false)) as [[He Hf]|Hne].
  { rewrite bool_decide_eq_true_2 by tauto. rewrite Hf. simpl andb. cbv iota.
    destruct (decide (rc0 w0 = 0)) as [Hrc0|Hrc0].
    - rewrite (bind_Block _ _ w0); [done|].
      rewrite wait_die. by rewrite decide_True.
    - erewrite (bind_Exit _ _ w0); [done|].
      rewrite wait_die. by rewrite decide_False. }
  assert (Hcond : bool_decide (next h = LHead) && negb (finished (tp w)) = false).
  { destruct (finished (tp w)); [by rewrite andb_false_r|].
    rewrite bool_decide_eq_false_2; [done|]. intros Hx. apply Hne. tauto. }
  rewrite Hcond.
  mstep (ret_eq tt w0).
  mstep (get_eq (fun w1 => num_tasks (tp w1)) w0).
  change (num_tasks (tp w0)) with (num_tasks (tp w)).
  destruct (decide (num_tasks (tp w) ≤ 0)) as [Hn|Hn].
  { apply Z.leb_le in Hn as ->.
    rewrite unlock_die. destruct (decide (rc0 w0 = 0)); [|done].
    by rewrite decide_True by reflexivity. }
  apply Z.leb_nle in Hn as ->.
  mstep (modify_eq (set_tp (fun p => set_num_tasks (wrap_uint (num_tasks p - 1)) p)) w0).
  change (set_tp _ w0) with (counted_down w).
  assert (Hh1 : node_at (counted_down w) LHead = Some h) by exact Hh.
  mstep (load_node_eq _ _ _ Hh1).
  destruct (chain_head_prev _ _ _ Hc) as (h' & Hh' & Hpv).
  rewrite Hh in Hh'. injection Hh' as <-.
  rewrite Hpv. unfold last_ptr.
  destruct (last l) as [t|] eqn:Hl; [|done].
  apply last_Some in Hl as [l' ->].
  destruct (Hdel l' t eq_refl) as [Hrun _].
  unfold list_entry. mstep (ret_eq t (counted_down w)).
  mstep (load_node_eq _ _ _ Hh1).
  rewrite Hpv. unfold last_ptr. rewrite last_snoc.
  mstep Hrun.
  rewrite unlock_die.
  change (rc0 (relink hd hp (counted_down w))) with (rc0 w0).
  destruct (decide (rc0 w0 = 0)); [|done].
  by rewrite decide_True by reflexivity.
Qed.

(** ** The queue invariant *)

Lemma wrap_uint_small z : 0 ≤ z ≤ UINT_MAX → wrap_uint z = z.
Proof. unfold wrap_uint, UINT_MAX. intros H. apply Z.mod_small. lia. Qed.

Lemma enqueue_task_ret t w l r w' :
  queue_is w l → t ∉ l → is_Some (node_at w (LTask t)) →
  enqueue_task t w = Ret r w' →
  ∃ hd hp, payload <$> hp = payload <$> heap w ∧
           w' = enqueued hd hp w ∧ queue_is w' (l ++ [t]) ∧
           t ≠ NULL ∧ owner MutexQueue w = None.
Proof.
  intros Hq Ht Hnt Hrun.
  destruct (enqueue_task_eq t w l Hq Ht Hnt) as (hd & hp & Hpay & Hq' & Heq).
  rewrite Hrun in Heq. exists hd, hp.
  repeat case_decide; try discriminate.
  destruct (owner MutexQueue w); [discriminate|].
  cbv zeta in Heq. repeat case_decide; try discriminate.
  injection Heq as -> ->. done.
Qed.

Lemma enqueue_task_runs t w l :
  queue_is w l → t ∉ l → is_Some (node_at w (LTask t)) →
  t ≠ NULL → owner MutexQueue w = None → quiet 3 w →
  ∃ hd hp, payload <$> hp = payload <$> heap w ∧
           enqueue_task t w = Ret tt (enqueued hd hp w) ∧
           queue_is (enqueued hd hp w) (l ++ [t]).
Proof.
  intros Hq Ht Hnt Hn Ho Hrc.
  destruct (enqueue_task_eq t w l Hq Ht Hnt) as (hd & hp & Hpay & Hq' & Heq).
  exists hd, hp. split; [done|]. split; [|done].
  rewrite Heq, Ho.
  apply quiet_S in Hrc as [H0 Hrc]. apply quiet_S in Hrc as [H1 Hrc].
  apply quiet_S in Hrc as [H2 _].
  rewrite decide_False by done. rewrite decide_True by done. cbv zeta.
  rewrite decide_True by exact H1. rewrite decide_True by exact H2. done.
Qed.

Lemma dequeue_task_ret w l r w' :
  queue_inv w l → dequeue_task w = Ret r w' →
  owner MutexQueue w = None ∧
  ((l = [] ∧ finished (tp w) = true ∧ r = NULL ∧ w' = unlocked MutexQueue (locked MutexQueue w)) ∨
   (∃ l' hd hp, l = l' ++ [r] ∧ payload <$> hp = payload <$> heap w ∧
                w' = dequeued hd hp w ∧ queue_is w' l')).
Proof.
  intros (Hq & H0 & Hn & _) Hrun.
  destruct (dequeue_task_eq w l Hq) as (hd & hp & Hpay & Hq' & Heq).
  rewrite Hrun in Heq.
  case_decide as Hrc; [|discriminate].
  destruct (owner MutexQueue w); [discriminate|]. split; [done|].
  cbv zeta in Heq.
  destruct (decide (l = [] ∧ finished (tp w) = false)) as [|Hne].
  { case_decide; discriminate. }
  destruct (decide (num_tasks (tp w) ≤ 0)) as [Hle|Hgt].
  - left. case_decide; [|discriminate]. injection Heq as -> ->.
    assert (l = []) as -> by (destruct l; [done|simpl in Hn; lia]).
    repeat split; try done.
    destruct (finished (tp w)); [done|]. exfalso. by apply Hne.
  - right. destruct (last l) as [t|] eqn:Hl; [|discriminate].
    case_decide; [|discriminate]. injection Heq as -> ->.
    apply last_Some in Hl as [l' ->].
    exists l', hd, hp. repeat split; try done; by apply (Hq' l' t).
Qed.

Lemma dequeue_task_runs w l :
  queue_inv w l → owner MutexQueue w = None → quiet 2 w →
  match l with
  | [] => if finished (tp w)
          then dequeue_task w = Ret NULL (unlocked MutexQueue (locked MutexQueue w))
          else dequeue_task w = Block
  | _ => ∃ l' t hd hp, l = l' ++ [t] ∧ payload <$> hp = payload <$> heap w ∧
            dequeue_task w = Ret t (dequeued hd hp w) ∧
            queue_is (dequeued hd hp w) l'
  end.
Proof.
  intros (Hq & H0 & Hn & _) Ho Hrc.
  destruct (dequeue_task_eq w l Hq) as (hd & hp & Hpay & Hq' & Heq).
  apply quiet_S in Hrc as [Hr0 Hrc]. apply quiet_S in Hrc as [Hr1 _].
  rewrite Ho, decide_True in Heq by done. cbv zeta in Heq.
  change (rc0 (locked MutexQueue w)) with (rc0 (used w)) in Heq.
  rewrite !(decide_True (P := rc0 (used w) = 0)) in Heq by done.
  destruct l as [|x l].
  - simpl in Hn. rewrite (decide_True (P := num_tasks (tp w) ≤ 0)) in Heq by lia.
    destruct (finished (tp w)).
    + rewrite decide_False in Heq by (intros [_ ?]; done). done.
    + rewrite decide_True in Heq by done. done.
  - rewrite decide_False in Heq by (intros [? _]; done).
    rewrite decide_False in Heq by (simpl in Hn; lia).
    destruct (last (x :: l)) as [t|] eqn:Hl.
    + apply last_Some in Hl as [l' Hl]. exists l', t, hd, hp.
      rewrite decide_True in Heq by done.
      split; [done|]. split; [done|]. split; [done|]. by apply (Hq' l' t).
    + by apply last_None in Hl.
Qed.

Lemma node_at_payload w w' q :
  payload <$> heap w' = payload <$> heap w →
  is_Some (node_at w q) → is_Some (node_at w' q).
Proof.
  intros Hpay. destruct q as [|t]; simpl; [eauto|].
  destruct (heap w !! t) as [[tk|v]|] eqn:Ht; intros [n Hn]; try discriminate.
  destruct (payload_task _ _ _ _ Hpay Ht) as [n' ->]. eauto.
Qed.

Lemma enqueue_inv_step t w l r w' :
  queue_inv w l → t ∉ l → is_Some (node_at w (LTask t)) →
  num_tasks (tp w) < UINT_MAX →
  enqueue_task t w = Ret r w' →
  queue_inv w' (l ++ [t]) ∧
  num_tasks (tp w') = num_tasks (tp w) + 1 ∧
  payload <$> heap w' = payload <$> heap w ∧
  finished (tp w') = finished (tp w).
Proof.
  intros (Hq & H0 & Hn & _) Ht Hnt Hlt Hrun.
  destruct (enqueue_task_ret _ _ _ _ _ Hq Ht Hnt Hrun)
    as (hd & hp & Hpay & -> & Hq' & Hnn & Ho).
  assert (Hc : num_tasks (tp (enqueued hd hp w)) = num_tasks (tp w) + 1).
  { change (num_tasks (tp (enqueued hd hp w))) with (wrap_uint (num_tasks (tp w) + 1)).
    apply wrap_uint_small. unfold UINT_MAX in *. lia. }
  split; [|done]. split; [done|]. split.
  - rewrite elem_of_app, list_elem_of_singleton. intros [?|?]; [done|]. by apply Hnn.
  - rewrite Hc, length_app. simpl. unfold UINT_MAX in *. lia.
Qed.

Lemma dequeue_inv_step w l r w' :
  queue_inv w l → dequeue_task w = Ret r w' →
  payload <$> heap w' = payload <$> heap w ∧
  finished (tp w') = finished (tp w) ∧
  ((r = NULL ∧ l = [] ∧ finished (tp w) = true ∧ queue_inv w' [] ∧
    num_tasks (tp w') = num_tasks (tp w)) ∨
   (∃ l', l = l' ++ [r] ∧ queue_inv w' l' ∧
          num_tasks (tp w') = num_tasks (tp w) - 1)).
Proof.
  intros Hinv Hrun. pose proof Hinv as (Hq & H0 & Hn & Hmax).
  destruct (dequeue_task_ret _ _ _ _ Hinv Hrun)
    as [Ho [(-> & Hf & -> & ->)|(l' & hd & hp & -> & Hpay & -> & Hq')]].
  - split; [done|]. split; [done|]. left. repeat split; try done.
    + eapply chain_ext; [|apply Hq]. intros [|q]; reflexivity.
    + apply Hq.
  - split; [exact Hpay|]. split; [done|]. right. exists l'.
    rewrite length_app in Hn. simpl in Hn.
    assert (Hc : num_tasks (tp (dequeued hd hp w)) = num_tasks (tp w) - 1).
    { change (num_tasks (tp (dequeued hd hp w))) with (wrap_uint (num_tasks (tp w) - 1)).
      unfold wrap_uint. apply Z.mod_small. unfold UINT_MAX in *. lia. }
    split; [done|]. split; [|done]. split; [done|]. split.
    + intros Hin. apply H0, elem_of_app. by left.
    + rewrite Hc. lia.
Qed.

(** ** Checking the queue of a given state *)

Lemma chainb_chain nd p l : chainb nd p l = true → chain nd p l.
Proof.
  revert p. induction l as [|t l IH]; intros p; simpl.
  - destruct (nd p) as [n|]; [|done]. destruct (nd LHead) as [h|]; [|done].
    intros [H1 H2]%andb_prop. apply bool_decide_eq_true in H1, H2. eauto 10.
  - destruct (nd p) as [n|]; [|done]. destruct (nd (LTask t)) as [n'|]; [|done].
    intros [[H1 H2]%andb_prop H3]%andb_prop.
    apply bool_decide_eq_true in H1, H2. eauto 10.
Defined.

Lemma queue_invb_inv w l : queue_invb w l = true → queue_inv w l.
Proof.
  unfold queue_invb.
  intros [[[[H1 H2]%andb_prop H3]%andb_prop H4]%andb_prop H5]%andb_prop.
  apply bool_decide_eq_true in H2, H3, H4, H5.
  repeat split; try done. by apply chainb_chain.
Defined.

(** * The claims *)

(** C5: at the return of [enqueue_task] and of [dequeue_task], where the
    queue lock has just been released, [num_tasks] is the number of tasks
    linked in the queue.  [enqueue_task] links exactly one node, at the
    end of the list, and adds one to the count; a [dequeue_task] that
    returns a task unlinks exactly that node and takes one from the
    count.  The count is an [unsigned int]: it must be below [UINT_MAX]
    for [enqueue_task] to add one.  Both return when the lock is free and
    the library does not fail, [dequeue_task] unless it has to wait. *)
Theorem queue_count_invariant w l :
  queue_inv w l →
  (∀ t r w',
     t ∉ l → is_Some (node_at w (LTask t)) → num_tasks (tp w) < UINT_MAX →
     enqueue_task t w = Ret r w' →
     queue_inv w' (l ++ [t]) ∧ num_tasks (tp w') = num_tasks (tp w) + 1) ∧
  (∀ r w',
     dequeue_task w = Ret r w' →
     (r = NULL ∧ l = [] ∧ queue_inv w' [] ∧ num_tasks (tp w') = num_tasks (tp w)) ∨
     (∃ l', l = l' ++ [r] ∧ queue_inv w' l' ∧
            num_tasks (tp w') = num_tasks (tp w) - 1)) ∧
  (∀ t, t ∉ l → is_Some (node_at w (LTask t)) → t ≠ NULL →
        owner MutexQueue w = None → quiet 3 w →
        ∃ w', enqueue_task t w = Ret tt w') ∧
  (owner MutexQueue w = None → quiet 2 w → l ≠ [] ∨ finished (tp w) = true →
   ∃ r w', dequeue_task w = Ret r w').
Proof.
  intros Hinv. split; [|split; [|split]].
  - intros t r w' Ht Hnt Hlt Hrun.
    destruct (enqueue_inv_step _ _ _ _ _ Hinv Ht Hnt Hlt Hrun) as (? & ? & _).
    split; assumption.
  - intros r w' Hrun.
    destruct (dequeue_inv_step _ _ _ _ Hinv Hrun)
      as (_ & _ & [(-> & -> & _ & ? & ?)|(l' & -> & ? & ?)]).
    + left. split; [reflexivity|]. split; [reflexivity|]. split; assumption.
    + right. exists l'. split; [reflexivity|]. split; assumption.
  - intros t Ht Hnt Hnn Ho Hq.
    destruct (enqueue_task_runs t w l (proj1 Hinv) Ht Hnt Hnn Ho Hq) as (hd & hp & _ & Hrun & _).
    eauto.
  - intros Ho Hq Hor. pose proof (dequeue_task_runs w l Hinv Ho Hq) as Hr.
    destruct l as [|x l].
    + destruct Hor as [?|Hf]; [done|]. rewrite Hf in Hr. eauto.
    + destruct Hr as (l' & t & hd & hp & _ & _ & Hr & _). eauto.
Qed.

Lemma queue_count_invariant_witness :
  queue_inv three_more [4] ∧
  (∀ r w', enqueue_task 5 three_more = Ret r w' →
           queue_inv w' [4; 5] ∧ num_tasks (tp w') = 2) ∧
  (∀ r w', dequeue_task three_more = Ret r w' →
           r = 4 ∧ queue_inv w' [] ∧ num_tasks (tp w') = 0).
Proof.
  assert (Hinv : queue_inv three_more [4]).
  { apply queue_invb_inv. vm_compute. reflexivity. }
  assert (Hn1 : num_tasks (tp three_more) = 1) by (vm_compute; reflexivity).
  destruct (queue_count_invariant three_more [4] Hinv) as (He & Hd & _).
  split; [exact Hinv|]. split.
  - intros r w' Hrun. rewrite Hn1 in He. apply (He 5 r w').
    + intros H%list_elem_of_singleton. discriminate.
    + vm_compute. eauto.
    + vm_compute. reflexivity.
    + exact Hrun.
  - intros r w' Hrun.
    destruct (Hd r w' Hrun) as [(_ & Hl & _)|(l' & Hl & Hq & Hn)]; [discriminate|].
    apply (app_inj_tail [] l' 4 r) in Hl as [<- <-].
    rewrite Hn1 in Hn. split; [reflexivity|]. split; assumption.
Defined.

(** C2: the queue is a stack.  [dequeue_task] returns the task at the end
    of the list, where [enqueue_task] links: without another thread in
    between, a task that is enqueued is the next one dequeued, and three
    tasks enqueued as [t1], [t2], [t3] are dequeued as [t3], [t2], [t1].
    With the lock free and a library that does not fail, the two calls
    return. *)
Theorem dequeue_is_lifo w l :
  queue_inv w l →
  (∀ r w', l ≠ [] → dequeue_task w = Ret r w' → last l = Some r) ∧
  (∀ t r w1 r' w2,
     t ∉ l → is_Some (node_at w (LTask t)) → num_tasks (tp w) < UINT_MAX →
     enqueue_task t w = Ret r w1 → dequeue_task w1 = Ret r' w2 →
     r' = t ∧ queue_inv w2 l) ∧
  (∀ t1 t2 t3 w1 w2 w3 r1 r2 r3 w4 w5 w6,
     NoDup [t1; t2; t3] → t1 ∉ l → t2 ∉ l → t3 ∉ l →
     is_Some (node_at w (LTask t1)) → is_Some (node_at w (LTask t2)) →
     is_Some (node_at w (LTask t3)) → num_tasks (tp w) + 3 ≤ UINT_MAX →
     enqueue_task t1 w = Ret tt w1 → enqueue_task t2 w1 = Ret tt w2 →
     enqueue_task t3 w2 = Ret tt w3 →
     dequeue_task w3 = Ret r1 w4 → dequeue_task w4 = Ret r2 w5 →
     dequeue_task w5 = Ret r3 w6 →
     r1 = t3 ∧ r2 = t2 ∧ r3 = t1 ∧ queue_inv w6 l) ∧
  (∀ t, t ∉ l → is_Some (node_at w (LTask t)) → t ≠ NULL →
        num_tasks (tp w) < UINT_MAX → owner MutexQueue w = None → quiet 5 w →
        ∃ w1 w2, enqueue_task t w = Ret tt w1 ∧ dequeue_task w1 = Ret t w2).
Proof.
  intros Hinv.
  assert (Hpop : ∀ w0 l0 t r w', queue_inv w0 (l0 ++ [t]) → dequeue_task w0 = Ret r w' →
                   r = t ∧ queue_inv w' l0).
  { intros w0 l0 t r w' Hi Hrun.
    destruct (dequeue_inv_step _ _ _ _ Hi Hrun) as (_ & _ & [(_ & He & _)|(l' & He & Hq & _)]).
    - by destruct l0.
    - apply app_inj_tail in He as [-> ->]. split; [reflexivity|assumption]. }
  split; [|split; [|split]].
  - intros r w' Hne Hrun.
    destruct (dequeue_inv_step _ _ _ _ Hinv Hrun) as (_ & _ & [(_ & He & _)|(l' & -> & _)]).
    + contradiction.
    + apply last_snoc.
  - intros t r w1 r' w2 Ht Hnt Hlt He Hd.
    destruct (enqueue_inv_step _ _ _ _ _ Hinv Ht Hnt Hlt He) as (Hi1 & _).
    exact (Hpop _ _ _ _ _ Hi1 Hd).
  - intros t1 t2 t3 w1 w2 w3 r1 r2 r3 w4 w5 w6 Hnd H1 H2 H3 N1 N2 N3 Hlt E1 E2 E3 D1 D2 D3.
    apply NoDup_cons in Hnd as [H12 Hnd]. apply NoDup_cons in Hnd as [H23 _].
    apply not_elem_of_cons in H12 as [H12 H13].
    apply not_elem_of_cons in H13 as [H13 _].
    apply not_elem_of_cons in H23 as [H23 _].
    destruct (enqueue_inv_step _ _ _ _ _ Hinv H1 N1 ltac:(lia) E1) as (I1 & C1 & P1 & _).
    assert (N2' : is_Some (node_at w1 (LTask t2))) by (by eapply node_at_payload).
    assert (N3' : is_Some (node_at w1 (LTask t3))) by (by eapply node_at_payload).
    assert (H2' : t2 ∉ l ++ [t1]).
    { rewrite elem_of_app, list_elem_of_singleton. intros [?|?]; [done|congruence]. }
    destruct (enqueue_inv_step _ _ _ _ _ I1 H2' N2' ltac:(lia) E2) as (I2 & C2 & P2 & _).
    assert (N3'' : is_Some (node_at w2 (LTask t3))) by (by eapply node_at_payload).
    assert (H3' : t3 ∉ (l ++ [t1]) ++ [t2]).
    { rewrite !elem_of_app, !list_elem_of_singleton.
      intros [[?|?]|?]; [done|congruence|congruence]. }
    destruct (enqueue_inv_step _ _ _ _ _ I2 H3' N3'' ltac:(lia) E3) as (I3 & _).
    destruct (Hpop _ _ _ _ _ I3 D1) as [-> I4].
    destruct (Hpop _ _ _ _ _ I4 D2) as [-> I5].
    destruct (Hpop _ _ _ _ _ I5 D3) as [-> I6].
    repeat split; try reflexivity; apply I6.
  - intros t Ht Hnt Hnn Hlt Ho Hq.
    apply quiet_S in Hq as [H0 Hq]. apply quiet_S in Hq as [H1 Hq].
    apply quiet_S in Hq as [H2 Hq].
    assert (Hq3 : quiet 3 w).
    { apply quiet_S. split; [done|]. apply quiet_S. split; [done|].
      apply quiet_S. split; [done|]. apply Forall_nil_2. }
    destruct (enqueue_task_runs t w l (proj1 Hinv) Ht Hnt Hnn Ho Hq3)
      as (hd & hp & _ & Hrun & _).
    destruct (enqueue_inv_step _ _ _ _ _ Hinv Ht Hnt Hlt Hrun) as (Hi1 & _).
    pose proof (dequeue_task_runs (enqueued hd hp w) (l ++ [t]) Hi1 eq_refl Hq) as Hr.
    destruct (l ++ [t]) as [|x l0] eqn:El; [by destruct l|].
    destruct Hr as (l' & t' & hd' & hp' & He & _ & Hr & _).
    rewrite <- El in He. apply app_inj_tail in He as [_ <-].
    eauto.
Qed.

Lemma dequeue_is_lifo_witness :
  queue_inv three_more [4] ∧
  value_of (dequeue_task lifo_w3) = Some 7 ∧
  value_of (dequeue_task lifo_w4) = Some 6 ∧
  value_of (dequeue_task lifo_w5) = Some 5 ∧
  queue_inv lifo_w6 [4].
Proof.
  assert (Hinv : queue_inv three_more [4]).
  { apply queue_invb_inv. vm_compute. reflexivity. }
  destruct (dequeue_is_lifo three_more [4] Hinv) as (_ & _ & H & _).
  assert (D1 : ∃ r, dequeue_task lifo_w3 = Ret r lifo_w4) by (vm_compute; eauto).
  assert (D2 : ∃ r, dequeue_task lifo_w4 = Ret r lifo_w5) by (vm_compute; eauto).
  assert (D3 : ∃ r, dequeue_task lifo_w5 = Ret r lifo_w6) by (vm_compute; eauto).
  destruct D1 as [r1 D1], D2 as [r2 D2], D3 as [r3 D3].
  destruct (H 5 6 7 lifo_w1 lifo_w2 lifo_w3 r1 r2 r3 lifo_w4 lifo_w5 lifo_w6)
    as (-> & -> & -> & I6).
  - apply (bool_decide_eq_true_1 (NoDup [5; 6; 7])). vm_compute. reflexivity.
  - intros Hx%list_elem_of_singleton. discriminate.
  - intros Hx%list_elem_of_singleton. discriminate.
  - intros Hx%list_elem_of_singleton. discriminate.
  - vm_compute. eauto.
  - vm_compute. eauto.
  - vm_compute. eauto.
  - vm_compute. discriminate.
  - vm_compute. reflexivity.
  - vm_compute. reflexivity.
  - vm_compute. reflexivity.
  - exact D1.
  - exact D2.
  - exact D3.
  - rewrite D1, D2, D3. split; [exact Hinv|].
    split; [reflexivity|]. split; [reflexivity|]. split; [reflexivity|exact I6].
Defined.

Lemma forever_break fuel (body : M loop_ctl) w w' :
  forever fuel body w = Ret true w' → ∃ w1, body w1 = Ret Break w'.
Proof.
  revert w. induction fuel as [|f IH]; intros w; simpl; [discriminate|].
  intros H. apply bind_Ret_inv in H as ([] & w1 & Hb & H).
  - by apply IH in H.
  - injection H as <-. eauto.
Qed.

Lemma thread_loop_body_break call w c w' :
  thread_loop_body call w = Ret c w' →
  (c = Break ↔ dequeue_task w = Ret NULL w').
Proof.
  unfold thread_loop_body. intros H.
  apply bind_Ret_inv in H as (t & w1 & Hd & H).
  rewrite Hd. case_bool_decide as Ht.
  - injection H as <- <-. subst t. done.
  - apply bind_Ret_inv in H as (tk & w2 & _ & H).
    apply bind_Ret_inv in H as (? & w3 & _ & H).
    apply bind_Ret_inv in H as (? & w4 & _ & H).
    injection H as <- <-. split; [discriminate|]. intros [= ? _]. done.
Qed.

(** C3: [dequeue_task] returns NULL exactly when, holding the queue lock, it
    finds the queue empty and the flag [finished] set.  With the flag set
    and a task in the queue it returns the task; with an empty queue and
    no flag it does not return, it waits.  The loop of
    [thread_loop_function] is left only after a [dequeue_task] that
    returned NULL. *)
Theorem dequeue_null_iff w l :
  queue_inv w l →
  (∀ r w', dequeue_task w = Ret r w' →
           (r = NULL ↔ l = [] ∧ finished (tp w) = true)) ∧
  (finished (tp w) = true → l ≠ [] →
   ∀ r w', dequeue_task w = Ret r w' → r ≠ NULL ∧ last l = Some r) ∧
  (l = [] → finished (tp w) = false → ∀ r w', dequeue_task w ≠ Ret r w') ∧
  (owner MutexQueue w = None → quiet 2 w → l ≠ [] ∨ finished (tp w) = true →
   ∃ r w', dequeue_task w = Ret r w') ∧
  (∀ call c w', thread_loop_body call w = Ret c w' →
                (c = Break ↔ dequeue_task w = Ret NULL w')) ∧
  (∀ call fuel w0 w', thread_loop_function call fuel w0 = Ret true w' →
                      ∃ w1, dequeue_task w1 = Ret NULL w').
Proof.
  intros Hinv.
  assert (Hcases : ∀ r w', dequeue_task w = Ret r w' →
            (r = NULL ∧ l = [] ∧ finished (tp w) = true) ∨
            (r ≠ NULL ∧ ∃ l', l = l' ++ [r])).
  { intros r w' Hrun.
    destruct (dequeue_inv_step _ _ _ _ Hinv Hrun) as (_ & _ & [(? & ? & ? & _)|(l' & -> & _)]).
    - by left.
    - right. split; [|by exists l'].
      destruct Hinv as (_ & H0 & _). intros ->. apply H0.
      apply elem_of_app. right. apply list_elem_of_here. }
  split; [|split; [|split; [|split; [|split]]]].
  - intros r w' Hrun. destruct (Hcases r w' Hrun) as [(? & ? & ?)|(Hn & l' & ->)].
    + tauto.
    + split; [done|]. intros [He _]. by destruct l'.
  - intros Hf Hne r w' Hrun. destruct (Hcases r w' Hrun) as [(? & ? & ?)|(Hn & l' & ->)].
    + contradiction.
    + split; [done|apply last_snoc].
  - intros -> Hf r w' Hrun. destruct (Hcases r w' Hrun) as [(? & ? & ?)|(Hn & l' & He)].
    + congruence.
    + by destruct l'.
  - intros Ho Hq Hor. pose proof (dequeue_task_runs w l Hinv Ho Hq) as Hr.
    destruct l as [|x l].
    + destruct Hor as [?|Hf]; [done|]. rewrite Hf in Hr. eauto.
    + destruct Hr as (l' & t & hd & hp & _ & _ & Hr & _). eauto.
  - intros call c w'. apply thread_loop_body_break.
  - intros call fuel w0 w' Hrun. apply forever_break in Hrun as [w1 Hb].
    exists w1. by apply (thread_loop_body_break call w1 Break w').
Qed.

Lemma dequeue_null_iff_witness :
  queue_inv shut_down [4] ∧ finished (tp shut_down) = true ∧
  (∀ r w', dequeue_task shut_down = Ret r w' → r ≠ NULL ∧ r = 4) ∧
  (∃ r w', dequeue_task shut_down = Ret r w').
Proof.
  assert (Hinv : queue_inv shut_down [4]).
  { apply queue_invb_inv. vm_compute. reflexivity. }
  assert (Hf : finished (tp shut_down) = true) by (vm_compute; reflexivity).
  destruct (dequeue_null_iff shut_down [4] Hinv) as (_ & H2 & _ & H4 & _).
  split; [exact Hinv|]. split; [exact Hf|]. split.
  - intros r w' Hrun. destruct (H2 Hf ltac:(discriminate) r w' Hrun) as [Hn Hl].
    split; [exact Hn|]. injection Hl as <-. reflexivity.
  - apply H4.
    + vm_compute. reflexivity.
    + apply quiet_nil. vm_compute. reflexivity.
    + right. exact Hf.
Defined.

(** ** [destroy_task] *)

Lemma load_task_eq t w tk : heap w !! t = Some (OTask tk) → load_task t w = Ret tk w.
Proof. unfold load_task. by intros ->. Qed.

Lemma load_uint_eq a w v : heap w !! a = Some (OUint v) → load_uint a w = Ret v w.
Proof. unfold load_uint. by intros ->. Qed.

Lemma free_eq a w : a ≠ NULL → is_Some (heap w !! a) → free a w = Ret tt (freed a w).
Proof.
  intros Ha [o Ho]. unfold free. rewrite bool_decide_eq_false_2 by done.
  mstep (get_eq (fun w => heap w !! a) w). by rewrite Ho.
Qed.

Lemma destroy_task_eq call t w tk :
  heap w !! t = Some (OTask tk) → t ≠ NULL →
  destroy_task call t w =
    match destroy_arg tk with
    | None => Ret tt (freed t w)
    | Some f => (call f (argument tk) ;;; free t) (log (EvCall f (argument tk)) w)
    end.
Proof.
  intros Ht Hn. unfold destroy_task. mstep (load_task_eq _ _ _ Ht).
  destruct (destroy_arg tk) as [f|].
  - rewrite bool_decide_eq_true_2 by done. unfold call_ptr, emit, bind, modify.
    destruct (call f (argument tk) _); reflexivity.
  - rewrite bool_decide_eq_false_2 by (intros H; by apply H).
    mstep (ret_eq tt w). apply free_eq; [done|eauto].
Qed.

(** C10: [destroy_task] calls the destructor on the argument of the task
    only when the pointer [destroy_arg] is not NULL, and frees the task
    after that in either case.  With a NULL destructor nothing but the
    task itself leaves the heap, and no call is made. *)
Theorem destroy_task_destructor call t w tk :
  heap w !! t = Some (OTask tk) → t ≠ NULL →
  (destroy_arg tk = None →
   destroy_task call t w = Ret tt (freed t w) ∧
   trace (freed t w) = EvFree t :: trace w ∧
   ∀ a, a ≠ t → heap (freed t w) !! a = heap w !! a) ∧
  (∀ f, destroy_arg tk = Some f →
        destroy_task call t w =
        (call f (argument tk) ;;; free t) (log (EvCall f (argument tk)) w)) ∧
  (∀ f w1, destroy_arg tk = Some f →
           call f (argument tk) (log (EvCall f (argument tk)) w) = Ret tt w1 →
           is_Some (heap w1 !! t) →
           destroy_task call t w = Ret tt (freed t w1)).
Proof.
  intros Ht Hn. pose proof (destroy_task_eq call t w tk Ht Hn) as Heq.
  split; [|split].
  - intros Hd. rewrite Hd in Heq. split; [exact Heq|]. split; [reflexivity|].
    intros a Ha. simpl. by rewrite lookup_delete_ne.
  - intros f Hf. by rewrite Hf in Heq.
  - intros f w1 Hf Hc Hs. rewrite Hf in Heq. rewrite Heq. mstep Hc. by apply free_eq.
Qed.

Lemma destroy_task_destructor_witness :
  (destroy_task call_fn 5 three_more = Ret tt (freed 5 three_more) ∧
   heap (freed 5 three_more) !! 1 = heap three_more !! 1) ∧
  destroy_task call_fn 4 three_more = Ret tt (freed 4 (freed 3 (log (EvCall free_function_fn 3) three_more))).
Proof.
  split.
  - destruct (destroy_task_destructor call_fn 5 three_more
                (Task 1 (Some process_node_fn) None (ListNode (LTask 5) (LTask 5))))
      as ((H1 & _ & H3) & _).
    + vm_compute. reflexivity.
    + discriminate.
    + reflexivity.
    + split; [exact H1|]. apply H3. discriminate.
  - destruct (destroy_task_destructor call_fn 4 three_more
                (Task 3 (Some process_node_fn) (Some free_function_fn) (ListNode LHead LHead)))
      as (_ & _ & H).
    + vm_compute. reflexivity.
    + discriminate.
    + apply (H free_function_fn).
      * reflexivity.
      * vm_compute. reflexivity.
      * vm_compute. eauto.
Defined.

(** ** [process_node] *)

Lemma process_node_enter_eq arg w idx v :
  heap w !! arg = Some (OUint idx) →
  visited (graph w) !! idx = Some v →
  process_node_enter arg w =
    if decide (rc0 w = 0) then
      match owner MutexGraph w with
      | Some _ => Block
      | None =>
          if decide (v = NOT_VISITED) then
            match nodes (graph w) !! idx with
            | Some node => Ret (Some idx) (visit idx node (locked MutexGraph w))
            | None => Fault
            end
          else Ret None (locked MutexGraph w)
      end
    else Exit (log (EvDie "pthread_mutex_lock") (called (c_mutex_lock MutexGraph) w)).
Proof.
  intros Ha Hv. unfold process_node_enter.
  mstep (load_uint_eq _ _ _ Ha). rewrite lock_die.
  case_decide as Hrc; [|done].
  destruct (owner MutexGraph w) as [j|]; [done|].
  assert (Hv0 : load_visited idx (locked MutexGraph w) = Ret v (locked MutexGraph w)).
  { unfold load_visited. change (graph (locked MutexGraph w)) with (graph w). by rewrite Hv. }
  mstep Hv0. case_decide as Hnv.
  - rewrite bool_decide_eq_true_2 by done.
    unfold load_graph_node at 1. unfold bind at 1.
    change (graph (locked MutexGraph w)) with (graph w).
    destruct (nodes (graph w) !! idx) as [node|]; [|done].
    mstep (modify_eq (fun w0 => set_sum (wrap_int (sum w0 + info node)) w0) (locked MutexGraph w)).
    unfold store_visited at 1. unfold bind at 1.
    rewrite bool_decide_eq_true_2; [done|].
    apply lookup_lt_Some in Hv. exact Hv.
  - by rewrite bool_decide_eq_false_2.
Qed.

Lemma process_node_skip_eq arg w idx v :
  heap w !! arg = Some (OUint idx) →
  visited (graph w) !! idx = Some v → v ≠ NOT_VISITED →
  process_node arg w =
    if decide (rc0 w = 0) then
      match owner MutexGraph w with
      | Some _ => Block
      | None =>
          if decide (rc0 (used w) = 0)
          then Ret tt (unlocked MutexGraph (locked MutexGraph w))
          else Exit (log (EvDie "pthread_mutex_unlock")
                       (called (c_mutex_unlock MutexGraph) (locked MutexGraph w)))
      end
    else Exit (log (EvDie "pthread_mutex_lock") (called (c_mutex_lock MutexGraph) w)).
Proof.
  intros Ha Hv Hnv. unfold process_node. unfold bind at 1.
  rewrite (process_node_enter_eq _ _ _ _ Ha Hv).
  case_decide as Hrc; [|done].
  destruct (owner MutexGraph w) as [j|]; [done|].
  rewrite decide_False by done.
  mstep (ret_eq tt (locked MutexGraph w)).
  unfold process_node_leave. rewrite unlock_die_end.
  change (rc0 (locked MutexGraph w)) with (rc0 (used w)).
  case_decide; [|done]. by rewrite decide_True by reflexivity.
Qed.

(** C4: [process_node] on a node that is done changes neither the sum, nor
    a visited flag, nor the queue, nor the heap: it takes the graph lock
    and gives it back, and returns as any call does. *)
Theorem process_node_done_noop arg idx w :
  heap w !! arg = Some (OUint idx) →
  visited (graph w) !! idx = Some DONE →
  (∀ r w', process_node arg w = Ret r w' →
           sum w' = sum w ∧ graph w' = graph w ∧ tp w' = tp w ∧
           heap w' = heap w ∧ out w' = out w ∧
           trace w' = [EvLib (self w) (c_mutex_unlock MutexGraph) 0;
                       EvLib (self w) (c_mutex_lock MutexGraph) 0] ++ trace w) ∧
  (owner MutexGraph w = None → quiet 2 w →
   process_node arg w = Ret tt (unlocked MutexGraph (locked MutexGraph w))).
Proof.
  intros Ha Hv.
  pose proof (process_node_skip_eq _ _ _ _ Ha Hv ltac:(discriminate)) as Heq.
  split.
  - intros r w' Hrun. rewrite Hrun in Heq.
    case_decide; [|discriminate].
    destruct (owner MutexGraph w); [discriminate|].
    case_decide; [|discriminate].
    injection Heq as -> ->. repeat split; reflexivity.
  - intros Ho Hq. apply quiet_S in Hq as [H0 Hq]. apply quiet_S in Hq as [H1 _].
    rewrite Heq, Ho. rewrite decide_True by done. by rewrite decide_True.
Qed.

Lemma process_node_done_noop_witness :
  ∃ w', process_node 3 node0_done = Ret tt w' ∧
        sum w' = sum node0_done ∧ graph w' = graph node0_done ∧
        tp w' = tp node0_done ∧ heap w' = heap node0_done.
Proof.
  destruct (process_node_done_noop 3 0%nat node0_done) as [H1 H2].
  - vm_compute. reflexivity.
  - vm_compute. reflexivity.
  - assert (Ho : owner MutexGraph node0_done = None) by (vm_compute; reflexivity).
    assert (Hr : rcs node0_done = []) by (vm_compute; reflexivity).
    pose proof (H2 Ho (quiet_nil 2 _ Hr)) as Hrun.
    eexists. split; [exact Hrun|].
    destruct (H1 tt _ Hrun) as (? & ? & ? & ? & _).
    repeat split; assumption.
Defined.

(** ** Which thread holds which mutex *)

(** C6, as stated, fails: in the run where [main] starts the pool and seeds
    it and the first worker dequeues the task and processes node 0 up to
    its first neighbour, the worker takes the queue mutex, in
    [enqueue_task], while it holds the graph mutex. *)
Lemma both_locks_held :
  (held_both ∘ trace) <$> exec 2 [0; 0; 1; 1; 1]%nat (boot example_graph) = Some true.
Proof. vm_compute. reflexivity. Qed.

(** C7, the failing input: the third library call of
    [wait_for_completion], the [pthread_mutex_unlock] of line 135, reports
    error 1.  The process does not end: the function goes on to the joins
    (and waits there for the first worker), holding the mutex.  A
    [pthread_mutex_lock] that reports the error does end the process. *)
Lemma unlock_error_ignored :
  ending_of (wait_for_completion_signal third_call_fails) = Returned ∧
  (take 3 ∘ trace) <$> last_world (wait_for_completion_signal third_call_fails) =
    Some [EvLib 0 (c_mutex_unlock MutexQueue) 1;
          EvLib 0 c_cond_broadcast 0;
          EvLib 0 (c_mutex_lock MutexQueue) 0] ∧
  (died ∘ trace) <$> last_world (wait_for_completion_signal third_call_fails) = Some false ∧
  (mutex_queue ∘ tp) <$> last_world (wait_for_completion_signal third_call_fails) =
    Some (Some 0%nat) ∧
  ending_of (wait_for_completion third_call_fails) = Blocked ∧
  ending_of (wait_for_completion next_call_fails) = Exited ∧
  (died ∘ trace) <$> last_world (wait_for_completion next_call_fails) = Some true.
Proof. repeat split; vm_compute; reflexivity. Qed.

(** C8, the failing input: the first [pthread_create] of a pool of four
    reports EAGAIN (11).  [DIE] tests [rc < 0], so [create_threadpool]
    returns, with three threads running and the first handle unwritten. *)
Lemma create_error_ignored :
  ending_of (create_threadpool 4 create_fails) = Returned ∧
  (num_threads ∘ tp) <$> last_world (create_threadpool 4 create_fails) = Some 4%nat ∧
  (threads ∘ tp) <$> last_world (create_threadpool 4 create_fails) =
    Some [None; Some 1%nat; Some 2%nat; Some 3%nat] ∧
  thr <$> last_world (create_threadpool 4 create_fails) =
    Some [PcMain 0; PcDequeue; PcDequeue; PcDequeue] ∧
  (died ∘ trace) <$> last_world (create_threadpool 4 create_fails) = Some false.
Proof. repeat split; vm_compute; reflexivity. Qed.

(** * The traversal *)

(** ** The threads, without the heap *)

Lemma astep_akind g i a a' : astep g i a = Some a' → akind g a i a'.
Proof.
  destruct i as [|j]; simpl.
  - unfold main_step. destruct (amain a) as [|[|[|[|k]]]] eqn:Hm; try discriminate.
    + intros [= <-]. by constructor.
    + intros [= <-]. by constructor.
    + destruct (workers_done a) eqn:Hw; [|discriminate].
      intros [= <-]. by constructor.
  - unfold worker_step. destruct (awk a !! j) as [[|u|u i|]|] eqn:Hj; try discriminate.
    + destruct (last (aq a)) as [x|] eqn:Hl.
      * intros [= <-]. apply last_Some in Hl as [q Hq].
        rewrite Hq, removelast_last. by constructor.
      * case_bool_decide; [|discriminate]. intros [= <-].
        apply last_None in Hl. by constructor.
    + destruct (alock a) eqn:Hl; [discriminate|].
      destruct (avis a !! u) as [s|] eqn:Hu; [|discriminate].
      destruct s; intros [= <-]; try (by econstructor); by constructor.
    + destruct (nodes g !! u) as [node|] eqn:Hn; [|discriminate].
      case_bool_decide.
      * destruct (neighbours node !! i) as [v|] eqn:Hv; [|discriminate].
        destruct (avis a !! v) as [s|] eqn:Hs; [|discriminate].
        destruct s; intros [= <-]; try (by econstructor); by econstructor.
      * intros [= <-]. by econstructor.
Qed.

Lemma akind_astep g i a a' : akind g a i a' → astep g i a = Some a'.
Proof.
  destruct 1; simpl; unfold main_step, worker_step;
    repeat match goal with H : _ = _ |- _ => rewrite H end; try done.
  - rewrite last_snoc, removelast_last. done.
  - simpl. by rewrite bool_decide_eq_true_2.
  - by destruct s.
  - rewrite bool_decide_eq_true_2 by done.
    repeat match goal with H : _ = _ |- _ => rewrite H end. done.
  - rewrite bool_decide_eq_true_2 by done.
    repeat match goal with H : _ = _ |- _ => rewrite H end. by destruct s.
  - by rewrite bool_decide_eq_false_2.
Qed.

Lemma in_insert_inv {A} (l : list A) i x y : x ∈ <[i:=y]> l → x = y ∨ x ∈ l.
Proof.
  intros [k Hk]%list_elem_of_lookup.
  apply list_lookup_insert_Some in Hk as [(-> & -> & _)|[_ Hk]]; [by left|].
  right. by eapply list_elem_of_lookup_2.
Qed.

Lemma in_insert_keep {A} (l : list A) i x y z :
  l !! i = Some z → x ∈ l → x ≠ z → x ∈ <[i:=y]> l.
Proof.
  intros Hi [k Hk]%list_elem_of_lookup Hne.
  apply list_elem_of_lookup. exists k. rewrite list_lookup_insert_ne; [done|].
  intros ->. congruence.
Qed.

Lemma done_all l j p : forallb is_exit l = true → l !! j = Some p → p = WExit.
Proof.
  intros H Hj. apply Is_true_true, forallb_True in H.
  apply (Forall_lookup_1 _ _ _ _ H) in Hj. by destruct p.
Qed.

Lemma done_insert_not l j p q :
  is_exit p = false → l !! j = Some q → forallb is_exit (<[j:=p]> l) = false.
Proof.
  intros Hp Hj. destruct (forallb is_exit (<[j:=p]> l)) eqn:H; [|done].
  assert (<[j:=p]> l !! j = Some p) as Hj'.
  { apply list_lookup_insert_eq. by eapply lookup_lt_Some. }
  apply (done_all _ _ _ H) in Hj'. by subst p.
Qed.

(** ** Tasks of the traversal in the heap *)

Lemma heap_ext_payload (hp hp' : gmap Z obj) :
  payload <$> hp' = payload <$> hp → heap_ext hp hp'.
Proof.
  intros H x o Hx. rewrite (payload_lookup _ _ x H), Hx. done.
Qed.

Lemma heap_ext_insert (hp : gmap Z obj) x o : hp !! x = None → heap_ext hp (<[x:=o]> hp).
Proof.
  intros Hx y o' Hy. rewrite lookup_insert_ne by congruence. by rewrite Hy.
Qed.

Lemma heap_ext_trans (h1 h2 h3 : gmap Z obj) :
  heap_ext h1 h2 → heap_ext h2 h3 → heap_ext h1 h3.
Proof.
  intros H12 H23 x o Hx. specialize (H12 x o Hx).
  destruct (h2 !! x) as [o2|] eqn:H2; [|done].
  specialize (H23 x o2 H2). simpl in H12. injection H12 as H12.
  rewrite H23. f_equal. unfold payload in *. destruct o2, o; simpl in *; congruence.
Qed.

Lemma heap_ext_delete (hp : gmap Z obj) x y o :
  hp !! x = Some o → x ≠ y → payload <$> (delete y hp !! x) = Some (payload o).
Proof. intros Hx Hne. rewrite lookup_delete_ne by done. by rewrite Hx. Qed.

Lemma payload_inv_uint o v : payload o = OUint v → o = OUint v.
Proof. by destruct o. Qed.

Lemma payload_inv_task o tk :
  payload o = OTask tk →
  ∃ nd, o = OTask (Task (argument tk) (action tk) (destroy_arg tk) nd).
Proof.
  destruct o as [[a ac d nd]|v]; [|done]. unfold payload. simpl.
  intros [= <-]. simpl. eauto.
Qed.

(** What matters of the heap for a task. *)
Lemma task_for_keep (hp' : gmap Z obj) w w' t u :
  heap w' = hp' →
  (∀ x o, (x = t ∨ x = t - 1) → heap w !! x = Some o →
          payload <$> (hp' !! x) = Some (payload o)) →
  task_for w t u → task_for w' t u.
Proof.
  intros <- Hext (Ht & Ha & nd & Hk). split; [done|]. split.
  - specialize (Hext (t - 1) _ (or_intror eq_refl) Ha).
    destruct (heap w' !! (t - 1)) as [o|]; [|done].
    injection Hext as Ho. by apply payload_inv_uint in Ho as ->.
  - specialize (Hext t _ (or_introl eq_refl) Hk).
    destruct (heap w' !! t) as [o|]; [|done].
    injection Hext as Ho. apply payload_inv_task in Ho as [nd' ->]. simpl. eauto.
Qed.

Lemma task_for_ext w w' t u :
  heap_ext (heap w) (heap w') → task_for w t u → task_for w' t u.
Proof.
  intros Hext. apply (task_for_keep (heap w')); [done|].
  intros x o _. apply Hext.
Qed.

(** Two tasks and their cells are four objects. *)
Lemma task_for_apart w t u t' u' :
  task_for w t u → task_for w t' u' → t ≠ t' →
  t ≠ t' - 1 ∧ t - 1 ≠ t' ∧ t - 1 ≠ t' - 1.
Proof.
  intros (_ & Ha & nd & Hk) (_ & Ha' & nd' & Hk') Hne.
  repeat split; [congruence|congruence|lia].
Qed.

Lemma chain_agree nd nd' p l :
  nd' LHead = nd LHead → nd' p = nd p → (∀ t, t ∈ l → nd' (LTask t) = nd (LTask t)) →
  chain nd p l → chain nd' p l.
Proof.
  intros Hh. revert p. induction l as [|t l IH]; intros p Hp Hl; simpl.
  - by rewrite Hh, Hp.
  - rewrite Hp, (Hl t) by apply list_elem_of_here.
    intros (n1 & n2 & ? & ? & ? & ? & Hc). exists n1, n2. repeat split; try done.
    apply IH; [apply Hl, list_elem_of_here| |done].
    intros x Hx. by apply Hl, list_elem_of_further.
Qed.

(** The queue does not depend on the objects outside of it. *)
Lemma queue_inv_frame w w' l :
  head (tp w') = head (tp w) → num_tasks (tp w') = num_tasks (tp w) →
  (∀ t, t ∈ l → heap w' !! t = heap w !! t) →
  queue_inv w l → queue_inv w' l.
Proof.
  intros Hh Hn Hl ((Hc & Hnd) & H0 & Hc0 & Hmax).
  split; [split; [|done]|by rewrite Hn].
  eapply chain_agree; [| | |exact Hc]; simpl.
  - by rewrite Hh.
  - by rewrite Hh.
  - intros t Ht. by rewrite (Hl t Ht).
Qed.

Lemma queue_member_task w l t :
  queue_inv w l → t ∈ l → ∃ tk, heap w !! t = Some (OTask tk).
Proof.
  intros ((Hc & _) & _) Ht. destruct (chain_nodes _ _ _ _ Hc Ht) as [nd Hn].
  simpl in Hn. destruct (heap w !! t) as [[tk|v]|]; try done. eauto.
Qed.

Lemma held_insert_same l j p p' :
  l !! j = Some p → held_of p' = held_of p → held (<[j:=p']> l) = held l.
Proof.
  revert j. induction l as [|x l IH]; intros j Hj He; [done|].
  destruct j as [|j]; simpl in *.
  - injection Hj as ->. unfold held. simpl. by rewrite He.
  - unfold held. simpl. fold (held l). fold (held (<[j:=p']> l)).
    by rewrite (IH j Hj He).
Qed.

Lemma held_insert_add l j p p' t :
  l !! j = Some p → held_of p = None → held_of p' = Some t →
  held (<[j:=p']> l) ≡ₚ t :: held l.
Proof.
  revert j. induction l as [|x l IH]; intros j Hj Hp Hp'; [done|].
  destruct j as [|j]; simpl in *.
  - injection Hj as ->. unfold held. simpl. by rewrite Hp, Hp'.
  - unfold held. simpl. fold (held l). fold (held (<[j:=p']> l)).
    destruct (held_of x); [|by apply IH].
    rewrite (IH j Hj Hp Hp'). apply Permutation_swap.
Qed.

Lemma held_insert_del l j p p' t :
  l !! j = Some p → held_of p = Some t → held_of p' = None →
  held l ≡ₚ t :: held (<[j:=p']> l).
Proof.
  revert j. induction l as [|x l IH]; intros j Hj Hp Hp'; [done|].
  destruct j as [|j]; simpl in *.
  - injection Hj as ->. unfold held. simpl. by rewrite Hp, Hp'.
  - unfold held. simpl. fold (held l). fold (held (<[j:=p']> l)).
    destruct (held_of x); [|by apply IH].
    rewrite (IH j Hj Hp Hp'). apply Permutation_swap.
Qed.

(** ** A new task for a node *)

Lemma create_task_eq ac arg d w :
  rc0 w = 0 → brk w ≠ NULL →
  create_task ac arg d w =
  Ret (brk w)
    (set_heap (insert (brk w)
                 (OTask (Task arg ac d (ListNode (LTask (brk w)) (LTask (brk w))))))
       (malloced w)).
Proof.
  intros Hrc Hb. unfold create_task. rewrite malloc_die.
  rewrite decide_True by done. rewrite decide_False by done.
  unfold store. rewrite bool_decide_eq_false_2 by done.
  by rewrite (bind_eq _ _ _ _ _ (modify_eq _ _)).
Qed.

Lemma main_seed_spawn : main_seed = spawn 0.
Proof. reflexivity. Qed.

Lemma spawn_eq u w l :
  rcs w = [] → mutex_queue (tp w) = None → queue_inv w l →
  1 ≤ brk w → (∀ x, is_Some (heap w !! x) → x < brk w) →
  num_tasks (tp w) < UINT_MAX →
  ∃ hd hp,
    spawn u w = Ret tt (spawned u hd hp w) ∧
    payload <$> hp = payload <$> heap (allocated u w) ∧
    queue_inv (spawned u hd hp w) (l ++ [brk w + 1]).
Proof.
  intros Hrc Hmq Hinv Hb Hheap Hlt.
  assert (Hfresh : ∀ x, x ∈ l → x < brk w).
  { intros x Hx. destruct (queue_member_task _ _ _ Hinv Hx) as [tk Hk].
    apply Hheap. eauto. }
  assert (Hinv4 : queue_inv (allocated u w) l).
  { eapply queue_inv_frame; [| | |exact Hinv]; try reflexivity.
    intros t Ht. apply Hfresh in Ht. simpl.
    rewrite !lookup_insert_ne by lia. done. }
  assert (Hnotin : brk w + 1 ∉ l).
  { intros Hin%Hfresh. lia. }
  assert (Hnode : is_Some (node_at (allocated u w) (LTask (brk w + 1)))).
  { simpl. rewrite lookup_insert_eq. simpl. eauto. }
  assert (Hq3 : quiet 3 (allocated u w)).
  { apply quiet_nil. simpl. by rewrite Hrc. }
  destruct (enqueue_task_runs (brk w + 1) (allocated u w) l (proj1 Hinv4) Hnotin Hnode
              ltac:(unfold NULL; lia) Hmq Hq3) as (hd & hp & Hpay & Hrun & Hq').
  exists hd, hp. split; [|split; [exact Hpay|]].
  - unfold spawn. rewrite malloc_die.
    rewrite decide_True by (unfold rc0; by rewrite Hrc).
    rewrite decide_False by (unfold NULL; lia).
    unfold store. rewrite bool_decide_eq_false_2 by (unfold NULL; lia).
    rewrite (bind_eq _ _ _ _ _ (modify_eq _ _)).
    erewrite (bind_eq _ _ _ _ _ (create_task_eq _ _ _ _ _ _)).
    + exact Hrun.
  - apply (enqueue_inv_step _ _ _ tt _ Hinv4 Hnotin Hnode Hlt Hrun).
  Unshelve.
  + unfold rc0. simpl. by rewrite Hrc.
  + simpl. unfold NULL. lia.
Qed.

(** ** Counting what is left to do *)

Lemma unvisited_sum_visit f off vis u :
  vis !! u = Some NOT_VISITED →
  unvisited_sum f off vis = (f (off + u) + unvisited_sum f off (<[u:=DONE]> vis))%nat.
Proof.
  revert off u. induction vis as [|s vis IH]; intros off u Hu; [done|].
  destruct u as [|u]; simpl in *.
  - injection Hu as ->. simpl. rewrite Nat.add_0_r. lia.
  - rewrite (IH (S off) u Hu). replace (S off + u)%nat with (off + S u)%nat by lia. lia.
Qed.

Lemma unvisited_sum_all f off (l : list os_node_t) :
  (∀ i node, l !! i = Some node → f (off + i)%nat = num_neighbours node) →
  unvisited_sum f off (replicate (length l) NOT_VISITED) = sum_list (num_neighbours <$> l).
Proof.
  revert off. induction l as [|x l IH]; intros off Hf; [done|].
  simpl. rewrite (IH (S off)).
  - specialize (Hf 0%nat x eq_refl). rewrite Nat.add_0_r in Hf. by rewrite Hf.
  - intros i node Hi. rewrite <- (Hf (S i) node Hi). f_equal. lia.
Qed.

Lemma sum_list_with_insert {A} (c : A → nat) (l : list A) j p p' :
  l !! j = Some p →
  (sum_list_with c (<[j:=p']> l) + c p = sum_list_with c l + c p')%nat.
Proof.
  revert j. induction l as [|x l IH]; intros j Hj; [done|].
  destruct j as [|j]; simpl in *.
  - injection Hj as ->. lia.
  - specialize (IH j Hj). lia.
Qed.

Section traversal.

Variable g : os_graph_t.
Variable n : nat.
Hypothesis Hwf : wf_graph g.
Hypothesis Hn : (1 ≤ n)%nat.

(** The definitions of the model, read at [g] and [n]. *)
Local Abbreviation wpc_ok := (wpc_ok g).
Local Abbreviation shape := (shape g n).
Local Abbreviation sh_len := (sh_len g n).
Local Abbreviation sh_main := (sh_main g n).
Local Abbreviation sh_vis := (sh_vis g n).
Local Abbreviation sh_q := (sh_q g n).
Local Abbreviation sh_pcs := (sh_pcs g n).
Local Abbreviation sh_lock := (sh_lock g n).
Local Abbreviation sh_exit := (sh_exit g n).
Local Abbreviation sh_joined := (sh_joined g n).
Local Abbreviation sh_drained := (sh_drained g n).
Local Abbreviation logged := (logged g).
Local Abbreviation lg_flags := (lg_flags g).
Local Abbreviation lg_nodup := (lg_nodup g).
Local Abbreviation lg_log := (lg_log g).
Local Abbreviation lg_sum := (lg_sum g).
Local Abbreviation lg_out := (lg_out g).
Local Abbreviation wpc_reach := (wpc_reach g).
Local Abbreviation reached := (reached g).
Local Abbreviation re_log := (re_log g).
Local Abbreviation re_q := (re_q g).
Local Abbreviation re_pcs := (re_pcs g).
Local Abbreviation closed := (closed g).
Local Abbreviation cl_edges := (cl_edges g).
Local Abbreviation cl_seed := (cl_seed g).
Local Abbreviation owed_worker := (owed_worker g).
Local Abbreviation owed := (owed g).
Local Abbreviation left_worker := (left_worker g).
Local Abbreviation steps_left := (steps_left g).
Local Abbreviation sim_at := (sim_at g n).
Local Abbreviation sm_rcs := (sm_rcs g n).
Local Abbreviation sm_mq := (sm_mq g n).
Local Abbreviation sm_nthreads := (sm_nthreads g n).
Local Abbreviation sm_threads := (sm_threads g n).
Local Abbreviation sm_fin := (sm_fin g n).
Local Abbreviation sm_nodes := (sm_nodes g n).
Local Abbreviation sm_num_nodes := (sm_num_nodes g n).
Local Abbreviation sm_vis := (sm_vis g n).
Local Abbreviation sm_sum := (sm_sum g n).
Local Abbreviation sm_lock := (sm_lock g n).
Local Abbreviation sm_out := (sm_out g n).
Local Abbreviation sm_log := (sm_log g n).
Local Abbreviation sm_heap := (sm_heap g n).
Local Abbreviation sm_tasks := (sm_tasks g n).
Local Abbreviation sm_order := (sm_order g n).
Local Abbreviation sm_free := (sm_free g n).
Local Abbreviation sim := (sim g n).
Local Abbreviation inv := (inv g n).
Local Abbreviation inv_shape := (inv_shape g n).
Local Abbreviation inv_logged := (inv_logged g n).
Local Abbreviation inv_reached := (inv_reached g n).
Local Abbreviation inv_closed := (inv_closed g n).
Local Abbreviation inv_owed := (inv_owed g n).

Lemma shape_start : shape (astart g n).
Proof.
  split; simpl.
  - apply length_replicate.
  - lia.
  - apply length_replicate.
  - constructor.
  - by apply Forall_replicate.
  - intros j. split; [discriminate|]. intros (u & i & H).
    apply lookup_replicate in H as [? _]. discriminate.
  - intros H%elem_of_replicate_inv. discriminate.
  - discriminate.
  - unfold workers_done. simpl. destruct n; [lia|]. discriminate.
Qed.

Lemma neighbour_in_range u node i v :
  nodes g !! u = Some node → neighbours node !! i = Some v → (v < num_nodes g)%nat.
Proof.
  intros Hu Hv. destruct (wf_neighbours g Hwf u node Hu) as [_ Hall].
  by apply (Forall_lookup_1 _ _ _ _ Hall) in Hv.
Qed.

Lemma degree_eq u node : nodes g !! u = Some node → degree g u = num_neighbours node.
Proof. unfold degree. by intros ->. Qed.

Lemma lock_keep (l : list wpc) o j p p' :
  (∀ k, o = Some k ↔ ∃ u i, l !! k = Some (WNbr u i)) →
  l !! j = Some p → is_nbr p = is_nbr p' →
  ∀ k, o = Some k ↔ ∃ u i, <[j:=p']> l !! k = Some (WNbr u i).
Proof.
  intros Hl Hj Hp k. rewrite Hl. destruct (decide (k = j)) as [->|Hne].
  - rewrite list_lookup_insert_eq by (by eapply lookup_lt_Some). rewrite Hj.
    destruct p, p'; try discriminate;
      split; intros (u' & i' & E); try discriminate; eauto.
  - by rewrite list_lookup_insert_ne.
Qed.

Lemma lock_take (l : list wpc) j p u i :
  (∀ k, None = Some k ↔ ∃ u i, l !! k = Some (WNbr u i)) →
  l !! j = Some p →
  ∀ k, Some j = Some k ↔ ∃ u' i', <[j:=WNbr u i]> l !! k = Some (WNbr u' i').
Proof.
  intros Hl Hj k. destruct (decide (k = j)) as [->|Hne].
  - rewrite list_lookup_insert_eq by (by eapply lookup_lt_Some). split; eauto.
  - rewrite list_lookup_insert_ne by done. rewrite <- Hl. split; [congruence|discriminate].
Qed.

Lemma lock_release (l : list wpc) j u i p' :
  (∀ k, Some j = Some k ↔ ∃ u i, l !! k = Some (WNbr u i)) →
  l !! j = Some (WNbr u i) → is_nbr p' = false →
  ∀ k, None = Some k ↔ ∃ u' i', <[j:=p']> l !! k = Some (WNbr u' i').
Proof.
  intros Hl Hj Hp k. split; [discriminate|]. intros (u' & i' & Hk).
  destruct (decide (k = j)) as [->|Hne].
  - rewrite list_lookup_insert_eq in Hk by (by eapply lookup_lt_Some).
    injection Hk as ->. discriminate.
  - rewrite list_lookup_insert_ne in Hk by done.
    assert (Some j = Some k) by (apply Hl; eauto). congruence.
Qed.

Lemma shape_step a th a' : shape a → akind g a th a' → shape a'.
Proof.
  intros [Hlen Hmain Hvis Hq Hpcs Hlock Hexit Hjoin Hdrain] Hk.
  assert (Hnot4 : ∀ j p, awk a !! j = Some p → is_exit p = false → amain a ≠ 4%nat).
  { intros j p Hj Hp H4. apply Hjoin in H4.
    apply (done_all _ _ _ H4) in Hj. by subst p. }
  destruct Hk; split; simpl; try rewrite length_insert; try done; try lia;
    try (apply Forall_insert; [done|simpl; try done]);
    try match goal with
        | |- WExit ∈ <[_:=_]> _ → _ =>
            intros [?|Hin]%in_insert_inv; [try done; try lia|by apply Hexit]
        | |- amain _ = 4%nat → _ =>
            intros H4; exfalso; eapply Hnot4; [eassumption|reflexivity|exact H4]
        | |- workers_done (a_wk _ _ _) = true → _ =>
            intros Hd; unfold workers_done in Hd; simpl in Hd;
            first [ by erewrite done_insert_not in Hd by (first [reflexivity|eassumption])
                  | done ]
        | |- ∀ _, alock _ = Some _ ↔ _ =>
            eapply lock_keep; [exact Hlock|eassumption|reflexivity]
        | H : alock a = None |- ∀ _, Some _ = Some _ ↔ _ =>
            eapply lock_take; [rewrite <- H; exact Hlock|eassumption]
        end.
  (* seed *)
  - apply Forall_app. split; [done|]. constructor; [apply (wf_node0 g Hwf)|constructor].
  - intros Hin. apply Hexit in Hin. lia.
  - intros Hd. unfold workers_done in Hd. simpl in Hd.
    destruct (awk a) as [|p l] eqn:Hw; [simpl in Hlen; lia|].
    assert (p = WExit) as -> by (apply (done_all _ 0%nat _ Hd); done).
    assert (3 ≤ amain a)%nat by (apply Hexit; apply list_elem_of_here). lia.
  (* pop *)
  - rewrite H0 in Hq. by apply Forall_app in Hq as [? _].
  - rewrite H0 in Hq. apply Forall_app in Hq as [_ Hx]. by inversion Hx.
  (* visit *)
  - split; [|lia]. by apply (Forall_lookup_1 _ _ _ _ Hpcs) in H.
  (* push *)
  - apply Forall_app. split; [done|]. constructor; [|constructor].
    by eapply neighbour_in_range.
  - apply (Forall_lookup_1 _ _ _ _ Hpcs) in H as [Hu Hi]. split; [done|].
    rewrite (degree_eq _ _ H0). lia.
  (* pass *)
  - apply (Forall_lookup_1 _ _ _ _ Hpcs) in H as [Hu Hi]. split; [done|].
    rewrite (degree_eq _ _ H0). lia.
  - intros Hm4. exfalso. by apply (Hnot4 _ _ H).
  (* leave *)
  - assert (alock a = Some j) as Hj by (apply Hlock; eauto).
    eapply lock_release; [rewrite <- Hj; exact Hlock|eassumption|reflexivity].
Qed.

Lemma wrap_int_add s x : wrap_int (wrap_int s + x) = wrap_int (x + s).
Proof.
  unfold wrap_int.
  replace (((s + 2147483648) mod 4294967296 - 2147483648 + x + 2147483648))
    with ((s + 2147483648) mod 4294967296 + x) by lia.
  rewrite Zplus_mod_idemp_l. f_equal. f_equal. lia.
Qed.

Lemma logged_start : logged (astart g n).
Proof.
  split; simpl.
  - by apply Forall_replicate; left.
  - constructor.
  - intros u. split; [by intros ?%elem_of_nil|].
    intros [? _]%lookup_replicate. discriminate.
  - reflexivity.
  - reflexivity.
Qed.

Lemma logged_step a th a' : shape a → logged a → akind g a th a' → logged a'.
Proof.
  intros Hs [Hfl Hnd Hlog Hsum Hout] Hk.
  assert (Hnot4 : ∀ j p, awk a !! j = Some p → is_exit p = false → amain a ≠ 4%nat).
  { intros j p Hj Hp H4. apply (sh_joined _ Hs) in H4.
    apply (done_all _ _ _ H4) in Hj. by subst p. }
  destruct Hk; split; simpl; try done.
  - rewrite Hout, H. done.
  - rewrite Hout, H. done.
  - rewrite Hout, H. done.
  - apply Forall_insert; [done|by right].
  - constructor; [|done]. rewrite Hlog, H1. discriminate.
  - intros u0. rewrite elem_of_cons, Hlog.
    destruct (decide (u0 = u)) as [->|Hne].
    + rewrite list_lookup_insert_eq by (by eapply lookup_lt_Some). tauto.
    + rewrite list_lookup_insert_ne by done. split; [intros [?|?]; done|by right].
  - rewrite Hsum. apply wrap_int_add.
  - rewrite Hout. by rewrite !decide_False by (by eapply Hnot4).
Qed.

Lemma reached_start : reached (astart g n).
Proof.
  split; simpl.
  - by intros u ?%elem_of_nil.
  - by intros u ?%elem_of_nil.
  - by apply Forall_replicate.
Qed.

Lemma reached_step a th a' : reached a → akind g a th a' → reached a'.
Proof.
  intros [Hlog Hq Hpcs] Hk.
  destruct Hk; split; simpl; try done;
    try (apply Forall_insert; [done|simpl; try done]).
  - intros u [?|Hu%list_elem_of_singleton]%elem_of_app; [by apply Hq|].
    subst u. constructor.
  - intros u Hu. apply Hq. rewrite H0. apply elem_of_app. by left.
  - apply Hq. rewrite H0. apply elem_of_app. right. apply list_elem_of_here.
  - intros u0 [->|?]%elem_of_cons; [|by apply Hlog].
    by apply (Forall_lookup_1 _ _ _ _ Hpcs) in H.
  - by apply (Forall_lookup_1 _ _ _ _ Hpcs) in H.
  - intros u0 [?|Hu%list_elem_of_singleton]%elem_of_app; [by apply Hq|].
    subst u0. apply (Forall_lookup_1 _ _ _ _ Hpcs) in H. simpl in H.
    eapply reach_edge; [exact H|]. by exists node, i.
  - by apply (Forall_lookup_1 _ _ _ _ Hpcs) in H.
  - by apply (Forall_lookup_1 _ _ _ _ Hpcs) in H.
Qed.

Lemma closed_start : closed (astart g n).
Proof.
  split; simpl.
  - intros u node i v [? _]%lookup_replicate. discriminate.
  - lia.
Qed.

Lemma flag_done a s u :
  logged a → avis a !! u = Some s → s ≠ NOT_VISITED → avis a !! u = Some DONE.
Proof.
  intros Hl Hu Hs. destruct (Forall_lookup_1 _ _ _ _ (lg_flags _ Hl) Hu); by subst.
Qed.

Lemma pending_step a th a' v :
  shape a → logged a → akind g a th a' → pending a v → pending a' v.
Proof.
  intros Hs Hl Hk [Hd|[Hq|Hw]].
  - left. destruct Hk; simpl; try done.
    destruct (decide (v = u)) as [->|Hne].
    + apply list_lookup_insert_eq. by eapply lookup_lt_Some.
    + by rewrite list_lookup_insert_ne.
  - destruct Hk; simpl; try (by right; left);
      try (right; left; apply elem_of_app; by left).
    + rewrite H0 in Hq. apply elem_of_app in Hq as [?|Hx%list_elem_of_singleton].
      * right. by left.
      * subst v. right. right. simpl. apply list_elem_of_insert.
        by eapply lookup_lt_Some.
  - destruct Hk; simpl; try (by right; right).
    + right. right. eapply in_insert_keep; [eassumption|done|discriminate].
    + right. right. eapply in_insert_keep; [eassumption|done|discriminate].
    + destruct (decide (v = u)) as [->|Hne].
      * left. apply list_lookup_insert_eq. by eapply lookup_lt_Some.
      * right. right. eapply in_insert_keep; [eassumption|done|congruence].
    + destruct (decide (v = u)) as [->|Hne].
      * left. simpl. by eapply flag_done.
      * right. right. eapply in_insert_keep; [eassumption|done|congruence].
    + right. right. eapply in_insert_keep; [eassumption|done|discriminate].
    + right. right. eapply in_insert_keep; [eassumption|done|discriminate].
    + right. right. eapply in_insert_keep; [eassumption|done|discriminate].
Qed.

Lemma closed_step a th a' :
  shape a → logged a → closed a → akind g a th a' → closed a'.
Proof.
  intros Hs Hl [Hed Hseed] Hk. split.
  - intros u0 node0 i0 v0 Hu0 Hn0 Hv0.
    assert (Hold : avis a !! u0 = Some DONE →
              pending a' v0 ∨ ∃ i', WNbr u0 i' ∈ awk a' ∧ (i' ≤ i0)%nat).
    { intros Hd. destruct (Hed u0 node0 i0 v0 Hd Hn0 Hv0) as [Hp|(i' & Hin & Hle)].
      { left. by eapply pending_step. }
      assert (Hlt : (i0 < num_neighbours node0)%nat).
      { apply lookup_lt_Some in Hv0.
        by rewrite (proj1 (wf_neighbours g Hwf u0 node0 Hn0)) in Hv0. }
      destruct Hk; simpl; try (by right; exists i').
      - right. exists i'. split; [|done].
        eapply in_insert_keep; [eassumption|done|discriminate].
      - right. exists i'. split; [|done].
        eapply in_insert_keep; [eassumption|done|discriminate].
      - right. exists i'. split; [|done].
        eapply in_insert_keep; [eassumption|done|discriminate].
      - right. exists i'. split; [|done].
        eapply in_insert_keep; [eassumption|done|discriminate].
      - destruct (decide (WNbr u0 i' = WNbr u i)) as [[= -> ->]|Hne].
        + rewrite H0 in Hn0. injection Hn0 as <-.
          destruct (decide (i0 = i)) as [->|Hi].
          * rewrite H2 in Hv0. injection Hv0 as <-.
            left. right. left. simpl. apply elem_of_app. right. apply list_elem_of_here.
          * right. exists (S i). split; [|lia].
            simpl. apply list_elem_of_insert. by eapply lookup_lt_Some.
        + right. exists i'. split; [|done].
          eapply in_insert_keep; [eassumption|done|done].
      - destruct (decide (WNbr u0 i' = WNbr u i)) as [[= -> ->]|Hne].
        + rewrite H0 in Hn0. injection Hn0 as <-.
          destruct (decide (i0 = i)) as [->|Hi].
          * rewrite H2 in Hv0. injection Hv0 as <-.
            left. left. simpl. by eapply flag_done.
          * right. exists (S i). split; [|lia].
            simpl. apply list_elem_of_insert. by eapply lookup_lt_Some.
        + right. exists i'. split; [|done].
          eapply in_insert_keep; [eassumption|done|done].
      - destruct (decide (WNbr u0 i' = WNbr u i)) as [[= -> ->]|Hne].
        + rewrite H0 in Hn0. injection Hn0 as <-. lia.
        + right. exists i'. split; [|done].
          eapply in_insert_keep; [eassumption|done|done]. }
    destruct Hk; simpl in *; try (by apply Hold).
    destruct (decide (u0 = u)) as [->|Hne].
    + right. exists 0%nat. split; [|lia].
      apply list_elem_of_insert. by eapply lookup_lt_Some.
    + rewrite list_lookup_insert_ne in Hu0 by done. by apply Hold.
  - intros Hm.
    destruct (decide (2 ≤ amain a)%nat) as [Hge|Hlt].
    + eapply pending_step; [done|done|exact Hk|by apply Hseed].
    + destruct Hk; simpl in *; try lia.
      right. left. apply elem_of_app. right. apply list_elem_of_here.
Qed.

(** *** The tasks still to be enqueued *)

Lemma owed_start : owed (astart g n) = S (num_edges g).
Proof.
  unfold owed, energy, num_edges. simpl.
  assert (sum_list_with owed_worker (replicate n WDeq) = 0%nat) as ->.
  { induction n as [|k IH]; simpl; [done|]. destruct k; simpl in *; lia. }
  rewrite <- (wf_nodes g Hwf).
  rewrite (unvisited_sum_all (degree g) 0 (nodes g)); [lia|].
  intros i node Hi. simpl. by apply degree_eq.
Qed.

Ltac energy_insert :=
  match goal with
  | H : awk _ !! ?j = Some ?p |- context [sum_list_with ?c (<[?j:=?p']> _)] =>
      pose proof (sum_list_with_insert c _ j p p' H)
  end.

Ltac energy_facts :=
  repeat match goal with
         | H : aq _ = _ ++ [_] |- _ => rewrite H, length_app; simpl
         | H : avis _ !! ?u = Some NOT_VISITED
           |- context [unvisited_sum ?f 0 (<[?u:=DONE]> _)] =>
             rewrite (unvisited_sum_visit f 0 _ u H); simpl
         | H : nodes g !! ?u = Some _ |- _ => progress rewrite (degree_eq _ _ H) in *
         | H : amain _ = _ |- _ => progress rewrite H
         end.

Lemma owed_step a th a' : shape a → akind g a th a' → (owed a' ≤ owed a)%nat.
Proof.
  intros Hs Hk. unfold owed, energy.
  destruct Hk; simpl; try rewrite length_app; simpl; try energy_insert; simpl in *;
    energy_facts; simpl; lia.
Qed.

(** Before a task is enqueued, the queue is shorter than what is owed. *)
Lemma owed_room a th a' :
  akind g a th a' → (length (aq a) < length (aq a'))%nat → (length (aq a) < owed a)%nat.
Proof.
  intros Hk. unfold owed, energy.
  destruct Hk; simpl; try rewrite length_app; simpl; try lia.
  - rewrite H. simpl. lia.
  - rewrite H0, length_app. simpl. lia.
  - pose proof (sum_list_with_in _ owed_worker _ (list_elem_of_lookup_2 _ _ _ H)) as Hin.
    simpl in Hin. rewrite (degree_eq _ _ H0) in Hin. lia.
Qed.

(** *** The steps still to be taken *)

Lemma steps_left_step a th a' :
  shape a → akind g a th a' → (steps_left a' < steps_left a)%nat.
Proof.
  intros Hs Hk. unfold steps_left, energy.
  destruct Hk; simpl; try rewrite length_app; simpl; try energy_insert; simpl in *;
    energy_facts; simpl; lia.
Qed.

(** ** The machine and the heap-free state *)

Lemma step_eq th w p :
  thr w !! th = Some p →
  step n th w =
    match block_of n p (set_self th w) with
    | Ret p' w1 => Ret tt (set_thr (fun l => <[th:=p']> l) w1)
    | Exit w1 => Exit w1
    | Block => Block
    | Fault => Fault
    end.
Proof.
  intros Hp. unfold step. mstep (get_eq (fun w => thr w !! th) w). rewrite Hp.
  mstep (modify_eq (set_self th) w). unfold bind.
  destruct (block_of n p (set_self th w)); reflexivity.
Qed.

Lemma pc_for_ext w w' p ap :
  heap_ext (heap w) (heap w') → pc_for w p ap → pc_for w' p ap.
Proof.
  intros Hext. destruct p, ap; simpl; try done.
  - by apply task_for_ext.
  - intros (? & ? & ?). split; [done|]. split; [done|]. by eapply task_for_ext.
Qed.

Lemma Forall2_pc_for_ext w w' l k :
  heap_ext (heap w) (heap w') → Forall2 (pc_for w) l k → Forall2 (pc_for w') l k.
Proof.
  intros Hext HF. eapply Forall2_impl; [exact HF|].
  intros p ap. by apply pc_for_ext.
Qed.

Lemma Forall2_task_for_ext w w' l k :
  heap_ext (heap w) (heap w') → Forall2 (task_for w) l k → Forall2 (task_for w') l k.
Proof.
  intros Hext HF. eapply Forall2_impl; [exact HF|].
  intros p ap. by apply task_for_ext.
Qed.

Lemma heap_bound_payload (hp hp' : gmap Z obj) b :
  payload <$> hp' = payload <$> hp →
  (∀ x, is_Some (hp !! x) → x < b) → ∀ x, is_Some (hp' !! x) → x < b.
Proof.
  intros Hpay Hb x [o Hx]. apply Hb.
  pose proof (payload_lookup _ _ x Hpay) as H. rewrite Hx in H.
  destruct (hp !! x); [eauto|done].
Qed.

Lemma held_lt w wks ak t :
  Forall2 (pc_for w) wks ak → t ∈ held wks → is_Some (heap w !! t).
Proof.
  intros HF [p [Hp Ht]]%list_elem_of_omap.
  apply list_elem_of_lookup in Hp as [j Hj].
  destruct (Forall2_lookup_l _ _ _ _ _ HF Hj) as (ap & _ & Hpc).
  destruct p, ap; simpl in *; try done; injection Ht as <-.
  - destruct Hpc as (_ & _ & nd & ->). eauto.
  - destruct Hpc as (_ & _ & _ & _ & nd & ->). eauto.
Qed.

(** The tasks after [spawn]. *)
Lemma spawn_tasks u w th a m wks m' wks' awk' :
  rcs w = [] → mutex_queue (tp w) = None → heap_ok w →
  tasks_ok (m :: wks) w a →
  Z.of_nat (length (aq a)) < UINT_MAX →
  Forall2 (pc_for w) wks' awk' → held wks' = held wks →
  ∃ hd hp,
    spawn u (set_self th w) = Ret tt (spawned u hd hp (set_self th w)) ∧
    heap_ok (spawned u hd hp (set_self th w)) ∧
    tasks_ok (main_for m' :: wks') (spawned u hd hp (set_self th w))
      (AState (aq a ++ [u]) m' awk' (avis a) (asum a) (alock a) (alog a) (aout a)).
Proof.
  intros Hrcs Hmq [Hbrk Hheap] (wks0 & l & [= -> <-] & Hwks & Hinv & Hq & Hnd) Hlen Hwks' Hheld.
  assert (Hlt : num_tasks (tp (set_self th w)) < UINT_MAX).
  { destruct Hinv as (_ & _ & Hc & _). simpl. rewrite Hc.
    by rewrite (Forall2_length _ _ _ Hq). }
  destruct (spawn_eq u (set_self th w) l Hrcs Hmq
              ltac:(eapply queue_inv_frame; [| | |exact Hinv]; done)
              Hbrk Hheap Hlt)
    as (hd & hp & Hrun & Hpay & Hinv').
  exists hd, hp. split; [exact Hrun|].
  assert (Hext : heap_ext (heap w) hp).
  { eapply heap_ext_trans; [|by apply heap_ext_payload, Hpay].
    simpl. eapply heap_ext_trans; apply heap_ext_insert.
    - destruct (heap w !! brk w) eqn:E; [|done].
      pose proof (Hheap (brk w) ltac:(eauto)). lia.
    - rewrite lookup_insert_ne by lia.
      destruct (heap w !! (brk w + 1)) eqn:E; [|done].
      pose proof (Hheap (brk w + 1) ltac:(eauto)). lia. }
  split; [split|]; simpl.
  - lia.
  - intros x Hx. eapply heap_bound_payload in Hx; [| exact Hpay |]; [exact Hx|].
    simpl. intros y [o Hy].
    destruct (decide (y = brk w + 1)) as [->|Hne1]; [lia|].
    rewrite lookup_insert_ne in Hy by done.
    destruct (decide (y = brk w)) as [->|Hne2]; [lia|].
    rewrite lookup_insert_ne in Hy by done.
    pose proof (Hheap y ltac:(eauto)). lia.
  - exists wks', (l ++ [brk w + 1]). split; [done|].
    split; [by eapply Forall2_pc_for_ext; [|exact Hwks']|].
    split; [exact Hinv'|]. split.
    + apply Forall2_app; [by eapply Forall2_task_for_ext; [|exact Hq]|].
      constructor; [|constructor].
      eapply (task_for_keep hp (allocated u (set_self th w))); [reflexivity| |].
      * intros x o _ Hx. by apply (heap_ext_payload _ _ Hpay).
      * split; [simpl; lia|]. simpl. split.
        -- replace (brk w + 1 - 1) with (brk w) by lia.
           rewrite lookup_insert_ne by lia. by rewrite lookup_insert_eq.
        -- rewrite lookup_insert_eq. unfold new_task. simpl.
           replace (brk w + 1 - 1) with (brk w) by lia. eauto.
    + rewrite <- app_assoc. simpl. rewrite Hheld.
      apply NoDup_app in Hnd as (Hl & Hdis & Hh).
      apply NoDup_app. split; [done|]. split.
      * intros x Hx [->|Hx']%elem_of_cons; [|by eapply Hdis].
        destruct (queue_member_task _ _ _ Hinv Hx) as [tk Hk].
        pose proof (Hheap (brk w + 1) ltac:(eauto)). lia.
      * constructor; [|done]. intros Hin.
        pose proof (Hheap _ (held_lt _ _ _ _ Hwks Hin)). lia.
Qed.

Lemma task_for_same w w' t u : heap w' = heap w → task_for w t u → task_for w' t u.
Proof. intros H. unfold task_for. by rewrite H. Qed.

Lemma pc_for_same w w' p ap : heap w' = heap w → pc_for w p ap → pc_for w' p ap.
Proof.
  intros H. destruct p, ap; simpl; try done.
  - by apply task_for_same.
  - intros (? & ? & ?). split; [done|]. split; [done|]. by eapply task_for_same.
Qed.

Lemma tasks_ok_same T w w' a :
  heap w' = heap w → head (tp w') = head (tp w) → num_tasks (tp w') = num_tasks (tp w) →
  tasks_ok T w a → tasks_ok T w' a.
Proof.
  intros Hh Hd Hc (wks & l & HT & Hwks & Hinv & Hq & Hnd).
  exists wks, l. split; [done|]. split.
  { eapply Forall2_impl; [exact Hwks|]. intros p ap. by apply pc_for_same. }
  split.
  { eapply queue_inv_frame; [| | |exact Hinv]; try done. intros t _. by rewrite Hh. }
  split; [|done].
  eapply Forall2_impl; [exact Hq|]. intros p ap. by apply task_for_same.
Qed.

Lemma heap_ok_same w w' : heap w' = heap w → brk w' = brk w → heap_ok w → heap_ok w'.
Proof. intros Hh Hb [H1 H2]. split; rewrite Hb, ?Hh; done. Qed.

Lemma destroy_eq w t u :
  task_for w t u → destroy_task call_fn t w = Ret tt (destroyed t w).
Proof.
  intros (Ht & Ha & nd & Hk).
  rewrite (destroy_task_eq call_fn t w _ Hk) by (unfold NULL; lia). simpl.
  assert (Hf : call_fn free_function_fn (t - 1) (log (EvCall free_function_fn (t - 1)) w) =
               Ret tt (freed (t - 1) (log (EvCall free_function_fn (t - 1)) w))).
  { simpl. unfold free_function. apply free_eq; [unfold NULL; lia|]. simpl. eauto. }
  rewrite (bind_eq _ _ _ _ _ Hf). apply free_eq; [unfold NULL; lia|].
  simpl. rewrite lookup_delete_ne by lia. eauto.
Qed.

Lemma pc_for_task w p ap t : pc_for w p ap → held_of p = Some t → ∃ u, task_for w t u.
Proof.
  destruct p, ap; simpl; try done.
  - intros H [= <-]. eauto.
  - intros (_ & _ & H) [= <-]. eauto.
Qed.

(** The tasks after the task [t] of worker [j] is destroyed. *)
Lemma destroy_tasks_ok w a m wks j p t q :
  heap_ok w → tasks_ok (m :: wks) w a →
  wks !! j = Some p → held_of p = Some t →
  heap_ok (destroyed t w) ∧
  tasks_ok (m :: <[j:=PcDequeue]> wks) (destroyed t w)
    (AState (aq a) (amain a) (<[j:=WDeq]> (awk a)) (avis a) (asum a) q (alog a) (aout a)).
Proof.
  intros [Hbrk Hheap] (wks0 & l & [= -> <-] & Hwks & Hinv & Hq & Hnd) Hj Hp.
  destruct (Forall2_lookup_l _ _ _ _ _ Hwks Hj) as (ap & Hap & Hpc).
  destruct (pc_for_task _ _ _ _ Hpc Hp) as [u Ht].
  assert (Hperm : held wks ≡ₚ t :: held (<[j:=PcDequeue]> wks)).
  { by eapply held_insert_del. }
  rewrite Hperm in Hnd.
  assert (Hnd' : NoDup (t :: l ++ held (<[j:=PcDequeue]> wks))).
  { rewrite Permutation_middle. exact Hnd. }
  apply NoDup_cons in Hnd' as [Hnotin Hnd'].
  assert (Hkeep : ∀ t' u', t' ≠ t → task_for w t' u' → task_for (destroyed t w) t' u').
  { intros t' u' Hne Ht'. destruct (task_for_apart _ _ _ _ _ Ht Ht' ltac:(done)) as (? & ? & ?).
    eapply (task_for_keep (heap (destroyed t w)) w); [done| |done].
    intros x o Hx Ho. simpl. rewrite !lookup_delete_ne by (destruct Hx; lia).
    by rewrite Ho. }
  split; [split|].
  - done.
  - simpl. intros x [o Hx]. apply Hheap.
    destruct (decide (x = t)) as [->|?]; [by rewrite lookup_delete_eq in Hx|].
    rewrite lookup_delete_ne in Hx by done.
    destruct (decide (x = t - 1)) as [->|?]; [by rewrite lookup_delete_eq in Hx|].
    rewrite lookup_delete_ne in Hx by done. eauto.
  - exists (<[j:=PcDequeue]> wks), l. split; [done|]. simpl. split.
    { apply Forall2_lookup. intros k. destruct (decide (k = j)) as [->|Hne].
      - rewrite !list_lookup_insert_eq
          by (first [by eapply lookup_lt_Some]).
        by constructor.
      - rewrite !list_lookup_insert_ne by done.
        destruct (wks !! k) as [pk|] eqn:Hk.
        + destruct (Forall2_lookup_l _ _ _ _ _ Hwks Hk) as (apk & -> & Hpck).
          constructor. destruct pk, apk; simpl in *; try done.
          * apply Hkeep; [|done]. intros ->. apply Hnotin, elem_of_app. right.
            apply list_elem_of_omap. exists (PcAction t). split; [|done].
            apply list_elem_of_lookup. exists k. by rewrite list_lookup_insert_ne.
          * destruct Hpck as (? & ? & ?). split; [done|]. split; [done|].
            apply Hkeep; [|done]. intros ->. apply Hnotin, elem_of_app. right.
            apply list_elem_of_omap. exists (PcNbr t idx i). split; [|done].
            apply list_elem_of_lookup. exists k. by rewrite list_lookup_insert_ne.
        + assert (awk a !! k = None) as ->; [|constructor].
          apply lookup_ge_None. rewrite <- (Forall2_length _ _ _ Hwks).
          by apply lookup_ge_None. }
    split.
    { eapply queue_inv_frame; [| | |exact Hinv]; try done.
      intros x Hx. simpl.
      destruct (queue_member_task _ _ _ Hinv Hx) as [tk Hk].
      destruct Ht as (_ & Ha & _).
      assert (t ≠ x) by (intros <-; apply Hnotin, elem_of_app; by left).
      assert (t - 1 ≠ x) by (intros <-; congruence).
      by rewrite !lookup_delete_ne by done. }
    split; [|done].
    apply Forall2_lookup. intros k.
    destruct (l !! k) as [x|] eqn:Hk.
    + destruct (Forall2_lookup_l _ _ _ _ _ Hq Hk) as (ux & -> & Hx).
      constructor. apply Hkeep; [|done]. intros ->. apply Hnotin, elem_of_app. left.
      by eapply list_elem_of_lookup_2.
    + assert (aq a !! k = None) as ->; [|constructor].
      apply lookup_ge_None. rewrite <- (Forall2_length _ _ _ Hq).
      by apply lookup_ge_None.
Qed.

Lemma Forall2_insert_pc w wks ak j p ap :
  Forall2 (pc_for w) wks ak → pc_for w p ap →
  Forall2 (pc_for w) (<[j:=p]> wks) (<[j:=ap]> ak).
Proof. intros. by apply Forall2_insert. Qed.

(** The tasks after worker [j] has dequeued one. *)
Lemma pop_tasks w th a m wks j q x :
  rcs w = [] → mutex_queue (tp w) = None → heap_ok w →
  tasks_ok (m :: wks) w a →
  wks !! j = Some PcDequeue → aq a = q ++ [x] →
  ∃ t hd hp,
    dequeue_task (set_self th w) = Ret t (dequeued hd hp (set_self th w)) ∧
    t ≠ NULL ∧
    heap_ok (dequeued hd hp (set_self th w)) ∧
    tasks_ok (m :: <[j:=PcAction t]> wks) (dequeued hd hp (set_self th w))
      (AState q (amain a) (<[j:=WAct x]> (awk a)) (avis a) (asum a) (alock a)
              (alog a) (aout a)).
Proof.
  intros Hrcs Hmq [Hbrk Hheap] (wks0 & l & [= -> <-] & Hwks & Hinv & Hq & Hnd) Hj Haq.
  assert (Hinv0 : queue_inv (set_self th w) l).
  { eapply queue_inv_frame; [| | |exact Hinv]; done. }
  pose proof (dequeue_task_runs (set_self th w) l Hinv0 Hmq
                (quiet_nil 2 _ Hrcs)) as Hrun.
  rewrite Haq in Hq.
  apply Forall2_app_inv_r in Hq as (l' & lt & Hl' & Hlt & ->).
  apply Forall2_cons_inv_r in Hlt as (t & lt' & Ht & Hnil & ->).
  apply Forall2_nil_inv_r in Hnil as ->.
  destruct (l' ++ [t]) as [|y l0] eqn:El; [by destruct l'|]. rewrite <- El in *.
  destruct Hrun as (l2 & t2 & hd & hp & He & Hpay & Hrun & _).
  apply app_inj_tail in He as [<- <-].
  exists t, hd, hp. split; [exact Hrun|].
  destruct (dequeue_inv_step _ _ _ _ Hinv0 Hrun) as (_ & _ & [(_ & He & _)|(l3 & He & Hinv3 & _)]).
  { by destruct l'. }
  apply app_inj_tail in He as [<- _].
  assert (Hext : heap_ext (heap w) hp) by (by apply heap_ext_payload).
  split; [destruct Ht as (? & _); unfold NULL; lia|].
  split; [split; [done|]|].
  { simpl. by eapply heap_bound_payload. }
  exists (<[j:=PcAction t]> wks), l'. split; [done|]. simpl. split.
  { apply Forall2_insert_pc.
    - eapply Forall2_impl; [exact Hwks|]. intros p ap. by apply pc_for_ext.
    - simpl. by eapply (task_for_ext w). }
  split; [exact Hinv3|]. split.
  { eapply Forall2_impl; [exact Hl'|]. intros p ap. by apply task_for_ext. }
  rewrite (held_insert_add wks j PcDequeue (PcAction t) t Hj eq_refl eq_refl).
  rewrite <- Permutation_middle. rewrite <- app_assoc in Hnd. simpl in Hnd.
  rewrite <- Permutation_middle in Hnd. exact Hnd.
Qed.

(** An empty queue. *)
Lemma deq_empty w th a m wks :
  rcs w = [] → mutex_queue (tp w) = None →
  tasks_ok (m :: wks) w a → aq a = [] →
  dequeue_task (set_self th w) =
    if finished (tp w) then Ret NULL (unlocked MutexQueue (locked MutexQueue (set_self th w)))
    else Block.
Proof.
  intros Hrcs Hmq (wks0 & l & _ & _ & Hinv & Hq & _) Haq.
  rewrite Haq in Hq. apply Forall2_nil_inv_r in Hq as ->.
  assert (Hinv0 : queue_inv (set_self th w) []).
  { eapply queue_inv_frame; [| | |exact Hinv]; done. }
  pose proof (dequeue_task_runs (set_self th w) [] Hinv0 Hmq (quiet_nil 2 _ Hrcs)) as Hrun.
  simpl in Hrun. by destruct (finished (tp w)).
Qed.

Lemma tasks_ok_pc w a a' m wks j p p' ap' :
  tasks_ok (m :: wks) w a →
  wks !! j = Some p → pc_for w p' ap' → held_of p' = held_of p →
  amain a' = amain a → aq a' = aq a → awk a' = <[j:=ap']> (awk a) →
  tasks_ok (m :: <[j:=p']> wks) w a'.
Proof.
  intros (wks0 & l & [= -> <-] & Hwks & Hinv & Hq & Hnd) Hj Hpc Hheld Hm Haq Hawk.
  exists (<[j:=p']> wks), l. rewrite Hm, Haq, Hawk.
  split; [done|]. split; [by apply Forall2_insert_pc|].
  split; [done|]. split; [done|].
  by rewrite (held_insert_same _ _ _ _ Hj Hheld).
Qed.

Lemma worker_pc w a j ap :
  sim w a → awk a !! j = Some ap →
  ∃ wks p, thr w = main_for (amain a) :: wks ∧ wks !! j = Some p ∧ pc_for w p ap ∧
           tasks_ok (main_for (amain a) :: wks) w a.
Proof.
  intros Hsim Hj. pose proof (sm_tasks _ _ _ Hsim) as Ht.
  destruct Ht as (wks & l & Hthr & Hwks & Hrest).
  destruct (Forall2_lookup_r _ _ _ _ _ Hwks Hj) as (p & Hp & Hpc).
  exists wks, p. repeat split; try done. rewrite <- Hthr. apply (sm_tasks _ _ _ Hsim).
Qed.

Lemma queue_bound a :
  (owed a ≤ S (num_edges g))%nat → Z.of_nat (num_edges g) < UINT_MAX →
  (length (aq a) < owed a)%nat → Z.of_nat (length (aq a)) < UINT_MAX.
Proof. unfold UINT_MAX. lia. Qed.

Lemma sim_seed w a :
  sim w a → (owed a ≤ S (num_edges g))%nat → Z.of_nat (num_edges g) < UINT_MAX →
  amain a = 1%nat →
  ∃ w', step n 0 w = Ret tt w' ∧ sim w' (a_main 2 (a_q (aq a ++ [0%nat]) a)).
Proof.
  intros Hsim Howed Hedges Hm.
  pose proof (sm_tasks _ _ _ Hsim) as Htasks.
  destruct Htasks as (wks & l & Hthr & Htasks).
  assert (Hlen : Z.of_nat (length (aq a)) < UINT_MAX).
  { apply queue_bound; [done|done|].
    apply (owed_room a 0 _ (k_seed g a Hm)). simpl. rewrite length_app. simpl. lia. }
  destruct (spawn_tasks 0 w 0 a (main_for (amain a)) wks 2 wks (awk a)
              (sm_rcs _ _ _ Hsim) (sm_mq _ _ _ Hsim) (sm_heap _ _ _ Hsim)
              ltac:(by exists wks, l) Hlen (proj1 Htasks) eq_refl)
    as (hd & hp & Hrun & Hheap' & Htasks').
  rewrite Hm in Hthr. change (main_for 1) with (PcMain 1) in Hthr.
  eexists. split.
  { rewrite (step_eq 0 w (PcMain 1)) by (by rewrite Hthr).
    simpl block_of. rewrite main_seed_spawn.
    rewrite (bind_eq _ _ _ _ _ Hrun). reflexivity. }
  unfold sim. simpl thr. rewrite Hthr. simpl.
  split; simpl; try exact Hheap'; try exact Htasks'.
  - by rewrite (sm_rcs _ _ _ Hsim).
  - reflexivity.
  - exact (sm_nthreads _ _ _ Hsim).
  - exact (sm_threads _ _ _ Hsim).
  - rewrite (sm_fin _ _ _ Hsim), Hm. reflexivity.
  - exact (sm_nodes _ _ _ Hsim).
  - exact (sm_num_nodes _ _ _ Hsim).
  - exact (sm_vis _ _ _ Hsim).
  - exact (sm_sum _ _ _ Hsim).
  - exact (sm_lock _ _ _ Hsim).
  - exact (sm_out _ _ _ Hsim).
  - exact (sm_log _ _ _ Hsim).
  - rewrite (sm_order _ _ _ Hsim). reflexivity.
  - intros i. case_bool_decide; [done|]. apply (sm_free _ _ _ Hsim).
Qed.

Ltac keep Hsim :=
  first [ exact (sm_nthreads _ _ _ Hsim) | exact (sm_threads _ _ _ Hsim)
        | exact (sm_nodes _ _ _ Hsim) | exact (sm_num_nodes _ _ _ Hsim)
        | exact (sm_vis _ _ _ Hsim) | exact (sm_sum _ _ _ Hsim)
        | exact (sm_lock _ _ _ Hsim) | exact (sm_out _ _ _ Hsim)
        | exact (sm_log _ _ _ Hsim) | exact (sm_fin _ _ _ Hsim)
        | exact (sm_mq _ _ _ Hsim) | reflexivity
        | (by rewrite (sm_rcs _ _ _ Hsim))
        | (by rewrite (sm_order _ _ _ Hsim))
        | (by intros ?; repeat case_bool_decide; try done;
              try (by intuition discriminate);
              apply (sm_free _ _ _ Hsim)) ].

Lemma sim_pop w a j q x :
  sim w a → awk a !! j = Some WDeq → aq a = q ++ [x] →
  ∃ w', step n (S j) w = Ret tt w' ∧ sim w' (a_wk j (WAct x) (a_q q a)).
Proof.
  intros Hsim Hj Haq.
  destruct (worker_pc _ _ _ _ Hsim Hj) as (wks & p & Hthr & Hp & Hpc & Htasks).
  destruct p; try done.
  destruct (pop_tasks w (S j) a _ wks j q x (sm_rcs _ _ _ Hsim) (sm_mq _ _ _ Hsim)
              (sm_heap _ _ _ Hsim) Htasks Hp Haq)
    as (t & hd & hp & Hrun & Hnn & Hheap' & Htasks').
  eexists. split.
  { rewrite (step_eq (S j) w PcDequeue) by (by rewrite Hthr).
    simpl block_of. rewrite (bind_eq _ _ _ _ _ Hrun).
    rewrite bool_decide_eq_false_2 by done. reflexivity. }
  unfold sim. simpl thr. rewrite Hthr. simpl.
  split; simpl; try exact Hheap'; try exact Htasks'; keep Hsim.
Qed.

Lemma sim_exit w a j :
  sim w a → awk a !! j = Some WDeq → aq a = [] → (3 ≤ amain a)%nat →
  ∃ w', step n (S j) w = Ret tt w' ∧ sim w' (a_wk j WExit a).
Proof.
  intros Hsim Hj Haq Hm.
  destruct (worker_pc _ _ _ _ Hsim Hj) as (wks & p & Hthr & Hp & Hpc & Htasks).
  destruct p; try done.
  pose proof (deq_empty w (S j) a _ wks (sm_rcs _ _ _ Hsim) (sm_mq _ _ _ Hsim)
                Htasks Haq) as Hrun.
  rewrite (sm_fin _ _ _ Hsim), bool_decide_eq_true_2 in Hrun by done.
  eexists. split.
  { rewrite (step_eq (S j) w PcDequeue) by (by rewrite Hthr).
    simpl block_of. rewrite (bind_eq _ _ _ _ _ Hrun).
    rewrite bool_decide_eq_true_2 by done. reflexivity. }
  unfold sim. simpl thr. rewrite Hthr. simpl.
  split; simpl; try keep Hsim.
  - exact (heap_ok_same w _ eq_refl eq_refl (sm_heap _ _ _ Hsim)).
  - eapply (tasks_ok_same _ w); [done|done|done|].
    exact (tasks_ok_pc w a (a_wk j WExit a) _ wks j PcDequeue PcExited WExit
             Htasks Hp I eq_refl eq_refl eq_refl eq_refl).
Qed.

Lemma sim_visit w a j u node :
  sim w a → awk a !! j = Some (WAct u) → alock a = None →
  avis a !! u = Some NOT_VISITED → nodes g !! u = Some node →
  ∃ w', step n (S j) w = Ret tt w' ∧
        sim w' (a_wk j (WNbr u 0) (a_lock (Some j) (a_visit g u a))).
Proof.
  intros Hsim Hj Hlock Hvis Hnode.
  destruct (worker_pc _ _ _ _ Hsim Hj) as (wks & p & Hthr & Hp & Hpc & Htasks).
  destruct p as [| |t| |]; try done. simpl in Hpc.
  pose proof Hpc as (Ht1 & Harg & nd & Htk).
  set (w1 := log (EvCall process_node_fn (t - 1)) (set_self (S j) w)).
  assert (process_node_enter (t - 1) w1 =
          Ret (Some u) (visit u node (locked MutexGraph w1))) as Hrun.
  { rewrite (process_node_enter_eq _ _ u NOT_VISITED).
    - rewrite decide_True by (unfold rc0; simpl; by rewrite (sm_rcs _ _ _ Hsim)).
      simpl owner. rewrite (sm_lock _ _ _ Hsim), Hlock. simpl.
      by rewrite (sm_nodes _ _ _ Hsim), Hnode.
    - exact Harg.
    - change (visited (graph w1)) with (visited (graph w)).
      by rewrite (sm_vis _ _ _ Hsim). }
  eexists. split.
  { rewrite (step_eq (S j) w (PcAction t)) by (by rewrite Hthr).
    simpl block_of.
    rewrite (bind_eq _ _ _ _ _ (load_task_eq t (set_self (S j) w) _ Htk)).
    cbn [action argument].
    unfold emit. mstep (modify_eq (log (EvCall process_node_fn (t - 1))) (set_self (S j) w)).
    fold w1. rewrite (bind_eq _ _ _ _ _ Hrun). reflexivity. }
  unfold sim. simpl thr. rewrite Hthr. simpl.
  split; simpl; try keep Hsim.
  - by rewrite (sm_vis _ _ _ Hsim).
  - rewrite (sm_sum _ _ _ Hsim). unfold info_of. by rewrite Hnode.
  - by rewrite (sm_log _ _ _ Hsim).
  - exact (heap_ok_same w _ eq_refl eq_refl (sm_heap _ _ _ Hsim)).
  - eapply (tasks_ok_same _ w); [done|done|done|].
    exact (tasks_ok_pc w a (a_wk j (WNbr u 0) (a_lock (Some j) (a_visit g u a))) _ wks j
             (PcAction t) (PcNbr t u 0) (WNbr u 0)
             Htasks Hp (conj eq_refl (conj eq_refl Hpc)) eq_refl eq_refl eq_refl eq_refl).
  - rewrite (sm_order _ _ _ Hsim), (sm_free _ _ _ Hsim). reflexivity.
Qed.

Lemma load_graph_node_eq w a u node :
  sim w a → nodes g !! u = Some node → ∀ th, load_graph_node u (set_self th w) = Ret node (set_self th w).
Proof.
  intros Hsim Hnode th. unfold load_graph_node. simpl.
  by rewrite (sm_nodes _ _ _ Hsim), Hnode.
Qed.

(** The end of [process_node] and of the loop body: the graph mutex is
    released and the task destroyed. *)
Lemma leave_eq w a j wks p t u (w1 : world) :
  sim w a → thr w = main_for (amain a) :: wks → wks !! j = Some p →
  held_of p = Some t → task_for w t u →
  tasks_ok (main_for (amain a) :: wks) w a →
  rcs w1 = [] → self w1 = S j → mutex_graph w1 = Some (S j) →
  heap w1 = heap w → brk w1 = brk w → tp w1 = tp w →
  ∃ w2, (process_node_leave ;;; destroy_task call_fn t ;;; ret PcDequeue) w1 =
          Ret PcDequeue w2 ∧
        w2 = destroyed t (unlocked MutexGraph w1) ∧
        heap_ok w2 ∧
        tasks_ok (main_for (amain a) :: <[j:=PcDequeue]> wks) w2
          (a_wk j WDeq (a_lock None a)).
Proof.
  intros Hsim Hthr Hp Hheld Htask Htasks Hrcs Hself Hmg Hheap Hbrk Htp.
  set (w2 := unlocked MutexGraph w1).
  assert (process_node_leave w1 = Ret tt w2) as Hrun.
  { unfold process_node_leave. rewrite unlock_die_end.
    rewrite decide_True by (unfold rc0; by rewrite Hrcs).
    rewrite decide_True; [done|]. simpl. by rewrite Hmg, Hself. }
  assert (task_for w2 t u) as Htask2 by (by apply (task_for_same w)).
  assert (heap_ok w2) as Hheap2 by (by apply (heap_ok_same w); [|done|apply (sm_heap _ _ _ Hsim)]).
  assert (tasks_ok (main_for (amain a) :: wks) w2 a) as Htasks2.
  { apply (tasks_ok_same _ w); [done| |  |done]; simpl; by rewrite Htp. }
  exists (destroyed t w2). split; [|split; [done|]].
  { rewrite (bind_eq _ _ _ _ _ Hrun).
    by rewrite (bind_eq _ _ _ _ _ (destroy_eq _ _ _ Htask2)). }
  exact (destroy_tasks_ok w2 a _ wks j p t None Hheap2 Htasks2 Hp Hheld).
Qed.

Lemma sim_skip w a j u s :
  sim w a → awk a !! j = Some (WAct u) → alock a = None →
  avis a !! u = Some s → s ≠ NOT_VISITED →
  ∃ w', step n (S j) w = Ret tt w' ∧ sim w' (a_wk j WDeq a).
Proof.
  intros Hsim Hj Hlock Hvis Hs.
  destruct (worker_pc _ _ _ _ Hsim Hj) as (wks & p & Hthr & Hp & Hpc & Htasks).
  destruct p as [| |t| |]; try done. simpl in Hpc.
  pose proof Hpc as (Ht1 & Harg & nd & Htk).
  set (w1 := log (EvCall process_node_fn (t - 1)) (set_self (S j) w)).
  assert (process_node_enter (t - 1) w1 = Ret None (locked MutexGraph w1)) as Hrun.
  { rewrite (process_node_enter_eq _ _ u s).
    - rewrite decide_True by (unfold rc0; simpl; by rewrite (sm_rcs _ _ _ Hsim)).
      simpl owner. rewrite (sm_lock _ _ _ Hsim), Hlock. simpl.
      by rewrite decide_False.
    - exact Harg.
    - change (visited (graph w1)) with (visited (graph w)).
      by rewrite (sm_vis _ _ _ Hsim). }
  destruct (leave_eq w a j wks (PcAction t) t u (locked MutexGraph w1)
              Hsim Hthr Hp eq_refl Hpc Htasks) as (w2 & Hrun2 & -> & Hheap2 & Htasks2);
    try done.
  { simpl. by rewrite (sm_rcs _ _ _ Hsim). }
  eexists. split.
  { rewrite (step_eq (S j) w (PcAction t)) by (by rewrite Hthr).
    simpl block_of.
    rewrite (bind_eq _ _ _ _ _ (load_task_eq t (set_self (S j) w) _ Htk)).
    cbn [action argument].
    unfold emit. mstep (modify_eq (log (EvCall process_node_fn (t - 1))) (set_self (S j) w)).
    fold w1. rewrite (bind_eq _ _ _ _ _ Hrun). rewrite Hrun2. reflexivity. }
  unfold sim. simpl thr. rewrite Hthr. simpl.
  rewrite <- Hlock in Htasks2.
  split; simpl; try exact Hheap2; try exact Htasks2; try keep Hsim.
  - by rewrite Hlock.
  - rewrite (sm_order _ _ _ Hsim), (sm_free _ _ _ Hsim). reflexivity.
Qed.

Lemma sim_leave w a j u i node :
  sim w a → awk a !! j = Some (WNbr u i) → alock a = Some j →
  nodes g !! u = Some node → ¬ (i < num_neighbours node)%nat →
  ∃ w', step n (S j) w = Ret tt w' ∧ sim w' (a_wk j WDeq (a_lock None a)).
Proof.
  intros Hsim Hj Hlock Hnode Hi.
  destruct (worker_pc _ _ _ _ Hsim Hj) as (wks & p & Hthr & Hp & Hpc & Htasks).
  destruct p as [| | |t u' i'|]; try done. simpl in Hpc.
  destruct Hpc as (-> & -> & Hpc).
  destruct (leave_eq w a j wks (PcNbr t u i) t u (set_self (S j) w)
              Hsim Hthr Hp eq_refl Hpc Htasks) as (w2 & Hrun2 & -> & Hheap2 & Htasks2);
    try done.
  { apply (sm_rcs _ _ _ Hsim). }
  { simpl. by rewrite (sm_lock _ _ _ Hsim), Hlock. }
  eexists. split.
  { rewrite (step_eq (S j) w (PcNbr t u i)) by (by rewrite Hthr).
    simpl block_of.
    rewrite (bind_eq _ _ _ _ _ (load_graph_node_eq w a u node Hsim Hnode (S j))).
    rewrite bool_decide_eq_false_2 by done. rewrite Hrun2. reflexivity. }
  unfold sim. simpl thr. rewrite Hthr. simpl.
  split; simpl; try exact Hheap2; try exact Htasks2; try keep Hsim.
Qed.

Lemma process_node_neighbour_eq node i w :
  process_node_neighbour node i w =
    match neighbours node !! i with
    | Some v =>
        match visited (graph w) !! v with
        | Some s => if bool_decide (s = NOT_VISITED) then spawn v w else Ret tt w
        | None => Fault
        end
    | None => Fault
    end.
Proof.
  unfold process_node_neighbour, load_neighbour.
  destruct (neighbours node !! i) as [v|]; [|done].
  unfold bind at 1. unfold ret at 1. unfold bind at 1. unfold load_visited at 1.
  destruct (visited (graph w) !! v) as [s|]; [|done].
  by case_bool_decide.
Qed.

Lemma sim_pass w a j u i node v s :
  sim w a → awk a !! j = Some (WNbr u i) → nodes g !! u = Some node →
  (i < num_neighbours node)%nat → neighbours node !! i = Some v →
  avis a !! v = Some s → s ≠ NOT_VISITED →
  ∃ w', step n (S j) w = Ret tt w' ∧ sim w' (a_wk j (WNbr u (S i)) a).
Proof.
  intros Hsim Hj Hnode Hi Hv Hvis Hs.
  destruct (worker_pc _ _ _ _ Hsim Hj) as (wks & p & Hthr & Hp & Hpc & Htasks).
  destruct p as [| | |t u' i'|]; try done. simpl in Hpc.
  destruct Hpc as (-> & -> & Hpc).
  eexists. split.
  { rewrite (step_eq (S j) w (PcNbr t u i)) by (by rewrite Hthr).
    simpl block_of.
    rewrite (bind_eq _ _ _ _ _ (load_graph_node_eq w a u node Hsim Hnode (S j))).
    rewrite bool_decide_eq_true_2 by done.
    assert (process_node_neighbour node i (set_self (S j) w) = Ret tt (set_self (S j) w))
      as Hrun.
    { rewrite process_node_neighbour_eq, Hv. simpl.
      rewrite (sm_vis _ _ _ Hsim), Hvis. by rewrite bool_decide_eq_false_2. }
    rewrite (bind_eq _ _ _ _ _ Hrun). reflexivity. }
  unfold sim. simpl thr. rewrite Hthr. simpl.
  split; simpl; try keep Hsim.
  - exact (heap_ok_same w _ eq_refl eq_refl (sm_heap _ _ _ Hsim)).
  - eapply (tasks_ok_same _ w); [done|done|done|].
    exact (tasks_ok_pc w a (a_wk j (WNbr u (S i)) a) _ wks j
             (PcNbr t u i) (PcNbr t u (S i)) (WNbr u (S i))
             Htasks Hp (conj eq_refl (conj eq_refl Hpc)) eq_refl eq_refl eq_refl eq_refl).
Qed.

Lemma sim_push w a j u i node v :
  sim w a → Z.of_nat (length (aq a)) < UINT_MAX →
  awk a !! j = Some (WNbr u i) → nodes g !! u = Some node →
  (i < num_neighbours node)%nat → neighbours node !! i = Some v →
  avis a !! v = Some NOT_VISITED →
  ∃ w', step n (S j) w = Ret tt w' ∧
        sim w' (a_wk j (WNbr u (S i)) (a_q (aq a ++ [v]) a)).
Proof.
  intros Hsim Hlen Hj Hnode Hi Hv Hvis.
  destruct (worker_pc _ _ _ _ Hsim Hj) as (wks & p & Hthr & Hp & Hpc & Htasks).
  destruct p as [| | |t u' i'|]; try done. simpl in Hpc.
  destruct Hpc as (-> & -> & Hpc).
  pose proof Htasks as (wks0 & l & [= <-] & Hwks & _).
  destruct (spawn_tasks v w (S j) a _ wks (amain a) (<[j:=PcNbr t u (S i)]> wks)
              (<[j:=WNbr u (S i)]> (awk a))
              (sm_rcs _ _ _ Hsim) (sm_mq _ _ _ Hsim) (sm_heap _ _ _ Hsim) Htasks Hlen)
    as (hd & hp & Hrun & Hheap' & Htasks').
  { by apply Forall2_insert_pc. }
  { by apply (held_insert_same _ _ _ _ Hp). }
  eexists. split.
  { rewrite (step_eq (S j) w (PcNbr t u i)) by (by rewrite Hthr).
    simpl block_of.
    rewrite (bind_eq _ _ _ _ _ (load_graph_node_eq w a u node Hsim Hnode (S j))).
    rewrite bool_decide_eq_true_2 by done.
    assert (process_node_neighbour node i (set_self (S j) w) =
            Ret tt (spawned v hd hp (set_self (S j) w))) as Hrun'.
    { rewrite process_node_neighbour_eq, Hv. simpl.
      rewrite (sm_vis _ _ _ Hsim), Hvis. by rewrite bool_decide_eq_true_2. }
    rewrite (bind_eq _ _ _ _ _ Hrun'). reflexivity. }
  unfold sim. simpl thr. rewrite Hthr. simpl.
  split; simpl; try exact Hheap'; try exact Htasks'; try keep Hsim.
Qed.

Lemma tasks_ok_main w a a' m wks :
  tasks_ok (m :: wks) w a → aq a' = aq a → awk a' = awk a →
  tasks_ok (main_for (amain a') :: wks) w a'.
Proof.
  intros (wks0 & l & [= -> <-] & Hwks & Hinv & Hq & Hnd) Haq Hawk.
  exists wks, l. by rewrite Haq, Hawk.
Qed.

Lemma signal_eq w :
  rcs w = [] → mutex_queue (tp w) = None →
  wait_for_completion_signal w = Ret tt (signalled w).
Proof.
  intros Hrcs Hmq. unfold wait_for_completion_signal.
  rewrite lock_die. rewrite decide_True by (unfold rc0; by rewrite Hrcs).
  simpl owner. rewrite Hmq.
  mstep (modify_eq (set_tp (set_finished true)) (locked MutexQueue w)).
  rewrite broadcast_die.
  rewrite decide_True by (unfold rc0; simpl; by rewrite Hrcs).
  set (w3 := called c_cond_broadcast _).
  assert (pthread_mutex_unlock MutexQueue w3 = Ret 0 (unlocked MutexQueue w3)) as Hu.
  { apply unlock_ok; [|done]. unfold rc0; simpl; by rewrite Hrcs. }
  by rewrite (bind_eq _ _ _ _ _ Hu).
Qed.

Lemma sim_fin w a :
  sim w a → amain a = 2%nat →
  ∃ w', step n 0 w = Ret tt w' ∧ sim w' (a_main 3 a).
Proof.
  intros Hsim Hm.
  pose proof (sm_tasks _ _ _ Hsim) as Htasks.
  pose proof Htasks as (wks & l & Hthr & _).
  rewrite Hthr in Htasks. rewrite Hm in Hthr.
  eexists. split.
  { rewrite (step_eq 0 w (PcMain 2)) by (by rewrite Hthr).
    simpl block_of.
    rewrite (bind_eq _ _ _ _ _ (signal_eq (set_self 0 w) (sm_rcs _ _ _ Hsim)
                                  (sm_mq _ _ _ Hsim))).
    reflexivity. }
  unfold sim. simpl thr. rewrite Hthr. simpl.
  split; simpl; try keep Hsim.
  - exact (heap_ok_same w _ eq_refl eq_refl (sm_heap _ _ _ Hsim)).
  - eapply (tasks_ok_same _ w); [done|done|done|].
    exact (tasks_ok_main w a (a_main 3 a) _ wks Htasks eq_refl eq_refl).
Qed.

Lemma joined_same k lo w :
  heap (joined k lo w) = heap w ∧ brk (joined k lo w) = brk w ∧
  tp (joined k lo w) = tp w ∧ graph (joined k lo w) = graph w ∧
  sum (joined k lo w) = sum w ∧ mutex_graph (joined k lo w) = mutex_graph w ∧
  thr (joined k lo w) = thr w ∧ self (joined k lo w) = self w ∧
  out (joined k lo w) = out w ∧ (rcs w = [] → rcs (joined k lo w) = []) ∧
  stores (trace (joined k lo w)) = stores (trace w) ∧
  graph_inside_queue (trace (joined k lo w)) = graph_inside_queue (trace w) ∧
  ∀ i, holds i MutexQueue (trace (joined k lo w)) = holds i MutexQueue (trace w).
Proof.
  revert lo w. induction k as [|k IH]; intros lo w; simpl.
  { repeat split; done. }
  destruct (IH (S lo) (called (c_join (Some (S lo))) w))
    as (-> & -> & -> & -> & -> & -> & -> & -> & -> & Hr & -> & -> & Hh).
  repeat split; try done.
  - intros Hw. apply Hr. simpl. by rewrite Hw.
  - simpl. apply orb_false_r.
Qed.

Local Abbreviation join_body := (fun i : nat =>
  let* h := get (fun w => threads (tp w) !! i) in
  match h with
  | Some h =>
      let* rc := pthread_join h in
      DIE (bool_decide (rc ≠ 0)) "pthread_join"
  | None => fault
  end).

Lemma join_one lo w :
  rcs w = [] → threads (tp w) !! lo = Some (Some (S lo)) →
  thr w !! S lo = Some PcExited →
  join_body lo w = Ret tt (called (c_join (Some (S lo))) w).
Proof.
  intros Hrcs Hh Hthr. cbv beta.
  mstep (get_eq (fun w => threads (tp w) !! lo) w). rewrite Hh.
  assert (pthread_join (Some (S lo)) w = Ret 0 (called (c_join (Some (S lo))) w)) as Hj.
  { unfold pthread_join, bind, next_rc, get, lib, ret, called, used, rc0.
    rewrite Hrcs. simpl. unfold set_rcs. cbn. by rewrite Hthr. }
  by rewrite (bind_eq _ _ _ _ _ Hj).
Qed.

Lemma join_eq k lo w :
  rcs w = [] →
  (∀ i, (lo ≤ i < lo + k)%nat →
        thr w !! S i = Some PcExited ∧ threads (tp w) !! i = Some (Some (S i))) →
  for_from k lo join_body w = Ret tt (joined k lo w).
Proof.
  revert lo w. induction k as [|k IH]; intros lo w Hrcs Hall; [done|].
  destruct (Hall lo ltac:(lia)) as [Hthr Hh].
  simpl for_from.
  rewrite (bind_eq _ _ _ _ _ (join_one lo w Hrcs Hh Hthr)). apply IH.
  - simpl. by rewrite Hrcs.
  - intros i Hi. apply Hall. lia.
Qed.

Lemma main_finish_eq w : queue_is w [] → main_finish w = Ret tt (printed w).
Proof.
  intros [(h & h' & Hh & Hnx & _) _]. simpl in Hh. injection Hh as <-.
  unfold main_finish, destroy_threadpool.
  set (w1 := called (c_mutex_destroy MutexQueue) w).
  set (w2 := called c_cond_destroy w1).
  assert (pthread_mutex_destroy MutexQueue w = Ret (rc0 w) w1) as H1 by done.
  assert (pthread_cond_destroy w1 = Ret (rc0 w1) w2) as H2 by done.
  unfold bind at 1. unfold bind at 1. rewrite H1.
  unfold bind at 1. rewrite H2.
  assert (node_at w2 LHead = Some (head (tp w))) as Hhd by done.
  rewrite (bind_eq _ _ _ _ _ (load_node_eq _ _ _ Hhd)). rewrite Hnx.
  rewrite (bind_eq _ _ _ _ _ (load_node_eq _ _ _ Hhd)).
  mstep (get_eq (fun w => size (heap w)) w2).
  assert (destroy_tasks call_fn (size (heap w2)) LHead (next (head (tp w))) w2 = Ret tt w2)
    as Hd.
  { by destruct (size (heap w2)). }
  unfold bind at 1. rewrite Hd. reflexivity.
Qed.

Lemma sim_join w a :
  sim w a → shape a → amain a = 3%nat → workers_done a = true →
  ∃ w', step n 0 w = Ret tt w' ∧ sim w' (a_main 4 (a_print a)).
Proof.
  intros Hsim Hs Hm Hdone.
  pose proof (sm_tasks _ _ _ Hsim) as Htasks.
  pose proof Htasks as (wks & l & Hthr & Hwks & Hinv & Hq & Hnd).
  rewrite Hthr in Htasks. rewrite Hm in Hthr.
  rewrite (sh_drained _ Hs Hdone) in Hq. apply Forall2_nil_inv_r in Hq as ->.
  set (w0 := set_self 0 w).
  assert (wait_for_completion_join w0 = Ret tt (joined n 0 w0)) as Hrun.
  { unfold wait_for_completion_join.
    mstep (get_eq (fun w => num_threads (tp w)) w0). simpl.
    rewrite (sm_nthreads _ _ _ Hsim). apply join_eq; [apply (sm_rcs _ _ _ Hsim)|].
    intros i Hi. simpl. rewrite Hthr. simpl. split.
    - assert (is_Some (awk a !! i)) as [ap Hap].
      { apply lookup_lt_is_Some. rewrite (sh_len _ Hs). lia. }
      destruct (Forall2_lookup_r _ _ _ _ _ Hwks Hap) as (p & Hp & Hpc).
      rewrite Hp. rewrite (done_all _ _ _ Hdone Hap) in Hpc. by destruct p.
    - rewrite (sm_threads _ _ _ Hsim), list_lookup_fmap.
      rewrite lookup_seq_lt by lia. done. }
  destruct (joined_same n 0 w0)
    as (Hjh & Hjb & Hjt & Hjg & Hjs & Hjm & Hjthr & Hjself & Hjo & Hjr & Hjst & Hjgq & Hjho).
  assert (queue_is (joined n 0 w0) []) as Hqi.
  { destruct Hinv as [[Hc Hnd'] _]. split; [|done].
    eapply chain_ext; [|exact Hc]. intros [|t]; simpl; by rewrite ?Hjt, ?Hjh. }
  eexists. split.
  { rewrite (step_eq 0 w (PcMain 3)) by (by rewrite Hthr).
    simpl block_of. fold w0. rewrite (bind_eq _ _ _ _ _ Hrun).
    rewrite (bind_eq _ _ _ _ _ (main_finish_eq _ Hqi)). reflexivity. }
  unfold sim. simpl thr. rewrite Hjthr. simpl thr. rewrite Hthr. simpl.
  split; simpl; rewrite ?Hjh, ?Hjb, ?Hjt, ?Hjg, ?Hjs, ?Hjm, ?Hjo, ?Hjst, ?Hjgq;
    simpl; try keep Hsim.
  - by rewrite (Hjr (sm_rcs _ _ _ Hsim)).
  - by rewrite (sm_fin _ _ _ Hsim), Hm.
  - by rewrite (sm_out _ _ _ Hsim), (sm_sum _ _ _ Hsim).
  - apply (heap_ok_same w); [exact Hjh|exact Hjb|apply (sm_heap _ _ _ Hsim)].
  - eapply (tasks_ok_same _ w); [exact Hjh|simpl; by rewrite Hjt|simpl; by rewrite Hjt|].
    exact (tasks_ok_main w a (a_main 4 (a_print a)) _ wks Htasks eq_refl eq_refl).
  - intros i. rewrite Hjho. apply (sm_free _ _ _ Hsim).
Qed.

(** Every step of the heap-free state is a block of the machine. *)
Lemma sim_step w a th a' :
  sim w a → shape a → (owed a ≤ S (num_edges g))%nat →
  Z.of_nat (num_edges g) < UINT_MAX → akind g a th a' →
  ∃ w', step n th w = Ret tt w' ∧ sim w' a'.
Proof.
  intros Hsim Hs Howed Hedges Hk.
  assert (Hroom : (length (aq a) < length (aq a'))%nat → Z.of_nat (length (aq a)) < UINT_MAX).
  { intros Hlt. apply queue_bound; [done|done|]. by eapply owed_room. }
  assert (Hnodes : ∀ j u, awk a !! j = Some (WAct u) → is_Some (nodes g !! u)).
  { intros j u Hj. apply lookup_lt_is_Some. rewrite (wf_nodes g Hwf).
    exact (Forall_lookup_1 _ _ _ _ (sh_pcs _ Hs) Hj). }
  destruct Hk.
  - by apply sim_seed.
  - by apply sim_fin.
  - by apply sim_join.
  - by apply sim_pop.
  - by apply sim_exit.
  - destruct (Hnodes _ _ H) as [node Hnode]. by eapply sim_visit.
  - by eapply sim_skip.
  - eapply sim_push; try eassumption. apply Hroom. simpl. rewrite length_app. simpl. lia.
  - by eapply sim_pass.
  - eapply sim_leave; try eassumption. apply (sh_lock _ Hs). eauto.
Qed.

(** A join of a worker that has not left its function suspends [main]. *)
Lemma join_block k lo w :
  rcs w = [] →
  (∀ i, (lo ≤ i < lo + k)%nat →
        threads (tp w) !! i = Some (Some (S i)) ∧ is_Some (thr w !! S i)) →
  (∃ i p, (lo ≤ i < lo + k)%nat ∧ thr w !! S i = Some p ∧ p ≠ PcExited) →
  for_from k lo join_body w = Block.
Proof.
  revert lo w. induction k as [|k IH]; intros lo w Hrcs Hall (i & p & Hi & Hp & Hne);
    [lia|].
  destruct (Hall lo ltac:(lia)) as [Hh [q Hq]].
  simpl for_from.
  assert (q = PcExited ∨ q ≠ PcExited) as [->|Hq'] by (destruct q; (by left) || (by right)).
  - rewrite (bind_eq _ _ _ _ _ (join_one lo w Hrcs Hh Hq)).
    apply IH.
    + simpl. by rewrite Hrcs.
    + intros i' Hi'. apply Hall. lia.
    + exists i, p. split; [|done].
      assert (i ≠ lo) by (intros ->; rewrite Hq in Hp; by injection Hp as <-). lia.
  - apply bind_Block. cbv beta.
    mstep (get_eq (fun w => threads (tp w) !! lo) w). rewrite Hh.
    apply bind_Block.
    unfold pthread_join, bind, next_rc, get. rewrite Hrcs. simpl.
    unfold set_rcs. cbn. rewrite Hq. by destruct q.
Qed.

Lemma not_done (l : list wpc) :
  forallb is_exit l = false → ∃ i p, l !! i = Some p ∧ is_exit p = false.
Proof.
  induction l as [|x l IH]; simpl; [done|].
  destruct (is_exit x) eqn:Ex; simpl.
  - intros (i & p & Hi & Hp)%IH. by exists (S i), p.
  - intros _. by exists 0%nat, x.
Qed.

(** A thread that has no step in the heap-free state has no block to run on
    the machine. *)
Lemma sim_blocked w a th :
  sim w a → shape a → astep g th a = None → ∀ w', step n th w ≠ Ret tt w'.
Proof.
  intros Hsim Hs Hnone w'.
  pose proof (sm_tasks _ _ _ Hsim) as Htasks.
  pose proof Htasks as (wks & l & Hthr & Hwks & Hinv & Hq & Hnd).
  rewrite Hthr in Htasks.
  destruct th as [|j]; simpl in Hnone.
  - unfold main_step in Hnone. pose proof (sh_main _ Hs) as Hm.
    destruct (amain a) as [|[|[|[|[|k]]]]] eqn:Em; try done; try lia.
    + destruct (workers_done a) eqn:Hd; [done|].
      rewrite (step_eq 0 w (PcMain 3)) by (by rewrite Hthr).
      simpl block_of.
      assert (wait_for_completion_join (set_self 0 w) = Block) as Hb.
      { unfold wait_for_completion_join.
        mstep (get_eq (fun w => num_threads (tp w)) (set_self 0 w)). simpl.
        rewrite (sm_nthreads _ _ _ Hsim).
        assert (Hlen : length wks = n).
        { rewrite (Forall2_length _ _ _ Hwks). apply (sh_len _ Hs). }
        apply join_block; [apply (sm_rcs _ _ _ Hsim)| |].
        - intros i Hi. simpl. rewrite Hthr. simpl. split.
          + rewrite (sm_threads _ _ _ Hsim), list_lookup_fmap.
            rewrite lookup_seq_lt by lia. done.
          + apply lookup_lt_is_Some. lia.
        - destruct (not_done _ Hd) as (i & ap & Hi & Hap).
          destruct (Forall2_lookup_r _ _ _ _ _ Hwks Hi) as (p & Hp & Hpc).
          exists i, p. simpl. rewrite Hthr. simpl. split; [|split; [done|]].
          + apply lookup_lt_Some in Hp. lia.
          + intros ->. by destruct ap. }
      by rewrite (bind_Block _ _ _ Hb).
    + rewrite (step_eq 0 w PcExited) by (by rewrite Hthr). done.
  - unfold worker_step in Hnone.
    destruct (awk a !! j) as [ap|] eqn:Hj.
    2:{ unfold step. mstep (get_eq (fun w => thr w !! S j) w).
        rewrite Hthr. simpl.
        assert (wks !! j = None) as ->; [|done].
        apply lookup_ge_None. rewrite (Forall2_length _ _ _ Hwks).
        by apply lookup_ge_None. }
    destruct (Forall2_lookup_r _ _ _ _ _ Hwks Hj) as (p & Hp & Hpc).
    rewrite (step_eq (S j) w p) by (by rewrite Hthr).
    pose proof (Forall_lookup_1 _ _ _ _ (sh_pcs _ Hs) Hj) as Hok.
    destruct ap as [|u|u i|]; destruct p as [| |t|t u' i'|]; try done; simpl in Hpc.
    + destruct (last (aq a)) eqn:El; [done|]. apply last_None in El.
      case_bool_decide as Hm; [done|].
      simpl block_of.
      pose proof (deq_empty w (S j) a _ wks (sm_rcs _ _ _ Hsim) (sm_mq _ _ _ Hsim)
                    Htasks El) as Hrun.
      rewrite (sm_fin _ _ _ Hsim), bool_decide_eq_false_2 in Hrun by done.
      by rewrite (bind_Block _ _ _ Hrun).
    + pose proof Hpc as (Ht1 & Harg & nd & Htk). simpl in Hok.
      assert (is_Some (avis a !! u)) as [v Hv].
      { apply lookup_lt_is_Some. by rewrite (sh_vis _ Hs). }
      rewrite Hv in Hnone.
      destruct (alock a) as [j'|] eqn:Hl; [|by destruct v].
      simpl block_of.
      rewrite (bind_eq _ _ _ _ _ (load_task_eq t (set_self (S j) w) _ Htk)).
      cbn [action argument].
      unfold emit.
      mstep (modify_eq (log (EvCall process_node_fn (t - 1))) (set_self (S j) w)).
      set (w1 := log (EvCall process_node_fn (t - 1)) (set_self (S j) w)).
      assert (process_node_enter (t - 1) w1 = Block) as Hb.
      { rewrite (process_node_enter_eq _ _ u v).
        - rewrite decide_True by (unfold rc0; simpl; by rewrite (sm_rcs _ _ _ Hsim)).
          simpl owner. by rewrite (sm_lock _ _ _ Hsim), Hl.
        - exact Harg.
        - change (visited (graph w1)) with (visited (graph w)).
          by rewrite (sm_vis _ _ _ Hsim). }
      by rewrite (bind_Block _ _ _ Hb).
    + exfalso. simpl in Hok. destruct Hok as [Hu Hi].
      assert (is_Some (nodes g !! u)) as [node Hnode].
      { apply lookup_lt_is_Some. by rewrite (wf_nodes g Hwf). }
      rewrite Hnode in Hnone. case_bool_decide as Hlt; [|done].
      destruct (wf_neighbours g Hwf u node Hnode) as [Hlen Hall].
      assert (is_Some (neighbours node !! i)) as [v Hv].
      { apply lookup_lt_is_Some. by rewrite Hlen. }
      rewrite Hv in Hnone.
      assert (is_Some (avis a !! v)) as [s Hs'].
      { apply lookup_lt_is_Some. rewrite (sh_vis _ Hs).
        exact (Forall_lookup_1 _ _ _ _ Hall Hv). }
      rewrite Hs' in Hnone. by destruct s.
Qed.

(** ** The start: [main] up to the initial task *)

Lemma fill_length {A} (f : nat → A) k lo l : length (fill f k lo l) = length l.
Proof.
  revert lo l. induction k as [|k IH]; intros lo l; simpl; [done|].
  by rewrite IH, length_insert.
Qed.

Lemma fill_lookup {A} (f : nat → A) k lo l i :
  fill f k lo l !! i =
    if decide ((lo ≤ i < lo + k)%nat ∧ (i < length l)%nat) then Some (f i) else l !! i.
Proof.
  revert lo l. induction k as [|k IH]; intros lo l; simpl.
  { rewrite decide_False by lia. done. }
  rewrite IH, length_insert.
  destruct (decide (i = lo)) as [->|Hne].
  - rewrite decide_False by lia.
    destruct (decide (lo < length l)%nat) as [Hlt|Hge].
    + rewrite list_lookup_insert_eq by done. by rewrite decide_True by lia.
    + rewrite decide_False by lia. by rewrite list_insert_ge by lia.
  - rewrite list_lookup_insert_ne by done.
    repeat case_decide; try done; lia.
Qed.

Local Abbreviation reset_body := (fun i : nat => fun w : world =>
  if bool_decide (i < length (visited (graph w)))%nat
  then Ret tt (set_graph (fun g => set_visited (<[i := NOT_VISITED]> (visited g)) g) w)
  else Fault).

Lemma reset_eq k lo w :
  (lo + k ≤ length (visited (graph w)))%nat →
  for_from k lo reset_body w =
    Ret tt (set_graph (set_visited (fill (fun _ => NOT_VISITED) k lo (visited (graph w)))) w).
Proof.
  revert lo w. induction k as [|k IH]; intros lo w Hle; [done|].
  simpl for_from. unfold bind at 1. cbv beta.
  rewrite bool_decide_eq_true_2 by lia.
  rewrite IH; [done|]. simpl. rewrite length_insert. lia.
Qed.

Local Abbreviation create_body := (fun i : nat =>
  let* r := pthread_create in
  (match r.2 with
   | Some h => modify (set_tp (fun p => set_threads (<[i := Some h]> (threads p)) p))
   | None => ret tt
   end) ;;;
  DIE (r.1 <? 0) "pthread_create").

Lemma create_eq k lo w :
  rcs w = [] → for_from k lo create_body w = Ret tt (created k lo w).
Proof.
  revert lo w. induction k as [|k IH]; intros lo w Hrcs; [done|].
  simpl for_from.
  assert (create_body lo w = Ret tt (one_created lo w)) as Hrun.
  { cbv beta.
    assert (pthread_create w =
            Ret (0, Some (length (thr w)))
                (set_thr (fun l => l ++ [PcDequeue]) (called c_create w))) as Hc.
    { unfold pthread_create, bind, next_rc, get, lib, ret, called, used, rc0, modify.
      rewrite Hrcs. done. }
    rewrite (bind_eq _ _ _ _ _ Hc). done. }
  rewrite (bind_eq _ _ _ _ _ Hrun). apply IH. simpl. by rewrite Hrcs.
Qed.

Lemma created_same k lo w :
  length (thr w) = S lo →
  heap (created k lo w) = heap w ∧ brk (created k lo w) = brk w ∧
  graph (created k lo w) = graph w ∧ sum (created k lo w) = sum w ∧
  mutex_graph (created k lo w) = mutex_graph w ∧ out (created k lo w) = out w ∧
  (rcs w = [] → rcs (created k lo w) = []) ∧
  tp (created k lo w) = set_threads (fill (fun i => Some (S i)) k lo (threads (tp w))) (tp w) ∧
  thr (created k lo w) = thr w ++ replicate k PcDequeue ∧
  stores (trace (created k lo w)) = stores (trace w) ∧
  graph_inside_queue (trace (created k lo w)) = graph_inside_queue (trace w) ∧
  ∀ i, holds i MutexQueue (trace (created k lo w)) = holds i MutexQueue (trace w).
Proof.
  revert lo w. induction k as [|k IH]; intros lo w Hlen; simpl.
  { rewrite app_nil_r. repeat split; done. }
  destruct (IH (S lo) (one_created lo w))
    as (-> & -> & -> & -> & -> & -> & Hr & -> & -> & -> & -> & Hh).
  { simpl. rewrite length_app. simpl. lia. }
  repeat split; try done.
  - intros Hw. apply Hr. simpl. by rewrite Hw.
  - simpl. by rewrite Hlen.
  - simpl. by rewrite <- app_assoc.
  - simpl. apply orb_false_r.
Qed.

Lemma main_init_eq :
  ∃ wd, main_init n (set_self 0 (boot g)) = Ret tt (created n 0 wd) ∧
        heap wd = ∅ ∧ brk wd = 3 ∧
        graph wd = set_visited (fill (fun _ => NOT_VISITED) (num_nodes g) 0 (visited g)) g ∧
        sum wd = 0 ∧ mutex_graph wd = None ∧ out wd = [] ∧ rcs wd = [] ∧
        tp wd = Pool n (replicate n None) 0 false (ListNode LHead LHead) None ∧
        thr wd = [PcMain 0] ∧ stores (trace wd) = [] ∧
        graph_inside_queue (trace wd) = false ∧
        ∀ i, holds i MutexQueue (trace wd) = false.
Proof.
  unfold main_init.
  set (w0 := set_self 0 (boot g)).
  assert (pthread_mutex_init MutexGraph w0 =
          Ret 0 (log (EvLib 0%nat (c_mutex_init MutexGraph) 0)
                   (set_owner MutexGraph None (used w0)))) as H1 by done.
  rewrite (bind_eq _ _ _ _ _ H1).
  set (wa := log _ _).
  assert (Hlen : (0 + num_nodes (graph (set_sum 0 wa)) ≤
                  length (visited (graph (set_sum 0 wa))))%nat).
  { simpl. by rewrite (wf_visited g Hwf). }
  eexists. split.
  { mstep (modify_eq (set_sum 0) wa).
    mstep (get_eq (fun w => num_nodes (graph w)) (set_sum 0 wa)).
    rewrite (bind_eq _ _ _ _ _ (reset_eq _ 0 _ Hlen)).
    set (wc := set_graph _ _).
    unfold create_threadpool.
    rewrite malloc_die. rewrite decide_True by done. rewrite decide_False by done.
    assert (list_init LHead (malloced wc) = Ret tt (malloced wc)) as H2 by done.
    rewrite (bind_eq _ _ _ _ _ H2).
    assert (pthread_mutex_init MutexQueue (malloced wc) =
            Ret 0 (log (EvLib 0%nat (c_mutex_init MutexQueue) 0)
                     (set_owner MutexQueue None (used (malloced wc))))) as H3 by done.
    rewrite (bind_eq _ _ _ _ _ H3).
    set (we := log _ _).
    assert (pthread_cond_init we = Ret 0 (called c_cond_init we)) as H4 by done.
    rewrite (bind_eq _ _ _ _ _ H4).
    mstep (modify_eq (set_tp (set_num_tasks 0)) (called c_cond_init we)).
    set (wf := set_tp (set_num_tasks 0) _).
    mstep (modify_eq (set_tp (set_finished false)) wf).
    set (wg := set_tp (set_finished false) _).
    unfold bind at 1. rewrite modify_eq.
    rewrite malloc_die. rewrite decide_True by done. rewrite decide_False by done.
    unfold bind at 1. rewrite modify_eq.
    apply create_eq. done. }
  repeat split; try done.
Qed.

Lemma held_replicate k : held (replicate k PcDequeue) = [].
Proof. induction k as [|k IH]; [done|]. exact IH. Qed.

(** The first block of [main] leaves the start state. *)
Lemma sim_boot : ∃ w1, step n 0 (boot g) = Ret tt w1 ∧ sim w1 (astart g n).
Proof.
  destruct main_init_eq
    as (wd & Hrun & Hheap & Hbrk & Hgraph & Hsum & Hmg & Hout & Hrcs & Htp & Hthr & Hst &
        Hgq & Hho).
  destruct (created_same n 0 wd)
    as (Hch & Hcb & Hcg & Hcs & Hcm & Hco & Hcr & Hct & Hcthr & Hcst & Hcgq & Hcho).
  { by rewrite Hthr. }
  eexists. split.
  { rewrite (step_eq 0 (boot g) (PcMain 0)) by done.
    simpl block_of. rewrite (bind_eq _ _ _ _ _ Hrun). reflexivity. }
  unfold sim. simpl thr. rewrite Hcthr, Hthr. simpl.
  split; simpl; rewrite ?Hch, ?Hcb, ?Hcg, ?Hcs, ?Hcm, ?Hco, ?Hct, ?Hcst, ?Hcgq,
                        ?Hheap, ?Hbrk, ?Hgraph, ?Hsum, ?Hmg, ?Hout, ?Htp, ?Hst, ?Hgq;
    simpl; try done.
  - by apply Hcr.
  - apply list_eq. intros i. rewrite fill_lookup, length_replicate, list_lookup_fmap.
    destruct (decide (i < n)%nat) as [Hlt|Hge].
    + rewrite decide_True by lia. by rewrite lookup_seq_lt by lia.
    + rewrite decide_False by lia. rewrite lookup_seq_ge by lia.
      apply lookup_replicate_None. lia.
  - apply list_eq. intros i. rewrite fill_lookup, (wf_visited g Hwf).
    destruct (decide (i < num_nodes g)%nat) as [Hlt|Hge].
    + rewrite decide_True by lia. symmetry. by apply lookup_replicate_2.
    + rewrite decide_False by lia.
      transitivity (@None visit_state).
      * apply lookup_ge_None. rewrite (wf_visited g Hwf). lia.
      * symmetry. apply lookup_replicate_None. lia.
  - split; simpl; rewrite ?Hcb, ?Hch, ?Hbrk, ?Hheap; [lia|].
    intros x [o Ho]. by rewrite lookup_empty in Ho.
  - exists (replicate n PcDequeue), []. split; [done|]. split.
    { apply Forall2_replicate. done. }
    split.
    { split; [split; [|constructor]|].
      - simpl. rewrite Hct, Htp. simpl.
        by exists (ListNode LHead LHead), (ListNode LHead LHead).
      - split; [apply not_elem_of_nil|]. simpl. rewrite Hct, Htp. simpl.
        unfold UINT_MAX. lia. }
    split; [constructor|]. simpl. rewrite held_replicate. constructor.
  - intros i. by rewrite Hcho.
Qed.

(** ** Runs *)

Hypothesis Hedges : Z.of_nat (num_edges g) < UINT_MAX.

Lemma inv_start : inv (astart g n).
Proof.
  split.
  - apply shape_start.
  - apply logged_start.
  - apply reached_start.
  - apply closed_start.
  - by rewrite owed_start.
Qed.

Lemma inv_step a th a' : inv a → akind g a th a' → inv a'.
Proof.
  intros [Hs Hl Hr Hc Ho] Hk. split.
  - by eapply shape_step.
  - by eapply logged_step.
  - by eapply reached_step.
  - by eapply closed_step.
  - pose proof (owed_step _ _ _ Hs Hk). lia.
Qed.

(** A block of the machine is a step of the heap-free state. *)
Lemma step_sim w a th w1 :
  sim w a → inv a → step n th w = Ret tt w1 →
  ∃ a1, akind g a th a1 ∧ sim w1 a1.
Proof.
  intros Hsim Hinv Hstep.
  destruct (astep g th a) as [a1|] eqn:Ea.
  - apply astep_akind in Ea. exists a1. split; [done|].
    destruct (sim_step w a th a1 Hsim (inv_shape _ Hinv) (inv_owed _ Hinv) Hedges Ea)
      as (w1' & Hstep' & Hsim').
    rewrite Hstep in Hstep'. by injection Hstep' as <-.
  - by destruct (sim_blocked w a th Hsim (inv_shape _ Hinv) Ea w1).
Qed.

Lemma exec_sim sched w a w' :
  sim w a → inv a → exec n sched w = Some w' →
  ∃ a', sim w' a' ∧ inv a' ∧ (steps_left a' + length sched ≤ steps_left a)%nat.
Proof.
  revert w a. induction sched as [|th sched IH]; intros w a Hsim Hinv Hrun; simpl in *.
  - injection Hrun as <-. exists a. split; [done|]. split; [done|]. lia.
  - destruct (step n th w) as [[] w1| | |] eqn:Hstep; try done.
    destruct (step_sim w a th w1 Hsim Hinv Hstep) as (a1 & Hk & Hsim1).
    destruct (IH w1 a1 Hsim1 (inv_step _ _ _ Hinv Hk) Hrun) as (a' & Hsim' & Hinv' & Hle).
    exists a'. split; [done|]. split; [done|].
    pose proof (steps_left_step _ _ _ (inv_shape _ Hinv) Hk). lia.
Qed.

(** A run of the program starts with the first block of [main]. *)
Lemma boot_run sched w :
  exec n sched (boot g) = Some w →
  (sched = [] ∧ w = boot g) ∨
  ∃ rest w1, sched = 0%nat :: rest ∧ step n 0 (boot g) = Ret tt w1 ∧
             sim w1 (astart g n) ∧ exec n rest w1 = Some w.
Proof.
  destruct sched as [|th rest]; simpl.
  - intros [= <-]. by left.
  - intros Hrun. right.
    destruct sim_boot as (w1 & Hstep & Hsim).
    destruct th as [|j]; [|done].
    rewrite Hstep in Hrun. by exists rest, w1.
Qed.

Lemma main_exited w a : sim w a → thr w !! 0%nat = Some PcExited ↔ amain a = 4%nat.
Proof.
  intros Hsim. destruct (sm_tasks _ _ _ Hsim) as (wks & l & -> & _). simpl.
  unfold main_for. case_decide as H4; split; intros H; try done.
Qed.

(** Some thread can run as long as [main] has not returned. *)
Lemma aprogress a : shape a → amain a ≠ 4%nat → ∃ th a', astep g th a = Some a'.
Proof.
  intros Hs Hm. pose proof (sh_main _ Hs) as Hr.
  destruct (decide (amain a = 1%nat)) as [H1|H1].
  { exists 0%nat. simpl. unfold main_step. rewrite H1. eauto. }
  destruct (decide (amain a = 2%nat)) as [H2|H2].
  { exists 0%nat. simpl. unfold main_step. rewrite H2. eauto. }
  assert (H3 : amain a = 3%nat) by lia.
  destruct (workers_done a) eqn:Hd.
  { exists 0%nat. simpl. unfold main_step. rewrite H3, Hd. eauto. }
  assert (Hnbr : ∀ j u i, awk a !! j = Some (WNbr u i) → ∃ a', worker_step g j a = Some a').
  { intros j u i Hj. unfold worker_step. rewrite Hj.
    pose proof (Forall_lookup_1 _ _ _ _ (sh_pcs _ Hs) Hj) as [Hu Hi].
    assert (is_Some (nodes g !! u)) as [node Hnode].
    { apply lookup_lt_is_Some. by rewrite (wf_nodes g Hwf). }
    rewrite Hnode. case_bool_decide as Hlt; [|eauto].
    destruct (wf_neighbours g Hwf u node Hnode) as [Hlen Hall].
    assert (is_Some (neighbours node !! i)) as [v Hv].
    { apply lookup_lt_is_Some. by rewrite Hlen. }
    rewrite Hv.
    assert (is_Some (avis a !! v)) as [s Hs'].
    { apply lookup_lt_is_Some. rewrite (sh_vis _ Hs).
      exact (Forall_lookup_1 _ _ _ _ Hall Hv). }
    rewrite Hs'. destruct s; eauto. }
  destruct (alock a) as [j'|] eqn:Hl.
  { destruct (proj1 (sh_lock _ Hs j') Hl) as (u & i & Hj).
    destruct (Hnbr _ _ _ Hj) as [a' Ha']. by exists (S j'), a'. }
  destruct (not_done _ Hd) as (j & p & Hj & Hp).
  exists (S j). simpl. unfold worker_step. rewrite Hj.
  destruct p as [|u|u i|]; try done.
  - destruct (last (aq a)); [eauto|]. rewrite bool_decide_eq_true_2 by lia. eauto.
  - rewrite Hl.
    pose proof (Forall_lookup_1 _ _ _ _ (sh_pcs _ Hs) Hj) as Hu. simpl in Hu.
    assert (is_Some (avis a !! u)) as [s Hs'].
    { apply lookup_lt_is_Some. by rewrite (sh_vis _ Hs). }
    rewrite Hs'. destruct s; eauto.
  - assert (alock a = Some j) as Hl' by (apply (sh_lock _ Hs); eauto).
    rewrite Hl in Hl'. done.
Qed.

Lemma progress w a :
  sim w a → inv a → thr w !! 0%nat ≠ Some PcExited → ∃ th w1, step n th w = Ret tt w1.
Proof.
  intros Hsim Hinv Hne.
  destruct (aprogress a (inv_shape _ Hinv)) as (th & a' & Ha).
  { intros H4. by apply Hne, (main_exited w a Hsim). }
  apply astep_akind in Ha.
  destruct (sim_step w a th a' Hsim (inv_shape _ Hinv) (inv_owed _ Hinv) Hedges Ha)
    as (w1 & Hstep & _).
  by exists th, w1.
Qed.

Lemma completes k w a :
  (steps_left a ≤ k)%nat → sim w a → inv a →
  ∃ sched w', exec n sched w = Some w' ∧ thr w' !! 0%nat = Some PcExited.
Proof.
  revert w a. induction k as [|k IH]; intros w a Hk Hsim Hinv.
  - destruct (decide (amain a = 4%nat)) as [H4|H4].
    + exists [], w. split; [done|]. by apply (main_exited w a Hsim).
    + destruct (aprogress a (inv_shape _ Hinv) H4) as (th & a' & Ha).
      apply astep_akind in Ha.
      pose proof (steps_left_step _ _ _ (inv_shape _ Hinv) Ha). lia.
  - destruct (decide (amain a = 4%nat)) as [H4|H4].
    + exists [], w. split; [done|]. by apply (main_exited w a Hsim).
    + destruct (aprogress a (inv_shape _ Hinv) H4) as (th & a' & Ha).
      apply astep_akind in Ha.
      destruct (sim_step w a th a' Hsim (inv_shape _ Hinv) (inv_owed _ Hinv) Hedges Ha)
        as (w1 & Hstep & Hsim1).
      pose proof (steps_left_step _ _ _ (inv_shape _ Hinv) Ha) as Hlt.
      destruct (IH w1 a' ltac:(lia) Hsim1 (inv_step _ _ _ Hinv Ha)) as (sched & w' & Hrun & Hex).
      exists (th :: sched), w'. simpl. rewrite Hstep. done.
Qed.

Lemma run_invariant sched w :
  exec n sched (boot g) = Some w →
  (sched = [] ∧ w = boot g) ∨
  ∃ a, sim w a ∧ inv a ∧ (steps_left a + length sched ≤ S (steps_left (astart g n)))%nat.
Proof.
  intros [?|(rest & w1 & -> & Hstep & Hsim & Hrun)]%boot_run; [by left|right].
  destruct (exec_sim rest w1 _ w Hsim inv_start Hrun) as (a & Hsim' & Hinv & Hle).
  exists a. split; [done|]. split; [done|]. simpl. lia.
Qed.

(** ** The end of the traversal *)

Lemma done_reach a u : inv a → avis a !! u = Some DONE → reach g 0 u.
Proof.
  intros Hinv Hd. apply (re_log _ (inv_reached _ Hinv)).
  by apply (lg_log _ (inv_logged _ Hinv)).
Qed.

Lemma unreached_flag a u :
  inv a → (u < num_nodes g)%nat → ¬ reach g 0 u → avis a !! u = Some NOT_VISITED.
Proof.
  intros Hinv Hu Hnr.
  assert (is_Some (avis a !! u)) as [s Hs].
  { apply lookup_lt_is_Some. by rewrite (sh_vis _ (inv_shape _ Hinv)). }
  destruct (Forall_lookup_1 _ _ _ _ (lg_flags _ (inv_logged _ Hinv)) Hs) as [->| ->]; [done|].
  by destruct Hnr; eapply done_reach.
Qed.

Lemma pending_end a v : inv a → amain a = 4%nat → pending a v → avis a !! v = Some DONE.
Proof.
  intros Hinv H4 [Hd|[Hq|Hw]]; [done| |].
  - pose proof (sh_joined _ (inv_shape _ Hinv) H4) as Hdone.
    rewrite (sh_drained _ (inv_shape _ Hinv) Hdone) in Hq. by apply elem_of_nil in Hq.
  - pose proof (sh_joined _ (inv_shape _ Hinv) H4) as Hdone.
    apply list_elem_of_lookup in Hw as [j Hj].
    by pose proof (done_all _ _ _ Hdone Hj).
Qed.

Lemma reach_done a u : inv a → amain a = 4%nat → reach g 0 u → avis a !! u = Some DONE.
Proof.
  intros Hinv H4 Hr. induction Hr as [|v x Hr IH (node & j & Hnode & Hj)].
  - apply (pending_end a 0 Hinv H4). apply (cl_seed _ (inv_closed _ Hinv)). lia.
  - destruct (cl_edges _ (inv_closed _ Hinv) v node j x IH Hnode Hj)
      as [Hp|(i' & Hin & _)]; [by apply pending_end|].
    pose proof (sh_joined _ (inv_shape _ Hinv) H4) as Hdone.
    apply list_elem_of_lookup in Hin as [k Hk].
    by pose proof (done_all _ _ _ Hdone Hk).
Qed.

(** ** The heap of a run *)












End traversal.

Lemma sum_info_perm g l l' : l ≡ₚ l' → sum_info g l = sum_info g l'.
Proof.
  induction 1 as [|x l l' _ IH|x y l|l l' l'' _ IH1 _ IH2]; simpl; try done; lia.
Qed.

Lemma wrap_int_small z : INT_MIN ≤ z ≤ INT_MAX → wrap_int z = z.
Proof.
  unfold wrap_int, INT_MIN, INT_MAX. intros H. rewrite Z.mod_small by lia. lia.
Qed.

(** ** The traversal, from [main] to the printed sum *)

(** C1: for every graph (with its arrays as long as their counts say and less
    than [UINT_MAX] neighbour entries) and every number [n >= 1] of workers,
    some run of [main] returns, no run has more than [run_bound g n] blocks,
    some thread can run as long as [main] has not returned, and when [main]
    has returned, under any schedule: the nodes marked [DONE] are the nodes
    reachable from node 0, each of them was stored [DONE] exactly once, and
    the sum printed is the sum of [info] over the reachable nodes, each
    counted once, as a 32-bit [int]; it is that sum itself when it fits. *)
Theorem traversal_total g n :
  wf_graph g → (1 ≤ n)%nat → Z.of_nat (num_edges g) < UINT_MAX →
  (∃ sched w, exec n sched (boot g) = Some w ∧ thr w !! 0%nat = Some PcExited) ∧
  ∀ sched w, exec n sched (boot g) = Some w →
    (length sched ≤ run_bound g n)%nat ∧
    (thr w !! 0%nat ≠ Some PcExited → ∃ th w1, step n th w = Ret tt w1) ∧
    (thr w !! 0%nat = Some PcExited →
       (∀ u, visited (graph w) !! u = Some DONE ↔ reach g 0 u) ∧
       NoDup (stores (trace w)) ∧
       (∀ u, u ∈ stores (trace w) ↔ reach g 0 u) ∧
       ∀ L, NoDup L → (∀ u, u ∈ L ↔ reach g 0 u) →
         sum w = wrap_int (sum_info g L) ∧
         out w = [wrap_int (sum_info g L)] ∧
         (INT_MIN ≤ sum_info g L ≤ INT_MAX → out w = [sum_info g L])).
Proof.
  intros Hwf Hn Hedges. split.
  { destruct (sim_boot g n Hwf Hn) as (w1 & Hstep & Hsim).
    destruct (completes g n Hwf Hn Hedges _ w1 _ (le_n _) Hsim (inv_start g n Hwf Hn))
      as (sched & w & Hrun & Hex).
    exists (0%nat :: sched), w. simpl. by rewrite Hstep. }
  intros sched w Hrun.
  destruct (run_invariant g n Hwf Hn Hedges sched w Hrun) as [[-> ->]|(a & Hsim & Hinv & Hle)].
  { split; [simpl; lia|]. split; [|done].
    intros _. destruct (sim_boot g n Hwf Hn) as (w1 & Hstep & _). by exists 0%nat, w1. }
  split; [unfold run_bound; lia|]. split; [by eapply progress|].
  intros H4%(main_exited g n w a Hsim).
  pose proof (inv_logged _ _ _ Hinv) as Hl.
  assert (Hdone : ∀ u, avis a !! u = Some DONE ↔ reach g 0 u).
  { intros u. split; [by eapply done_reach|by eapply reach_done]. }
  assert (Hlog : ∀ u, u ∈ alog a ↔ reach g 0 u).
  { intros u. by rewrite (lg_log _ _ Hl). }
  rewrite (sm_vis _ _ _ _ _ Hsim), (sm_log _ _ _ _ _ Hsim), (sm_sum _ _ _ _ _ Hsim),
    (sm_out _ _ _ _ _ Hsim).
  split; [done|]. split; [apply (lg_nodup _ _ Hl)|]. split; [done|].
  intros L HL HLr.
  assert (sum_info g (alog a) = sum_info g L) as HS.
  { apply sum_info_perm, NoDup_Permutation; [apply (lg_nodup _ _ Hl)|done|].
    intros u. by rewrite Hlog, HLr. }
  rewrite (lg_out _ _ Hl), decide_True by done.
  rewrite (lg_sum _ _ Hl), HS. split; [done|]. split; [done|].
  intros Hr. by rewrite wrap_int_small.
Qed.

(** The example graph: the nodes 0, 1 and 2 are the ones reachable from
    node 0. *)
Lemma example_wf : wf_graph example_graph.
Proof.
  split; [reflexivity|reflexivity|simpl; lia|].
  intros [|[|[|[|[|[|u]]]]]] node; simpl; intros [= <-]; simpl;
    (split; [reflexivity|]); repeat constructor.
Qed.

Lemma example_reach u : u ∈ [0; 1; 2]%nat ↔ reach example_graph 0 u.
Proof.
  split.
  - intros Hu. repeat (apply elem_of_cons in Hu as [->|Hu]); [| | |by apply elem_of_nil in Hu].
    + constructor.
    + eapply reach_edge; [constructor|]. by exists (Node 10 2 [1; 2]%nat), 0%nat.
    + eapply reach_edge; [constructor|]. by exists (Node 10 2 [1; 2]%nat), 1%nat.
  - induction 1 as [|v x _ IH (node & j & Hnode & Hj)]; [set_solver|].
    repeat (apply elem_of_cons in IH as [->|IH]); [| | |by apply elem_of_nil in IH];
      simpl in Hnode; injection Hnode as <-; simpl in Hj.
    + destruct j as [|[|j]]; simpl in Hj; [| |done]; injection Hj as <-; set_solver.
    + destruct j as [|j]; simpl in Hj; [|done]. injection Hj as <-. set_solver.
    + done.
Qed.

Lemma traversal_total_witness :
  out <$> exec NUM_THREADS example_run (boot example_graph) = Some [60].
Proof.
  destruct (exec NUM_THREADS example_run (boot example_graph)) as [w|] eqn:Hrun.
  2:{ vm_compute in Hrun. discriminate Hrun. }
  assert (Hex : thr w !! 0%nat = Some PcExited).
  { assert ((fun w => thr w !! 0%nat) <$> exec NUM_THREADS example_run (boot example_graph)
            = Some (Some PcExited)) as H by (vm_compute; reflexivity).
    rewrite Hrun in H. by injection H. }
  assert (Hn : (1 ≤ NUM_THREADS)%nat) by (unfold NUM_THREADS; lia).
  assert (He : Z.of_nat (num_edges example_graph) < UINT_MAX) by (vm_compute; reflexivity).
  destruct (traversal_total example_graph NUM_THREADS example_wf Hn He) as [_ H].
  destruct (H example_run w Hrun) as (_ & _ & Hres).
  destruct (Hres Hex) as (_ & _ & _ & HL).
  assert (Hnd : NoDup [0; 1; 2]%nat).
  { apply (bool_decide_eq_true_1 (NoDup [0; 1; 2]%nat)). reflexivity. }
  destruct (HL [0; 1; 2]%nat Hnd example_reach) as (_ & _ & Hout).
  simpl. f_equal. apply Hout. vm_compute. split; discriminate.
Defined.

(** ** The order of the two mutexes *)

(** C6, amended: the two mutexes are taken in one order only.  A worker
    takes the queue mutex while it holds the graph mutex (the calls of
    [enqueue_task] in [process_node]), but in no run does a thread take the
    graph mutex while it holds the queue mutex. *)
Theorem graph_never_inside_queue g n sched w :
  wf_graph g → (1 ≤ n)%nat → Z.of_nat (num_edges g) < UINT_MAX →
  exec n sched (boot g) = Some w →
  graph_inside_queue (trace w) = false.
Proof.
  intros Hwf Hn Hedges Hrun.
  destruct (run_invariant g n Hwf Hn Hedges sched w Hrun) as [[-> ->]|(a & Hsim & _)];
    [done|].
  apply (sm_order _ _ _ _ _ Hsim).
Qed.

Lemma graph_never_inside_queue_witness :
  (graph_inside_queue ∘ trace) <$> exec 2 [0; 0; 1; 1; 1]%nat (boot example_graph) =
  Some false.
Proof.
  destruct (exec 2 [0; 0; 1; 1; 1]%nat (boot example_graph)) as [w|] eqn:Hrun.
  2:{ vm_compute in Hrun. discriminate Hrun. }
  simpl. f_equal.
  assert (He : Z.of_nat (num_edges example_graph) < UINT_MAX) by (vm_compute; reflexivity).
  apply (graph_never_inside_queue example_graph 2 [0; 0; 1; 1; 1]%nat w example_wf
           (le_S _ _ (le_n 1)) He Hrun).
Defined.

(** ** The tasks of [main] *)

Lemma chain_unique nd p l l' : chain nd p l → chain nd p l' → l = l'.
Proof.
  revert p l'. induction l as [|t l IH]; intros p [|t' l']; simpl.
  - done.
  - intros (n1 & h & Hn1 & Hnx & _) (n2 & n' & Hn2 & Hnx' & _).
    rewrite Hn1 in Hn2. injection Hn2 as <-. by rewrite Hnx in Hnx'.
  - intros (n1 & n' & Hn1 & Hnx & _) (n2 & h & Hn2 & Hnx' & _).
    rewrite Hn1 in Hn2. injection Hn2 as <-. by rewrite Hnx in Hnx'.
  - intros (n1 & n1' & Hn1 & Hnx & _ & _ & Hc) (n2 & n2' & Hn2 & Hnx' & _ & _ & Hc').
    rewrite Hn1 in Hn2. injection Hn2 as <-. rewrite Hnx in Hnx'. injection Hnx' as <-.
    by rewrite (IH _ _ Hc Hc').
Qed.

Lemma queued_unique w q q' : queued w q → queued w q' → q = q'.
Proof.
  intros (l & [[Hc _] _] & Hq) (l' & [[Hc' _] _] & Hq').
  rewrite <- (chain_unique _ _ _ _ Hc Hc') in Hq'. clear Hc Hc'.
  revert q' Hq'. induction Hq as [|t u l q Ht _ IH]; intros q' Hq'.
  - by apply Forall2_nil_inv_l in Hq'.
  - apply Forall2_cons_inv_l in Hq' as (u' & q'' & Ht' & Hq'' & ->).
    rewrite (IH _ Hq''). f_equal.
    destruct Ht as (_ & Hu & _), Ht' as (_ & Hu' & _).
    rewrite Hu in Hu'. by injection Hu'.
Qed.

Lemma sim_queued g n w a : sim g n w a → queued w (aq a).
Proof.
  intros Hsim. destruct (sm_tasks _ _ _ _ _ Hsim) as (wks & l & _ & _ & Hinv & Hq & _).
  by exists l.
Qed.

Lemma boot_queued g : queued (boot g) [].
Proof.
  exists []. split; [|constructor].
  split; [split; [|constructor]|].
  - by exists (ListNode LHead LHead), (ListNode LHead LHead).
  - split; [apply not_elem_of_nil|]. simpl. unfold UINT_MAX. lia.
Qed.

(** C9: in every run, whatever the graph holds, the blocks of [main] go
    through its program points in order, the block at point 1 (the lines
    87 to 96 of parallel.c) puts one task in the queue, for node 0, and the
    other blocks of [main] leave the tasks of the queue as they are; when
    [main] has returned, the nodes that are not reachable from node 0 are
    still [NOT_VISITED]. *)
Theorem seeded_with_node0 g n sched w :
  wf_graph g → (1 ≤ n)%nat → Z.of_nat (num_edges g) < UINT_MAX →
  exec n sched (boot g) = Some w →
  (∀ k w1 q, thr w !! 0%nat = Some (PcMain k) → step n 0 w = Ret tt w1 → queued w q →
     thr w1 !! 0%nat = Some (if decide (k = 3%nat) then PcExited else PcMain (S k)) ∧
     queued w1 (if decide (k = 1%nat) then q ++ [0%nat] else q)) ∧
  (thr w !! 0%nat = Some PcExited →
     ∀ u, (u < num_nodes g)%nat → ¬ reach g 0 u →
          visited (graph w) !! u = Some NOT_VISITED).
Proof.
  intros Hwf Hn Hedges Hrun.
  destruct (run_invariant g n Hwf Hn Hedges sched w Hrun) as [[-> ->]|(a & Hsim & Hinv & _)].
  { split; [|done]. intros k w1 q [= <-] Hstep Hq.
    destruct (sim_boot g n Hwf Hn) as (w1' & Hstep' & Hsim).
    rewrite Hstep in Hstep'. injection Hstep' as <-.
    rewrite (queued_unique _ _ _ Hq (boot_queued g)). simpl. split.
    - destruct (sm_tasks _ _ _ _ _ Hsim) as (wks & l & -> & _). done.
    - apply (sim_queued _ _ _ _ Hsim). }
  split.
  - intros k w1 q Hk Hstep Hq.
    rewrite (queued_unique _ _ _ Hq (sim_queued _ _ _ _ Hsim)).
    destruct (step_sim g n Hwf Hn Hedges w a 0%nat w1 Hsim Hinv Hstep) as (a1 & Hkind & Hsim1).
    pose proof (sim_queued _ _ _ _ Hsim1) as Hq1.
    destruct (sm_tasks _ _ _ _ _ Hsim) as (wks & l & Hthr & _).
    destruct (sm_tasks _ _ _ _ _ Hsim1) as (wks1 & l1 & Hthr1 & _).
    rewrite Hthr in Hk. rewrite Hthr1. simpl in *. clear Hthr Hthr1.
    inversion Hkind as [Hm|Hm|Hm Hd| | | | | | | ]; subst a1; simpl in *;
      rewrite Hm in Hk; injection Hk as <-; simpl; done.
  - intros H4 u Hu Hnr. rewrite (sm_vis _ _ _ _ _ Hsim).
    by eapply unreached_flag.
Qed.

Lemma seeded_with_node0_witness :
  (fun w => visited (graph w) !! 5%nat) <$>
    exec NUM_THREADS example_run (boot example_graph) = Some (Some NOT_VISITED).
Proof.
  destruct (exec NUM_THREADS example_run (boot example_graph)) as [w|] eqn:Hrun.
  2:{ vm_compute in Hrun. discriminate Hrun. }
  assert (Hex : thr w !! 0%nat = Some PcExited).
  { assert ((fun w => thr w !! 0%nat) <$> exec NUM_THREADS example_run (boot example_graph)
            = Some (Some PcExited)) as H by (vm_compute; reflexivity).
    rewrite Hrun in H. by injection H. }
  assert (Hn : (1 ≤ NUM_THREADS)%nat) by (unfold NUM_THREADS; lia).
  assert (He : Z.of_nat (num_edges example_graph) < UINT_MAX) by (vm_compute; reflexivity).
  destruct (seeded_with_node0 example_graph NUM_THREADS example_run w example_wf Hn He Hrun)
    as [_ H].
  simpl. f_equal. apply (H Hex); [simpl; lia|].
  intros Hr%example_reach. clear -Hr.
  repeat (apply elem_of_cons in Hr as [Hr|Hr]; [discriminate Hr|]).
  by apply elem_of_nil in Hr.
Defined.

(** * Further properties of the code *)

(** ** Every point of every run *)









(** ** The queue functions *)

(** X5: [queue_is_empty] (the pointer test [head.next == &head]) answers
    whether no task is linked in the queue, and changes nothing. *)
Theorem queue_is_empty_spec w l :
  queue_is w l → queue_is_empty w = Ret (bool_decide (l = [])) w.
Proof.
  intros [Hc _]. destruct (chain_empty_iff _ _ Hc) as (h & Hh & Hiff).
  unfold queue_is_empty. rewrite (list_empty_eq _ _ _ Hh).
  f_equal. apply bool_decide_ext. exact Hiff.
Qed.

Lemma queue_is_empty_spec_witness :
  queue_is_empty three_more = Ret false three_more ∧
  queue_is_empty lifo_w6 = Ret false lifo_w6.
Proof.
  assert (H1 : queue_inv three_more [4]) by (apply queue_invb_inv; vm_compute; reflexivity).
  assert (H2 : queue_inv lifo_w6 [4]) by (apply queue_invb_inv; vm_compute; reflexivity).
  split.
  - exact (queue_is_empty_spec three_more [4] (proj1 H1)).
  - exact (queue_is_empty_spec lifo_w6 [4] (proj1 H2)).
Defined.



(** ** Tasks and the pool *)

(** The bound of the allocator, checked on a given state. *)
Lemma heap_ok_check w :
  bool_decide (1 ≤ brk w) && bool_decide (map_Forall (fun x _ => x < brk w) (heap w)) = true →
  heap_ok w.
Proof.
  intros [H1 H2]%andb_true_iff.
  apply bool_decide_eq_true_1 in H1. apply bool_decide_eq_true_1 in H2.
  split; [done|]. intros x [o Ho]. exact (H2 x o Ho).
Qed.

(** X7: [create_task] returns the address of a new object, not NULL and not
    in use before, that holds the action, the argument and the destructor
    it was given, each in its own member; nothing else in the heap, the pool
    or the graph changes.  When [malloc] fails the process ends there, with
    a diagnostic and the heap as it was. *)
Theorem create_task_spec ac arg d w :
  heap_ok w →
  (rc0 w = 0 →
   ∃ t w', create_task ac arg d w = Ret t w' ∧ t ≠ NULL ∧ heap w !! t = None ∧
           (∃ nd, heap w' !! t = Some (OTask (Task arg ac d nd))) ∧
           (∀ a, a ≠ t → heap w' !! a = heap w !! a) ∧
           tp w' = tp w ∧ graph w' = graph w ∧ sum w' = sum w ∧ heap_ok w') ∧
  (rc0 w ≠ 0 →
   ∃ w', create_task ac arg d w = Exit w' ∧ heap w' = heap w ∧ tp w' = tp w ∧
         died (trace w') = true).
Proof.
  intros [Hb Hheap]. split.
  - intros Hrc. assert (Hnn : brk w ≠ NULL) by (unfold NULL; lia).
    exists (brk w). eexists. split; [exact (create_task_eq ac arg d w Hrc Hnn)|].
    split; [done|]. split.
    { destruct (heap w !! brk w) eqn:E; [|done].
      assert (brk w < brk w) by (apply Hheap; eauto). lia. }
    split; [eexists; apply lookup_insert_eq|].
    split; [intros a Ha; simpl; by rewrite lookup_insert_ne|].
    split; [done|]. split; [done|]. split; [done|].
    split; simpl; [lia|]. intros x [o Ho].
    destruct (decide (x = brk w)) as [->|Hne]; [lia|].
    rewrite lookup_insert_ne in Ho by done.
    assert (x < brk w) by (apply Hheap; eauto). lia.
  - intros Hrc. eexists. split; [|split; [|split]].
    + unfold create_task. rewrite malloc_die. by rewrite decide_False.
    + done.
    + done.
    + done.
Qed.

Lemma create_task_spec_witness :
  ending_of (create_task (Some process_node_fn) 3 (Some free_function_fn) three_more) =
    Returned ∧
  ending_of (create_task (Some process_node_fn) 3 (Some free_function_fn)
               (set_rcs [12] three_more)) = Exited.
Proof.
  assert (Hok : heap_ok three_more) by (apply heap_ok_check; vm_compute; reflexivity).
  assert (Hok' : heap_ok (set_rcs [12] three_more)).
  { apply heap_ok_check. vm_compute. reflexivity. }
  split.
  - destruct (create_task_spec (Some process_node_fn) 3 (Some free_function_fn)
                three_more Hok) as [H _].
    destruct (H eq_refl) as (t & w' & -> & _). reflexivity.
  - destruct (create_task_spec (Some process_node_fn) 3 (Some free_function_fn)
                (set_rcs [12] three_more) Hok') as [_ H].
    destruct H as (w' & -> & _); [discriminate|reflexivity].
Defined.

(** X8: [wait_for_completion], with a library that does not fail and the
    queue mutex free, returns exactly when every worker of the pool has left
    [thread_loop_function]; with a worker still running it does not return,
    it waits in [pthread_join].  When it returns the flag [finished] is set
    and the queue, the heap, the graph and the sum are as they were. *)
Theorem wait_for_completion_spec w n :
  rcs w = [] → mutex_queue (tp w) = None →
  num_threads (tp w) = n → threads (tp w) = Some <$> seq 1 n →
  length (thr w) = S n →
  ((∀ i, (1 ≤ i ≤ n)%nat → thr w !! i = Some PcExited) →
   ∃ w', wait_for_completion w = Ret tt w' ∧ finished (tp w') = true ∧
         head (tp w') = head (tp w) ∧ num_tasks (tp w') = num_tasks (tp w) ∧
         mutex_queue (tp w') = None ∧ heap w' = heap w ∧ graph w' = graph w ∧
         sum w' = sum w ∧ thr w' = thr w) ∧
  ((∃ i p, (1 ≤ i ≤ n)%nat ∧ thr w !! i = Some p ∧ p ≠ PcExited) →
   wait_for_completion w = Block).
Proof.
  intros Hrcs Hmq Hnt Hths Hlen.
  assert (Hsig : wait_for_completion_signal w = Ret tt (signalled w)) by (by apply signal_eq).
  assert (Hrcs' : rcs (signalled w) = []) by (simpl; by rewrite Hrcs).
  assert (Hh : ∀ i, (0 ≤ i < 0 + n)%nat → threads (tp (signalled w)) !! i = Some (Some (S i))).
  { intros i Hi. simpl. rewrite Hths, list_lookup_fmap, lookup_seq_lt by lia. done. }
  unfold wait_for_completion. rewrite (bind_eq _ _ _ _ _ Hsig).
  unfold wait_for_completion_join.
  mstep (get_eq (fun w => num_threads (tp w)) (signalled w)).
  change (num_threads (tp (signalled w))) with (num_threads (tp w)). rewrite Hnt.
  split.
  - intros Hall. exists (joined n 0 (signalled w)).
    destruct (joined_same n 0 (signalled w))
      as (-> & _ & -> & -> & -> & _ & -> & _).
    split; [|repeat split; done].
    apply (join_eq 1 (le_n 1)); [done|]. intros i Hi. split; [|by apply Hh].
    apply (Hall (S i)). lia.
  - intros (i & p & Hi & Hp & Hne).
    apply (join_block 1 (le_n 1)); [done| |].
    + intros j Hj. split; [by apply Hh|]. apply lookup_lt_is_Some.
      change (thr (signalled w)) with (thr w). lia.
    + destruct i as [|i]; [lia|]. exists i, p. split; [lia|]. done.
Qed.

Lemma wait_for_completion_spec_witness :
  wait_for_completion three_more = Block ∧
  ending_of (wait_for_completion
               (set_thr (fun _ => [PcMain 2; PcExited; PcExited]) three_more)) = Returned.
Proof.
  split; [|
    destruct (wait_for_completion_spec
                (set_thr (fun _ => [PcMain 2; PcExited; PcExited]) three_more) 2) as [H _];
    [vm_compute; reflexivity|vm_compute; reflexivity|vm_compute; reflexivity|
     vm_compute; reflexivity|vm_compute; reflexivity|];
    destruct H as (w' & -> & _); [|reflexivity];
    intros [|[|[|i]]] Hi; try lia; reflexivity].
  assert (H1 : rcs three_more = []) by (vm_compute; reflexivity).
  assert (H2 : mutex_queue (tp three_more) = None) by (vm_compute; reflexivity).
  assert (H3 : num_threads (tp three_more) = 2%nat) by (vm_compute; reflexivity).
  assert (H4 : threads (tp three_more) = Some <$> seq 1 2) by (vm_compute; reflexivity).
  assert (H5 : length (thr three_more) = 3%nat) by (vm_compute; reflexivity).
  assert (H6 : thr three_more !! 1%nat = Some PcDequeue) by (vm_compute; reflexivity).
  apply (proj2 (wait_for_completion_spec three_more 2 H1 H2 H3 H4 H5)).
  exists 1%nat, PcDequeue. split; [lia|]. split; [exact H6|discriminate].
Defined.

Lemma created_died k lo w : died (trace (created k lo w)) = died (trace w).
Proof.
  revert lo w. induction k as [|k IH]; intros lo w; [done|].
  simpl. by rewrite IH.
Qed.

(** X9: [create_threadpool (n)], called by the only thread there is, with a
    library that does not fail, returns a pool of [n] workers, each at the
    start of [thread_loop_function], with their handles in [threads] in the
    order of creation, an empty queue, [num_tasks] 0 and [finished]
    unset; the heap, the graph and the sum are not touched. *)
Theorem create_threadpool_spec n w :
  rcs w = [] → 1 ≤ brk w → length (thr w) = 1%nat →
  ∃ w', create_threadpool n w = Ret tt w' ∧
        tp w' = Pool n (Some <$> seq 1 n) 0 false (ListNode LHead LHead) None ∧
        thr w' = thr w ++ replicate n PcDequeue ∧ queue_inv w' [] ∧
        heap w' = heap w ∧ graph w' = graph w ∧ sum w' = sum w ∧
        rcs w' = [] ∧ died (trace w') = died (trace w).
Proof.
  intros Hrcs Hbrk Hlen.
  assert (Hw : w = set_rcs [] w) by (by rewrite <- Hrcs).
  assert (∃ wd, create_threadpool n w = Ret tt (created n 0 wd) ∧
                tp wd = Pool n (replicate n None) 0 false (ListNode LHead LHead) None ∧
                thr wd = thr w ∧ heap wd = heap w ∧ graph wd = graph w ∧ sum wd = sum w ∧
                rcs wd = [] ∧ died (trace wd) = died (trace w))
    as (wd & Hrun & Htp & Hthr & Hheap & Hgraph & Hsum & Hrcsd & Hdied).
  { replace (create_threadpool n w) with (create_threadpool n (set_rcs [] w))
      by (by rewrite <- Hw).
    set (w0 := set_rcs [] w).
    unfold create_threadpool.
    rewrite malloc_die. rewrite decide_True by done.
    rewrite decide_False by (simpl; unfold NULL; lia).
    assert (list_init LHead (malloced w0) =
            Ret tt (set_tp (set_head (ListNode LHead LHead)) (malloced w0))) as H2 by done.
    rewrite (bind_eq _ _ _ _ _ H2).
    set (w1 := set_tp _ _).
    assert (pthread_mutex_init MutexQueue w1 =
            Ret 0 (log (EvLib (self w) (c_mutex_init MutexQueue) 0)
                     (set_owner MutexQueue None (used w1)))) as H3 by done.
    rewrite (bind_eq _ _ _ _ _ H3).
    set (we := log _ _).
    assert (pthread_cond_init we = Ret 0 (called c_cond_init we)) as H4 by done.
    rewrite (bind_eq _ _ _ _ _ H4).
    mstep (modify_eq (set_tp (set_num_tasks 0)) (called c_cond_init we)).
    set (wf := set_tp (set_num_tasks 0) _).
    mstep (modify_eq (set_tp (set_finished false)) wf).
    set (wg := set_tp (set_finished false) _).
    unfold bind at 1. rewrite modify_eq.
    rewrite malloc_die. rewrite decide_True by done.
    rewrite decide_False by (simpl; unfold NULL; lia).
    unfold bind at 1. rewrite modify_eq.
    eexists. split; [apply create_eq; done|].
    repeat split; done. }
  destruct (created_same 1 (le_n 1) n 0 wd)
    as (Hch & _ & Hcg & Hcs & _ & _ & Hcr & Hct & Hcthr & _).
  { by rewrite Hthr. }
  exists (created n 0 wd). split; [done|].
  assert (Hths : fill (fun i => Some (S i)) n 0 (replicate n None) = Some <$> seq 1 n).
  { apply list_eq. intros i.
    rewrite (fill_lookup 1 (le_n 1)), length_replicate, list_lookup_fmap.
    destruct (decide (i < n)%nat) as [Hlt|Hge].
    - rewrite decide_True by lia. by rewrite lookup_seq_lt by lia.
    - rewrite decide_False by lia. rewrite lookup_seq_ge by lia.
      apply lookup_replicate_None. lia. }
  assert (Htp' : tp (created n 0 wd) =
                 Pool n (Some <$> seq 1 n) 0 false (ListNode LHead LHead) None).
  { rewrite Hct, Htp. unfold set_threads. simpl. by rewrite Hths. }
  split; [done|]. split; [by rewrite Hcthr, Hthr|]. split.
  { split; [split; [|constructor]|].
    - simpl. rewrite Htp'. simpl.
      by exists (ListNode LHead LHead), (ListNode LHead LHead).
    - split; [apply not_elem_of_nil|]. rewrite Htp'. simpl. unfold UINT_MAX. lia. }
  rewrite Hch, Hcg, Hcs, created_died. repeat split; try done. by apply Hcr.
Qed.

Lemma create_threadpool_spec_witness :
  (fun w => thr w) <$> last_world (create_threadpool 3 (boot example_graph)) =
    Some [PcMain 0; PcDequeue; PcDequeue; PcDequeue].
Proof.
  destruct (create_threadpool_spec 3 (boot example_graph)) as (w' & -> & _ & Hthr & _).
  - reflexivity.
  - simpl. lia.
  - reflexivity.
  - change (Some (thr w') = Some [PcMain 0; PcDequeue; PcDequeue; PcDequeue]).
    by rewrite Hthr.
Defined.

(** ** [process_node] on a node that is not visited *)

Lemma queued_tasks_ok w q :
  queued w q →
  tasks_ok [main_for 1] w (AState q 1 [] [] 0 None [] []).
Proof.
  intros (l & Hinv & Hq). exists [], l. split; [done|]. split; [constructor|].
  split; [done|]. split; [done|]. rewrite app_nil_r. apply Hinv.
Qed.

Lemma tasks_ok_queued w a : tasks_ok [main_for 1] w a → queued w (aq a).
Proof. intros (wks & l & _ & _ & Hinv & Hq & _). by exists l. Qed.

(** The loop of lines 44 to 57, from index [i] on. *)
Lemma neighbour_loop node k : ∀ i w q,
  (i + k = length (neighbours node))%nat →
  Forall (fun v => v < length (visited (graph w)))%nat (neighbours node) →
  rcs w = [] → mutex_queue (tp w) = None → heap_ok w → queued w q →
  Z.of_nat (length q + k) ≤ UINT_MAX →
  ∃ w', for_from k i (process_node_neighbour node) w = Ret tt w' ∧
        graph w' = graph w ∧ sum w' = sum w ∧ mutex_graph w' = mutex_graph w ∧
        self w' = self w ∧ rcs w' = [] ∧ mutex_queue (tp w') = None ∧
        finished (tp w') = finished (tp w) ∧ out w' = out w ∧ thr w' = thr w ∧
        heap_ok w' ∧
        queued w' (q ++ filter (fun v => visited (graph w) !! v = Some NOT_VISITED)
                               (drop i (neighbours node))).
Proof.
  induction k as [|k IH]; intros i w q Hik Hrange Hrcs Hmq Hok Hq Hroom.
  { exists w. rewrite drop_ge by lia. simpl. rewrite app_nil_r.
    do 10 (split; [done|]). done. }
  assert (is_Some (neighbours node !! i)) as [v Hv] by (apply lookup_lt_is_Some; lia).
  assert (is_Some (visited (graph w) !! v)) as [s Hs].
  { apply lookup_lt_is_Some. exact (Forall_lookup_1 _ _ _ _ Hrange Hv). }
  rewrite (drop_S _ _ _ Hv). simpl for_from.
  rewrite filter_cons.
  destruct (decide (s = NOT_VISITED)) as [->|Hne].
  - rewrite decide_True by done.
    destruct (spawn_tasks 1 (le_n 1) v w (self w) _ _ [] 1%nat [] []
                Hrcs Hmq Hok (queued_tasks_ok w q Hq))
      as (hd & hp & Hrun & Hok' & Htasks); [simpl; lia|constructor|done|].
    change (set_self (self w) w) with w in *.
    apply tasks_ok_queued in Htasks. simpl in Htasks.
    assert (process_node_neighbour node i w = Ret tt (spawned v hd hp w)) as Hstep.
    { rewrite process_node_neighbour_eq, Hv, Hs. by rewrite bool_decide_eq_true_2. }
    rewrite (bind_eq _ _ _ _ _ Hstep).
    destruct (IH (S i) (spawned v hd hp w) (q ++ [v])) as (w' & Hloop & Hrest);
      try done.
    + lia.
    + simpl. by rewrite Hrcs.
    + rewrite length_app. simpl. lia.
    + exists w'. split; [exact Hloop|].
      destruct Hrest as (-> & -> & -> & -> & ? & ? & -> & -> & -> & ? & Hq').
      rewrite <- app_assoc in Hq'. do 10 (split; [done|]). done.
  - rewrite decide_False by (rewrite Hs; by intros [= ->]).
    assert (process_node_neighbour node i w = Ret tt w) as Hstep.
    { rewrite process_node_neighbour_eq, Hv, Hs. by rewrite bool_decide_eq_false_2. }
    rewrite (bind_eq _ _ _ _ _ Hstep).
    apply IH; try done; lia.
Qed.

(** X10: [process_node] on a node that is not visited, run without another
    thread in between and with a library that does not fail: it adds the
    value of the node to [sum], marks the node [DONE], and puts in the queue
    one task per entry of the neighbour array whose node is not visited, in
    the order of the array.  A node that is twice in the array gets two
    tasks; the node itself, if it is its own neighbour, gets none.  Both
    mutexes are free again at the end. *)
Theorem process_node_visits arg idx node w q :
  heap w !! arg = Some (OUint idx) →
  visited (graph w) !! idx = Some NOT_VISITED →
  nodes (graph w) !! idx = Some node →
  length (neighbours node) = num_neighbours node →
  Forall (fun v => v < length (visited (graph w)))%nat (neighbours node) →
  rcs w = [] → mutex_graph w = None → mutex_queue (tp w) = None →
  heap_ok w → queued w q →
  Z.of_nat (length q + num_neighbours node) ≤ UINT_MAX →
  ∃ w', process_node arg w = Ret tt w' ∧
        sum w' = wrap_int (sum w + info node) ∧
        visited (graph w') = <[idx := DONE]> (visited (graph w)) ∧
        queued w' (q ++ filter (fun v => <[idx := DONE]> (visited (graph w)) !! v
                                         = Some NOT_VISITED) (neighbours node)) ∧
        mutex_graph w' = None ∧ mutex_queue (tp w') = None ∧
        finished (tp w') = finished (tp w) ∧ out w' = out w.
Proof.
  intros Harg Hvis Hnode Hlen Hrange Hrcs Hmg Hmq Hok Hq Hroom.
  set (w1 := visit idx node (locked MutexGraph w)).
  assert (process_node_enter arg w = Ret (Some idx) w1) as Henter.
  { rewrite (process_node_enter_eq _ _ idx NOT_VISITED Harg Hvis).
    rewrite decide_True by (unfold rc0; by rewrite Hrcs).
    simpl owner. rewrite Hmg. rewrite decide_True by done. by rewrite Hnode. }
  assert (load_graph_node idx w1 = Ret node w1) as Hload.
  { unfold load_graph_node. simpl. by rewrite Hnode. }
  destruct (neighbour_loop node (num_neighbours node) 0 w1 q)
    as (w2 & Hloop & Hg & Hs & Hm & Hself & Hr & Hmq2 & Hfin & Hout & _ & _ & Hq2).
  { lia. }
  { simpl. by rewrite length_insert. }
  { simpl. by rewrite Hrcs. }
  { exact Hmq. }
  { exact (heap_ok_same w _ eq_refl eq_refl Hok). }
  { destruct Hq as (l & Hinv & Hl). exists l. split.
    - eapply queue_inv_frame; [| | |exact Hinv]; done.
    - eapply Forall2_impl; [exact Hl|]. intros t u. by apply task_for_same. }
  { exact Hroom. }
  assert (process_node_leave w2 = Ret tt (unlocked MutexGraph w2)) as Hleave.
  { unfold process_node_leave. rewrite unlock_die_end.
    rewrite decide_True by (unfold rc0; by rewrite Hr).
    rewrite decide_True; [done|]. simpl. by rewrite Hm, Hself. }
  exists (unlocked MutexGraph w2). split.
  { assert ((let* node := load_graph_node idx in
              for_from (num_neighbours node) 0 (process_node_neighbour node)) w1 =
            Ret tt w2) as Hmid.
    { rewrite (bind_eq _ _ _ _ _ Hload). exact Hloop. }
    unfold process_node. rewrite (bind_eq _ _ _ _ _ Henter).
    rewrite (bind_eq _ _ _ _ _ Hmid). exact Hleave. }
  simpl. rewrite Hs, Hg, Hmq2, Hfin, Hout. repeat split; done.
Qed.

Lemma three_more_queued : queued three_more [0%nat].
Proof.
  exists [4]. split; [apply queue_invb_inv; vm_compute; reflexivity|].
  constructor; [|constructor].
  split; [reflexivity|]. split; [vm_compute; reflexivity|].
  vm_compute. eauto.
Qed.

Lemma process_node_visits_witness :
  (fun w => (sum w, num_tasks (tp w), visited (graph w) !! 0%nat)) <$>
    last_world (process_node 3 three_more) = Some (10, 3, Some DONE).
Proof.
  assert (Hok : heap_ok three_more) by (apply heap_ok_check; vm_compute; reflexivity).
  assert (Hr : Forall (fun v => v < length (visited (graph three_more)))%nat [1; 2]%nat).
  { repeat constructor; vm_compute; lia. }
  destruct (process_node_visits 3 0%nat (Node 10 2 [1; 2]%nat) three_more [0%nat])
    as (w' & -> & Hsum & Hvis & (l & Hinv & Hl) & _);
    [vm_compute; reflexivity|vm_compute; reflexivity|vm_compute; reflexivity|reflexivity|
     exact Hr|vm_compute; reflexivity|vm_compute; reflexivity|vm_compute; reflexivity|
     exact Hok|exact three_more_queued|vm_compute; discriminate|].
  change (Some (sum w', num_tasks (tp w'), visited (graph w') !! 0%nat) =
          Some (10, 3, Some DONE)).
  destruct Hinv as (_ & _ & Hn & _). apply Forall2_length in Hl.
  rewrite Hsum, Hvis, Hn, Hl. clear. vm_compute. reflexivity.
Defined.

(** ** [destroy_threadpool] *)








(** ** The heap of a run *)


